(** * Sectify protected-audio core: a shallow embedding and its properties

    The development follows the Python sources under [app/core]:
    - [chaotic_cipher.py]            -> [Module ChaoticCipher]
    - [chaotic_audio_protection.py]  -> [Module AudioProtection], [Module AudioFiles]
    - [authorization.py]             -> [Module Authorization], [Module AccessTokens]
    - [token_utils.py]               -> [Module TokenUtils]
    - [file_lock_manager.py]         -> [Module FileLockManager]
    - [session_manager.py]           -> [Module SessionManager]
    - [hls_cleanup.py]               -> [Module HlsCleanup]

    Conventions.  A Python [bytes] value is a [list byte]; a Python [str] is a
    Rocq [string] read as a sequence of code points below 256; a numpy float64
    or a Python float is a primitive binary64 [float]; Python's unbounded [int]
    is [Z].  Exceptions are values of a sum type; module-level dictionaries
    are [gmap]s threaded through the functions that mutate them. *)

From Stdlib Require Import ZArith List Bool Ascii String Strings.Byte Floats Uint63.
From stdpp Require Import base option list gmap strings.

Set Warnings "-inexact-float,-abstract-large-number,-register-all,-clear-no-such-hyp".

#[local] Open Scope Z_scope.

(** ** Python values and built-ins used by the sources *)

Module Py.

Abbreviation bytes := (list byte).

#[global] Instance byte_eq_decision : EqDecision byte := Byte.byte_eq_dec.

Definition u8 (b : byte) : Z := Z.of_N (Byte.to_N b).

(** [bytes([v])] for an integer already reduced with [& 0xFF]. *)
Definition byte_of_Z (z : Z) : byte :=
  match Byte.of_N (Z.to_N (Z.land z 255)) with
  | Some b => b
  | None => "000"%byte
  end.

Definition bits8 : Type :=
  bool * (bool * (bool * (bool * (bool * (bool * (bool * bool)))))).

Definition xor_bits8 (p q : bits8) : bits8 :=
  let '(a0, (a1, (a2, (a3, (a4, (a5, (a6, a7))))))) := p in
  let '(b0, (b1, (b2, (b3, (b4, (b5, (b6, b7))))))) := q in
  (xorb a0 b0, (xorb a1 b1, (xorb a2 b2, (xorb a3 b3,
  (xorb a4 b4, (xorb a5 b5, (xorb a6 b6, xorb a7 b7))))))).

(** [b ^ k] on two values taken from [bytes] objects. *)
Definition byte_xor (a b : byte) : byte :=
  Byte.of_bits (xor_bits8 (Byte.to_bits a) (Byte.to_bits b)).

(** [bytes([b ^ k for b, k in zip(data, keystream)])]; [zip] stops at the
    shorter argument. *)
Definition xor_zip (data keystream : bytes) : bytes :=
  zip_with byte_xor data keystream.

(** [int.from_bytes(bs, 'big')]. *)
Definition int_from_bytes_big (bs : bytes) : Z :=
  fold_left (fun acc b => acc * 256 + u8 b) bs 0.

(** [l[a:b]] for non-negative [a], [b]. *)
Definition slice {A} (l : list A) (a b : nat) : list A :=
  take (b - a) (drop a l).

(** The bytes of an ASCII literal such as [b"HMAC_DERIVE"]. *)
Definition bytes_lit (s : string) : bytes := list_byte_of_string s.

(** [str.encode()] (UTF-8) on code points below 256. *)
Definition encode_char (c : ascii) : bytes :=
  let n := Z.of_N (N_of_ascii c) in
  if n <? 128 then [byte_of_Z n]
  else [byte_of_Z (Z.lor 192 (Z.shiftr n 6)); byte_of_Z (Z.lor 128 (Z.land n 63))].

Definition str_encode (s : string) : bytes :=
  flat_map encode_char (list_ascii_of_string s).

(** [str.lower()] on code points below 256. *)
Definition lower_char (c : ascii) : ascii :=
  let n := N_of_ascii c in
  if ((65 <=? n) && (n <=? 90))%N then ascii_of_N (n + 32)
  else if ((192 <=? n) && (n <=? 222) && negb (n =? 215))%N then ascii_of_N (n + 32)
  else c.

Fixpoint str_lower (s : string) : string :=
  match s with
  | EmptyString => EmptyString
  | String c s' => String (lower_char c) (str_lower s')
  end.

(** [range(start, stop, step)] for a positive step; [fuel] bounds the number
    of elements, and [stop] is always enough of it. *)
Fixpoint range_from (fuel start stop step : nat) : list nat :=
  match fuel with
  | O => []
  | S fuel' =>
      if (start <? stop)%nat
      then start :: range_from fuel' (start + step) stop step
      else []
  end.

Definition range3 (start stop step : nat) : list nat :=
  range_from stop start stop step.

(** Exceptions raised by the modelled code. *)
Inductive ValueErrorMsg :=
| InvalidDataTooShort        (* "Invalid data - too short" *)
| IntegrityVerificationFailed (* "Integrity verification failed - ..." *)
| SecretKeyNotStrongEnough   (* "Secret key not strong enough. ..." *)
| DataTooLarge               (* "Data too large (>50MB)" *)
| CannotConvertNaN.          (* int(float('nan')) *)

Inductive exn :=
| ValueError (msg : ValueErrorMsg)
| OverflowError              (* int(float('inf')) *)
| IndexError.

Inductive Result (A : Type) :=
| Ok (a : A)
| Raise (e : exn).
Arguments Ok {A} a.
Arguments Raise {A} e.

Definition rbind {A B} (r : Result A) (k : A -> Result B) : Result B :=
  match r with
  | Ok a => k a
  | Raise e => Raise e
  end.

(** [float(n)] for [0 <= n < 2^63]. *)
Definition float_of_Z (n : Z) : float := PrimFloat.of_uint63 (Uint63.of_Z n).

(** [int(v)] on a float: truncation toward zero; NaN and the infinities
    raise. *)
Definition int_of_float (v : float) : Result Z :=
  match Prim2SF v with
  | S754_zero _ => Ok 0
  | S754_infinity _ => Raise OverflowError
  | S754_nan => Raise (ValueError CannotConvertNaN)
  | S754_finite s m e =>
      let mag := if 0 <=? e then Z.shiftl (Zpos m) e else Z.shiftr (Zpos m) (- e) in
      Ok (if s then - mag else mag)
  end.

(** [np.roll(a, 1)] and [np.roll(a, -1)] on a one-dimensional array. *)
Definition roll_fwd {A} (l : list A) : list A :=
  drop (length l - 1) l ++ take (length l - 1) l.

Definition roll_back {A} (l : list A) : list A :=
  match l with
  | [] => []
  | h :: t => t ++ [h]
  end.

End Py.

(** ** [app/core/chaotic_cipher.py] *)

Module ChaoticCipher.
Import Py.

(** The module-level configuration, computed once when the module is
    imported. *)
Record CipherModule := {
  PERFORMANCE_MODE : string;
  LATTICE_SIZE : nat;
  TRANSIENT_STEPS : nat;
  PBKDF2_ITERATIONS : Z
}.

Definition configure (mode : string) : CipherModule :=
  if String.eqb mode "fast" then
    {| PERFORMANCE_MODE := mode; LATTICE_SIZE := 1;
       TRANSIENT_STEPS := 5; PBKDF2_ITERATIONS := 10 |}
  else if String.eqb mode "secure" then
    {| PERFORMANCE_MODE := mode; LATTICE_SIZE := 16;
       TRANSIENT_STEPS := 1000; PBKDF2_ITERATIONS := 10000 |}
  else
    {| PERFORMANCE_MODE := mode; LATTICE_SIZE := 8;
       TRANSIENT_STEPS := 500; PBKDF2_ITERATIONS := 5000 |}.

(** [os.environ.get('CHAOTIC_PERFORMANCE_MODE', 'balanced').lower()] and the
    [if]/[elif]/[else] that follows it, run at import. *)
Definition import_module (environ : gmap string string) : CipherModule :=
  configure (str_lower (default "balanced"%string (environ !! "CHAOTIC_PERFORMANCE_MODE"%string))).

Definition is_fast (cm : CipherModule) : bool :=
  String.eqb (PERFORMANCE_MODE cm) "fast".

(** The lattice: state vector [x], parameter vector [r], coupling [epsilon]. *)
Record CMLState := {
  cml_x : list float;
  cml_r : list float;
  cml_epsilon : float
}.

(** What the interpreter does around the pure computations: entropy is
    consumed by [secrets.token_bytes], and the calls and log records that
    the properties below speak about are recorded in order. *)
Inductive Event :=
| EvInitializeCml (salt : bytes)
| EvGenerateKeystream (st : CMLState) (length : nat)
| EvAnalyzeChaos (st : CMLState)
| EvLoggerWarning (index : nat).

Record World := {
  entropy_used : nat;
  trace : list Event
}.

Definition M (A : Type) : Type := World -> Result A * World.

Definition ret {A} (a : A) : M A := fun w => (Ok a, w).

Definition raise {A} (e : exn) : M A := fun w => (Raise e, w).

Definition bind {A B} (m : M A) (k : A -> M B) : M B :=
  fun w =>
    match m w with
    | (Ok a, w') => k a w'
    | (Raise e, w') => (Raise e, w')
    end.

Definition lift {A} (r : Result A) : M A := fun w => (r, w).

Definition record (e : Event) : M unit :=
  fun w => (Ok tt, {| entropy_used := entropy_used w; trace := trace w ++ [e] |}).

Notation "'let*' x ':=' c 'in' k" := (bind c (fun x => k))
  (at level 10, x pattern, c at level 100, k at level 200).
Notation "c ;;; k" := (bind c (fun _ => k))
  (at level 100, right associativity).

Section Cipher.

(** The operating system's entropy source, byte by byte, and the primitives
    of the [cryptography] and [hashlib] packages. *)
Variable os_entropy : nat -> byte.
Variable PBKDF2HMAC_SHA256 :
  forall (length : nat) (salt : bytes) (iterations : Z) (key_material : bytes), bytes.
Variable blake2b_32 : forall (data person : bytes), bytes.
Variable hmac_sha256 : forall (key msg : bytes), bytes.

(** The Unicode character classes behind [str.islower] and the like. *)
Variable islower isupper isdigit isalnum : ascii -> bool.

Variable cm : CipherModule.

(** [secrets.token_bytes(n)] *)
Definition token_bytes (n : nat) : M bytes :=
  fun w =>
    (Ok (map os_entropy (seq (entropy_used w) n)),
     {| entropy_used := (entropy_used w + n)%nat; trace := trace w |}).

Definition seed_bytes (key : bytes) (i : nat) : bytes :=
  if (i * 2 + 1 <? length key)%nat
  then slice key (i * 2) ((i + 1) * 2)
  else slice key (i mod 16) (i mod 16 + 2).

Definition seed_val (key : bytes) (i : nat) : float :=
  float_of_Z (int_from_bytes_big (seed_bytes key i)).

Definition derive_state (master_key : bytes) : CMLState :=
  let x_key := blake2b_32 master_key (bytes_lit "CML_INIT_STATE") in
  let r_key := blake2b_32 master_key (bytes_lit "CML_PARAMETERS") in
  let eps_key := blake2b_32 master_key (bytes_lit "CML_COUPLING") in
  let x := map (fun i => 0.1 + (seed_val x_key i / 65535.0) * 0.8)%float
               (seq 0 (LATTICE_SIZE cm)) in
  let r := map (fun i => 3.8 + (seed_val r_key i / 65535.0) * 0.2)%float
               (seq 0 (LATTICE_SIZE cm)) in
  let eps_val := int_from_bytes_big (take 4 eps_key) in
  let epsilon := (0.1 + (float_of_Z eps_val / float_of_Z (2 ^ 32 - 1)) * 0.3)%float in
  {| cml_x := x; cml_r := r; cml_epsilon := epsilon |}.

Definition master_key_for (secret_key : string) (salt : bytes) : bytes :=
  PBKDF2HMAC_SHA256 64 salt (PBKDF2_ITERATIONS cm) (str_encode secret_key).

Definition _initialize_cml (secret_key : string) (salt : option bytes)
  : M (CMLState * bytes) :=
  let* salt := match salt with
               | None => token_bytes 32
               | Some s => ret s
               end in
  record (EvInitializeCml salt) ;;;
  ret (derive_state (master_key_for secret_key salt), salt).

(** One evolution step: the three assignments to [x_current] at the head of
    both loop bodies. *)
Definition evolve (r : list float) (epsilon : float) (x_current : list float)
  : list float :=
  let x1 := zip_with (fun ri xi => ri * xi * (1 - xi))%float r x_current in
  let coupled := zip_with (fun a b => (a + b) * 0.5)%float (roll_fwd x1) (roll_back x1) in
  zip_with (fun xi ci => (1 - epsilon) * xi + epsilon * ci)%float x1 coupled.

Definition scramble_freq : nat := if is_fast cm then 50%nat else 100%nat.

Definition transient_step (r : list float) (epsilon : float)
    (x_current : list float) (i : nat) : list float :=
  let x' := evolve r epsilon x_current in
  if (i mod scramble_freq =? 0)%nat then roll_fwd x' else x'.

Definition transient_phase (r : list float) (epsilon : float) (x : list float)
  : list float :=
  fold_left (transient_step r epsilon) (seq 0 (TRANSIENT_STEPS cm)) x.

Definition mix_site (j : nat) (v : float) : Result Z :=
  rbind (int_of_float (v * 255)%float) (fun n =>
  let val := Z.land n 255 in
  if is_fast cm then Ok val
  else
    let s := Z.of_nat (j mod 8) in
    Ok (Z.land (Z.lor (Z.shiftl val s) (Z.shiftr val (8 - s))) 255)).

(** The loop [for j in range(LATTICE_SIZE)] accumulating [byte_val]. *)
Fixpoint output_sites (x_current : list float) (js : list nat) (byte_val : Z)
  : Result Z :=
  match js with
  | [] => Ok byte_val
  | j :: js' =>
      match x_current !! j with
      | None => Raise IndexError
      | Some v =>
          rbind (mix_site j v) (fun m => output_sites x_current js' (Z.lxor byte_val m))
      end
  end.

Definition output_byte (x_current : list float) : Result byte :=
  rbind (output_sites x_current (seq 0 (LATTICE_SIZE cm)) 0) (fun b0 =>
  let b2 :=
    if is_fast cm then b0
    else
      let b1 := Z.lxor b0 (Z.land (Z.shiftl b0 1) 255) in
      Z.lxor b1 (Z.land (Z.shiftr b1 1) 255) in
  Ok (byte_of_Z (Z.land b2 255))).

(** The inner loop [for i in range(chunk_size)]: returns the chunk and the
    lattice state it leaves behind. *)
Fixpoint fill_chunk (r : list float) (epsilon : float) (chunk_size : nat)
    (x_current : list float) : Result (bytes * list float) :=
  match chunk_size with
  | O => Ok ([], x_current)
  | S n =>
      let x' := evolve r epsilon x_current in
      rbind (output_byte x') (fun b =>
      rbind (fill_chunk r epsilon n x') (fun '(rest, x'') =>
      Ok (b :: rest, x'')))
  end.

(** The outer loop [for chunk_start in range(0, length, CHUNK_SIZE)]. *)
Fixpoint chunk_loop (r : list float) (epsilon : float) (CHUNK_SIZE length : nat)
    (starts : list nat) (keystream : bytes) (x_current : list float)
  : Result (bytes * list float) :=
  match starts with
  | [] => Ok (keystream, x_current)
  | chunk_start :: starts' =>
      let chunk_size := Nat.min CHUNK_SIZE (length - chunk_start) in
      rbind (fill_chunk r epsilon chunk_size x_current) (fun '(chunk_data, x') =>
      chunk_loop r epsilon CHUNK_SIZE length starts' (keystream ++ chunk_data) x')
  end.

(** [_generate_keystream_cml] with the chunk size made a parameter. *)
Definition keystream_chunked (CHUNK_SIZE : nat) (st : CMLState) (length : nat)
  : Result bytes :=
  let x_current := transient_phase (cml_r st) (cml_epsilon st) (cml_x st) in
  rbind (chunk_loop (cml_r st) (cml_epsilon st) CHUNK_SIZE length
           (range3 0 length CHUNK_SIZE) [] x_current)
        (fun '(keystream, _) => Ok keystream).

Definition CHUNK_SIZE : nat := if is_fast cm then 8192%nat else 2048%nat.

Definition _generate_keystream_cml (st : CMLState) (length : nat) : Result bytes :=
  keystream_chunked CHUNK_SIZE st length.

(** The keystream as a plain byte-after-byte stream: a transient, then one
    evolution step per emitted byte. *)
Definition keystream_unchunked (st : CMLState) (length : nat) : Result bytes :=
  let x_current := transient_phase (cml_r st) (cml_epsilon st) (cml_x st) in
  rbind (fill_chunk (cml_r st) (cml_epsilon st) length x_current)
        (fun '(keystream, _) => Ok keystream).

Definition hmac_key_for (secret_key : string) (salt : bytes) : bytes :=
  PBKDF2HMAC_SHA256 32 (salt ++ bytes_lit "HMAC_DERIVE") (PBKDF2_ITERATIONS cm)
    (str_encode secret_key).

Definition mac_over (secret_key : string) (salt encrypted_data : bytes) : bytes :=
  hmac_sha256 (hmac_key_for secret_key salt) (salt ++ encrypted_data).

Definition generate_keystream (st : CMLState) (length : nat) : M bytes :=
  record (EvGenerateKeystream st length) ;;;
  lift (_generate_keystream_cml st length).

Definition encrypt (data : bytes) (secret_key : string) : M bytes :=
  let* (st, salt) := _initialize_cml secret_key None in
  let* keystream := generate_keystream st (length data) in
  let encrypted_data := xor_zip data keystream in
  let mac := mac_over secret_key salt encrypted_data in
  ret (salt ++ mac ++ encrypted_data).

(** [hmac.compare_digest] *)
Definition compare_digest (a b : bytes) : bool := bool_decide (a = b).

Definition decrypt (data : bytes) (secret_key : string) : M bytes :=
  if (length data <? 64)%nat then raise (ValueError InvalidDataTooShort)
  else
    let salt := slice data 0 32 in
    let received_mac := slice data 32 64 in
    let encrypted_data := drop 64 data in
    let expected_mac := mac_over secret_key salt encrypted_data in
    if negb (compare_digest expected_mac received_mac)
    then raise (ValueError IntegrityVerificationFailed)
    else
      let* (st, _) := _initialize_cml secret_key (Some salt) in
      let* keystream := generate_keystream st (length encrypted_data) in
      ret (xor_zip encrypted_data keystream).

Definition validate_key_strength (secret_key : string) : bool :=
  if (String.length secret_key <? 12)%nat then false
  else
    let cs := list_ascii_of_string secret_key in
    let has_lower := existsb islower cs in
    let has_upper := existsb isupper cs in
    let has_digit := existsb isdigit cs in
    let has_special := existsb (fun c => negb (isalnum c)) cs in
    let char_types :=
      (Nat.b2n has_lower + Nat.b2n has_upper + Nat.b2n has_digit + Nat.b2n has_special)%nat in
    (3 <=? char_types)%nat.

(** The warnings of [analyze_chaos_parameters], by what they report. *)
Inductive ChaosWarning :=
| WarnR (i : nat)
| WarnX (i : nat)
| WarnEpsilonTooSmall
| WarnEpsilonTooLarge.

Record ChaosAnalysis := {
  is_chaotic : bool;
  warnings : list ChaosWarning
}.

(** The informational [parameters] entry of the returned dictionary (lattice
    size, mean of [r], epsilon) is read by no caller and is left out. *)
Definition analyze_chaos_parameters (st : CMLState) : ChaosAnalysis :=
  let wr := omap (fun '(i, r_val) =>
                    if (r_val <? 3.57)%float || (4.0 <? r_val)%float
                    then Some (WarnR i) else None)
                 (imap pair (cml_r st)) in
  let wx := omap (fun '(i, x_val) =>
                    if (x_val <=? 0.05)%float || (0.95 <=? x_val)%float
                    then Some (WarnX i) else None)
                 (imap pair (cml_x st)) in
  let we := if (cml_epsilon st <? 0.05)%float then [WarnEpsilonTooSmall]
            else if (0.5 <? cml_epsilon st)%float then [WarnEpsilonTooLarge]
            else [] in
  let ws := wr ++ wx ++ we in
  {| is_chaotic := match ws with [] => true | _ => false end; warnings := ws |}.

Definition log_warnings (ws : list ChaosWarning) : M unit :=
  fold_left (fun acc i => acc ;;; record (EvLoggerWarning i)) (seq 0 (length ws)) (ret tt).

Definition encrypt_with_validation (data : bytes) (secret_key : string) : M bytes :=
  if negb (validate_key_strength secret_key)
  then raise (ValueError SecretKeyNotStrongEnough)
  else if (50 * 1024 * 1024 <? Z.of_nat (length data))
  then raise (ValueError DataTooLarge)
  else
    let* (st, salt) := _initialize_cml secret_key None in
    record (EvAnalyzeChaos st) ;;;
    let chaos_analysis := analyze_chaos_parameters st in
    (if negb (is_chaotic chaos_analysis)
     then log_warnings (warnings chaos_analysis)
     else ret tt) ;;;
    encrypt data secret_key.

Definition decrypt_with_validation (data : bytes) (secret_key : string) : M bytes :=
  if negb (validate_key_strength secret_key)
  then raise (ValueError SecretKeyNotStrongEnough)
  else decrypt data secret_key.

(** *** Properties of the byte and list helpers *)

Lemma byte_xor_cancel (a k : byte) : byte_xor (byte_xor a k) k = a.
Proof.
  unfold byte_xor. rewrite Byte.to_bits_of_bits.
  destruct (Byte.to_bits a) as [a0 [a1 [a2 [a3 [a4 [a5 [a6 a7]]]]]]] eqn:Ha.
  destruct (Byte.to_bits k) as [k0 [k1 [k2 [k3 [k4 [k5 [k6 k7]]]]]]].
  cbn [xor_bits8].
  rewrite !xorb_assoc, !xorb_nilpotent, !xorb_false_r, <- Ha.
  apply Byte.of_bits_to_bits.
Qed.

Lemma xor_zip_length (d ks : bytes) :
  length ks = length d -> length (xor_zip d ks) = length d.
Proof.
  intros H. unfold xor_zip. rewrite length_zip_with. lia.
Qed.

Lemma xor_zip_cancel (d ks : bytes) :
  length ks = length d -> xor_zip (xor_zip d ks) ks = d.
Proof.
  revert ks. induction d as [|b d IH]; intros [|k ks] H; simpl in *; try done.
  rewrite byte_xor_cancel. f_equal. apply IH. lia.
Qed.

Lemma roll_fwd_length {A} (l : list A) : length (roll_fwd l) = length l.
Proof.
  unfold roll_fwd. rewrite length_app, length_drop, length_take. lia.
Qed.

Lemma roll_back_length {A} (l : list A) : length (roll_back l) = length l.
Proof.
  destruct l as [|h t]; simpl; [done|]. rewrite length_app. simpl. lia.
Qed.

(** *** The lattice keeps its size *)

Lemma evolve_length r epsilon x :
  length r = length x -> length (evolve r epsilon x) = length x.
Proof.
  intros H. unfold evolve.
  rewrite !length_zip_with, roll_fwd_length, roll_back_length, !length_zip_with. lia.
Qed.

Lemma transient_step_length r epsilon x i :
  length r = length x -> length (transient_step r epsilon x i) = length x.
Proof.
  intros H. unfold transient_step.
  destruct (_ =? _)%nat; rewrite ?roll_fwd_length; by apply evolve_length.
Qed.

Lemma transient_phase_length r epsilon x :
  length r = length x -> length (transient_phase r epsilon x) = length x.
Proof.
  unfold transient_phase. generalize (seq 0 (TRANSIENT_STEPS cm)).
  intros steps. revert x. induction steps as [|i steps IH]; intros x H; simpl; [done|].
  rewrite IH; rewrite transient_step_length; done.
Qed.

Lemma derive_state_lengths master_key :
  length (cml_x (derive_state master_key)) = LATTICE_SIZE cm /\
  length (cml_r (derive_state master_key)) = LATTICE_SIZE cm.
Proof.
  unfold derive_state. simpl. rewrite !length_map, !length_seq. done.
Qed.

(** *** Failures of the output function *)

Definition float_failure (e : exn) : Prop :=
  e = OverflowError \/ e = ValueError CannotConvertNaN.

Lemma int_of_float_failure v e : int_of_float v = Raise e -> float_failure e.
Proof.
  unfold int_of_float, float_failure.
  destruct (Prim2SF v); intros H; inversion H; auto.
Qed.

Lemma mix_site_failure j v e : mix_site j v = Raise e -> float_failure e.
Proof.
  unfold mix_site. destruct (int_of_float _) as [n|e'] eqn:E; simpl.
  - destruct (is_fast cm); discriminate.
  - intros H. inversion H; subst. by eapply int_of_float_failure.
Qed.

Lemma output_sites_failure x js acc e :
  (forall j, j ∈ js -> (j < length x)%nat) ->
  output_sites x js acc = Raise e -> float_failure e.
Proof.
  revert acc. induction js as [|j js IH]; intros acc Hjs; simpl; [discriminate|].
  destruct (x !! j) as [v|] eqn:Hv.
  - destruct (mix_site j v) as [m|e'] eqn:Hm; simpl.
    + apply IH. intros j' Hj'. apply Hjs. by right.
    + intros H. inversion H; subst. by eapply mix_site_failure.
  - apply lookup_ge_None in Hv. specialize (Hjs j). 
    assert (j < length x)%nat by (apply Hjs; left). lia.
Qed.

Lemma output_byte_failure x e :
  length x = LATTICE_SIZE cm -> output_byte x = Raise e -> float_failure e.
Proof.
  intros Hx. unfold output_byte.
  destruct (output_sites _ _ _) as [b|e'] eqn:E; simpl; [discriminate|].
  intros H. inversion H; subst. eapply output_sites_failure; [|exact E].
  intros j Hj. apply elem_of_seq in Hj. lia.
Qed.

Lemma fill_chunk_failure r epsilon n x e :
  length r = length x -> length x = LATTICE_SIZE cm ->
  fill_chunk r epsilon n x = Raise e -> float_failure e.
Proof.
  revert x. induction n as [|n IH]; intros x Hr Hx; simpl; [discriminate|].
  destruct (output_byte _) as [b|e'] eqn:Hb; simpl.
  - destruct (fill_chunk r epsilon n _) as [[rest x'']|e''] eqn:Hf; simpl; [discriminate|].
    intros H. inversion H; subst. eapply IH; [| |exact Hf].
    + by rewrite evolve_length.
    + by rewrite evolve_length.
  - intros H. inversion H; subst. eapply output_byte_failure; [|exact Hb].
    by rewrite evolve_length.
Qed.

(** *** The chunked loop against the byte-after-byte stream *)

Lemma fill_chunk_length r epsilon n x k x' :
  fill_chunk r epsilon n x = Ok (k, x') -> length k = n.
Proof.
  revert x k x'. induction n as [|n IH]; intros x k x'; simpl.
  - intros H. inversion H. done.
  - destruct (output_byte _) as [b|]; simpl; [|discriminate].
    destruct (fill_chunk r epsilon n _) as [[rest x'']|] eqn:Hf; simpl; [|discriminate].
    intros H. inversion H; subst. simpl. f_equal. by eapply IH.
Qed.

Lemma fill_chunk_app r epsilon a b x :
  fill_chunk r epsilon (a + b) x =
  rbind (fill_chunk r epsilon a x) (fun '(k1, x1) =>
  rbind (fill_chunk r epsilon b x1) (fun '(k2, x2) => Ok (k1 ++ k2, x2))).
Proof.
  revert x. induction a as [|a IH]; intros x; simpl.
  - destruct (fill_chunk r epsilon b x) as [[k2 x2]|]; reflexivity.
  - destruct (output_byte _) as [b0|]; simpl; [|reflexivity].
    rewrite IH.
    destruct (fill_chunk r epsilon a _) as [[k1 x1]|]; simpl; [|reflexivity].
    destruct (fill_chunk r epsilon b x1) as [[k2 x2]|]; reflexivity.
Qed.

Lemma chunk_loop_fill r epsilon c len fuel start ks x :
  (0 < c)%nat -> (len - start <= fuel)%nat ->
  chunk_loop r epsilon c len (range_from fuel start len c) ks x =
  rbind (fill_chunk r epsilon (len - start) x) (fun '(k, x') => Ok (ks ++ k, x')).
Proof.
  intros Hc. revert start ks x.
  induction fuel as [|fuel IH]; intros start ks x Hfuel; simpl.
  - replace (len - start)%nat with 0%nat by lia. simpl. by rewrite app_nil_r.
  - destruct (start <? len)%nat eqn:Hlt.
    + apply Nat.ltb_lt in Hlt. simpl.
      replace (len - start)%nat
        with (Nat.min c (len - start) + (len - (start + c)))%nat at 2 by lia.
      rewrite fill_chunk_app.
      destruct (fill_chunk r epsilon (Nat.min c (len - start)) x) as [[cd x1]|]; simpl;
        [|reflexivity].
      rewrite IH by lia.
      destruct (fill_chunk r epsilon (len - (start + c)) x1) as [[k2 x2]|]; simpl;
        [|reflexivity].
      by rewrite app_assoc.
    + apply Nat.ltb_ge in Hlt.
      replace (len - start)%nat with 0%nat by lia. simpl. by rewrite app_nil_r.
Qed.

Lemma keystream_chunked_unchunked c st len :
  (0 < c)%nat -> keystream_chunked c st len = keystream_unchunked st len.
Proof.
  intros Hc. unfold keystream_chunked, keystream_unchunked, range3.
  rewrite chunk_loop_fill by lia. rewrite Nat.sub_0_r.
  destruct (fill_chunk _ _ len _) as [[k x']|]; reflexivity.
Qed.

Lemma CHUNK_SIZE_pos : (0 < CHUNK_SIZE)%nat.
Proof. unfold CHUNK_SIZE. destruct (is_fast cm); apply Nat.ltb_lt; vm_compute; done. Qed.

Lemma generate_keystream_unchunked st len :
  _generate_keystream_cml st len = keystream_unchunked st len.
Proof. apply keystream_chunked_unchunked, CHUNK_SIZE_pos. Qed.

Lemma keystream_unchunked_length st len K :
  keystream_unchunked st len = Ok K -> length K = len.
Proof.
  unfold keystream_unchunked.
  destruct (fill_chunk _ _ len _) as [[k x']|] eqn:E; simpl; [|discriminate].
  intros H. inversion H; subst. by eapply fill_chunk_length.
Qed.

Lemma keystream_unchunked_prefix st n m K :
  (n <= m)%nat -> keystream_unchunked st m = Ok K ->
  keystream_unchunked st n = Ok (take n K).
Proof.
  intros Hnm. unfold keystream_unchunked.
  replace m with (n + (m - n))%nat at 1 by lia. rewrite fill_chunk_app.
  destruct (fill_chunk _ _ n _) as [[k1 x1]|] eqn:E1; simpl; [|discriminate].
  destruct (fill_chunk _ _ (m - n) x1) as [[k2 x2]|]; simpl; [|discriminate].
  intros H. inversion H; subst.
  apply fill_chunk_length in E1.
  rewrite take_app_length'; done.
Qed.

Lemma keystream_failure st len e :
  length (cml_x st) = LATTICE_SIZE cm -> length (cml_r st) = LATTICE_SIZE cm ->
  _generate_keystream_cml st len = Raise e -> float_failure e.
Proof.
  intros Hx Hr. rewrite generate_keystream_unchunked. unfold keystream_unchunked.
  destruct (fill_chunk _ _ len _) as [[k x']|e'] eqn:E; simpl; [discriminate|].
  intros H. inversion H; subst. eapply fill_chunk_failure; [| |exact E].
  - rewrite transient_phase_length; congruence.
  - rewrite transient_phase_length; congruence.
Qed.

(** C8. Chunking does not change the keystream: whatever positive chunk size
    the generation loop is run with, it emits the byte-after-byte stream of
    the lattice, so the module's own chunk size, any other chunk size [c] and
    a single chunk of [m] bytes all give the same result; and the keystream
    of a shorter length [n <= m] is the first [n] bytes of the longer one. *)
Theorem chunking_preserves_keystream (st : CMLState) (c n m : nat) :
  (0 < c)%nat -> (n <= m)%nat ->
  keystream_chunked c st m = keystream_unchunked st m /\
  _generate_keystream_cml st m = keystream_chunked c st m /\
  (0 < m -> keystream_chunked c st m = keystream_chunked m st m)%nat /\
  (forall K, _generate_keystream_cml st m = Ok K ->
             length K = m /\ _generate_keystream_cml st n = Ok (take n K)).
Proof.
  intros Hc Hnm. repeat split.
  - by apply keystream_chunked_unchunked.
  - rewrite generate_keystream_unchunked. symmetry. by apply keystream_chunked_unchunked.
  - intros Hm. by rewrite !keystream_chunked_unchunked.
  - rewrite generate_keystream_unchunked in H. by eapply keystream_unchunked_length.
  - rewrite !generate_keystream_unchunked in *. by eapply keystream_unchunked_prefix.
Qed.

(** *** Running the monadic functions *)

Definition fresh_salt (w : World) : bytes :=
  map os_entropy (seq (entropy_used w) 32).

Definition cml_state_for (secret_key : string) (salt : bytes) : CMLState :=
  derive_state (master_key_for secret_key salt).

Definition after_draw (w : World) (n : nat) (evs : list Event) : World :=
  {| entropy_used := (entropy_used w + n)%nat; trace := trace w ++ evs |}.

Definition logged (w : World) (evs : list Event) : World :=
  {| entropy_used := entropy_used w; trace := trace w ++ evs |}.

Lemma fresh_salt_length w : length (fresh_salt w) = 32%nat.
Proof. unfold fresh_salt. by rewrite length_map, length_seq. Qed.

Lemma cml_state_for_lengths key salt :
  length (cml_x (cml_state_for key salt)) = LATTICE_SIZE cm /\
  length (cml_r (cml_state_for key salt)) = LATTICE_SIZE cm.
Proof. apply derive_state_lengths. Qed.

Lemma logged_logged w evs1 evs2 : logged (logged w evs1) evs2 = logged w (evs1 ++ evs2).
Proof. unfold logged. cbn [entropy_used trace]. by rewrite app_assoc. Qed.

Lemma logged_after_draw w n evs1 evs2 :
  logged (after_draw w n evs1) evs2 = after_draw w n (evs1 ++ evs2).
Proof. unfold logged, after_draw. cbn [entropy_used trace]. by rewrite app_assoc. Qed.

Lemma initialize_fresh_run key w :
  _initialize_cml key None w =
  (Ok (cml_state_for key (fresh_salt w), fresh_salt w),
   after_draw w 32 [EvInitializeCml (fresh_salt w)]).
Proof. reflexivity. Qed.

Lemma initialize_stored_run key salt w :
  _initialize_cml key (Some salt) w =
  (Ok (cml_state_for key salt, salt), logged w [EvInitializeCml salt]).
Proof. reflexivity. Qed.

Lemma generate_keystream_run st n w :
  generate_keystream st n w =
  (_generate_keystream_cml st n, logged w [EvGenerateKeystream st n]).
Proof. reflexivity. Qed.

Lemma encrypt_run data key w :
  let salt := fresh_salt w in
  let st := cml_state_for key salt in
  let w' := after_draw w 32 [EvInitializeCml salt; EvGenerateKeystream st (length data)] in
  encrypt data key w =
  match _generate_keystream_cml st (length data) with
  | Ok ks => (Ok (salt ++ mac_over key salt (xor_zip data ks) ++ xor_zip data ks), w')
  | Raise e => (Raise e, w')
  end.
Proof.
  intros salt st w'. subst salt st w'.
  unfold encrypt, bind. rewrite initialize_fresh_run, generate_keystream_run.
  rewrite logged_after_draw.
  destruct (_generate_keystream_cml _ _); reflexivity.
Qed.

Lemma blob_split (salt mac ct : bytes) :
  length salt = 32%nat -> length mac = 32%nat ->
  slice (salt ++ mac ++ ct) 0 32 = salt /\
  slice (salt ++ mac ++ ct) 32 64 = mac /\
  drop 64 (salt ++ mac ++ ct) = ct.
Proof.
  intros Hs Hm. unfold slice. repeat split.
  - rewrite drop_0. change (32 - 0)%nat with 32%nat. rewrite take_app_length'; done.
  - rewrite drop_app_length' by done. change (64 - 32)%nat with 32%nat.
    rewrite take_app_length'; done.
  - change 64%nat with (32 + 32)%nat. rewrite <- drop_drop.
    rewrite drop_app_length' by done. rewrite drop_app_length'; done.
Qed.

Lemma decrypt_run salt mac ct key w :
  length salt = 32%nat -> length mac = 32%nat ->
  let st := cml_state_for key salt in
  let w' := logged w [EvInitializeCml salt; EvGenerateKeystream st (length ct)] in
  decrypt (salt ++ mac ++ ct) key w =
  if negb (compare_digest (mac_over key salt ct) mac)
  then (Raise (ValueError IntegrityVerificationFailed), w)
  else match _generate_keystream_cml st (length ct) with
       | Ok ks => (Ok (xor_zip ct ks), w')
       | Raise e => (Raise e, w')
       end.
Proof.
  intros Hs Hm st w'. subst st w'. unfold decrypt.
  destruct (blob_split salt mac ct Hs Hm) as (-> & -> & ->).
  replace (length (salt ++ mac ++ ct) <? 64)%nat with false.
  2:{ symmetry. apply Nat.ltb_ge. rewrite !length_app. lia. }
  destruct (negb _); [reflexivity|].
  unfold bind. rewrite initialize_stored_run, generate_keystream_run, logged_logged.
  destruct (_generate_keystream_cml _ _); reflexivity.
Qed.

Lemma log_warnings_run ws w :
  log_warnings ws w = (Ok tt, logged w (map EvLoggerWarning (seq 0 (length ws)))).
Proof.
  unfold log_warnings. generalize (seq 0 (length ws)). intros l.
  assert (Hgen : forall (m : M unit) w1,
            m w = (Ok tt, w1) ->
            fold_left (fun acc i => acc ;;; record (EvLoggerWarning i)) l m w =
            (Ok tt, logged w1 (map EvLoggerWarning l))).
  { induction l as [|i l IH]; intros m w1 Hm; cbn [fold_left map].
    - unfold logged. rewrite app_nil_r. by destruct w1.
    - erewrite IH.
      2:{ unfold bind. rewrite Hm. unfold record. reflexivity. }
      unfold logged. cbn [entropy_used trace]. by rewrite <- app_assoc. }
  erewrite Hgen; [|reflexivity]. by destruct w.
Qed.

(** What [encrypt_with_validation] records between its two guards and its
    call of [encrypt]. *)
Definition analysis_events (st : CMLState) : list Event :=
  let a := analyze_chaos_parameters st in
  EvAnalyzeChaos st ::
  (if negb (is_chaotic a) then map EvLoggerWarning (seq 0 (length (warnings a))) else []).

Lemma encrypt_with_validation_run data key w :
  validate_key_strength key = true ->
  Z.of_nat (length data) <= 50 * 1024 * 1024 ->
  encrypt_with_validation data key w =
  encrypt data key
    (after_draw w 32
       (EvInitializeCml (fresh_salt w) :: analysis_events (cml_state_for key (fresh_salt w)))).
Proof.
  intros Hk Hsz. unfold encrypt_with_validation.
  rewrite Hk. cbn [negb].
  replace (50 * 1024 * 1024 <? Z.of_nat (length data)) with false
    by (symmetry; apply Z.ltb_ge; lia).
  unfold bind at 1. rewrite initialize_fresh_run.
  unfold bind at 1. unfold record at 1. cbn [entropy_used trace after_draw].
  unfold analysis_events. cbn zeta.
  destruct (negb (is_chaotic _)).
  - unfold bind at 1. rewrite log_warnings_run. unfold logged, after_draw.
    cbn [entropy_used trace]. rewrite <- !app_assoc. reflexivity.
  - unfold bind at 1, ret. unfold after_draw. rewrite <- !app_assoc. reflexivity.
Qed.

(** *** Authenticated encryption *)

Section Authenticated.

(** An HMAC-SHA256 digest has 32 bytes. *)
Hypothesis hmac_sha256_length : forall key msg, length (hmac_sha256 key msg) = 32%nat.

Lemma mac_over_length key salt ct : length (mac_over key salt ct) = 32%nat.
Proof. apply hmac_sha256_length. Qed.

Lemma encrypt_decrypt (P : bytes) (p : string) (w : World) :
  match encrypt P p w with
  | (Ok B, _) =>
      length B = (64 + length P)%nat /\
      forall w1, exists w2, decrypt B p w1 = (Ok P, w2)
  | (Raise e, _) => float_failure e
  end.
Proof.
  rewrite encrypt_run.
  destruct (cml_state_for_lengths p (fresh_salt w)) as [Hx Hr].
  destruct (_generate_keystream_cml _ (length P)) as [ks|e] eqn:Hks.
  - assert (Hlen : length ks = length P).
    { rewrite generate_keystream_unchunked in Hks.
      by apply keystream_unchunked_length in Hks. }
    split.
    + rewrite !length_app, fresh_salt_length, mac_over_length, xor_zip_length by done. lia.
    + intros w1. rewrite decrypt_run by auto using fresh_salt_length, mac_over_length.
      unfold compare_digest. rewrite bool_decide_eq_true_2 by done. cbn [negb].
      rewrite xor_zip_length by done. rewrite Hks.
      eexists. by rewrite xor_zip_cancel.
  - by eapply keystream_failure.
Qed.


Lemma tampered_blob_rejected salt mac ct key w :
  length salt = 32%nat -> length mac = 32%nat ->
  mac_over key salt ct <> mac ->
  decrypt (salt ++ mac ++ ct) key w = (Raise (ValueError IntegrityVerificationFailed), w).
Proof.
  intros Hs Hm Hne. rewrite decrypt_run by done.
  unfold compare_digest. by rewrite bool_decide_eq_false_2.
Qed.

Lemma insert_changes {A} (l : list A) i b b' :
  l !! i = Some b -> b' <> b -> <[i:=b']> l <> l.
Proof.
  intros Hl Hne Heq.
  assert (<[i:=b']> l !! i = Some b') as Hi
    by (apply list_lookup_insert_eq; by eapply lookup_lt_Some).
  rewrite Heq in Hi. congruence.
Qed.

Lemma decrypt_complete data key w pt w' :
  decrypt data key w = (Ok pt, w') -> length pt = (length data - 64)%nat.
Proof.
  unfold decrypt. destruct (length data <? 64)%nat; [discriminate|].
  destruct (negb _); [discriminate|].
  unfold bind. rewrite initialize_stored_run, generate_keystream_run.
  destruct (_generate_keystream_cml _ _) as [ks|] eqn:Hks; [|discriminate].
  intros H. inversion H; subst.
  rewrite generate_keystream_unchunked in Hks. apply keystream_unchunked_length in Hks.
  rewrite xor_zip_length by done. by rewrite length_drop.
Qed.

Section IdealMac.

(** HMAC-SHA256 as an ideal MAC, to the extent the claim needs it: a message
    and the same message with one byte replaced never get the same digest,
    neither under one key nor under two.  (A checksum has this property; of
    HMAC-SHA256 it is the collision resistance on which the cipher's
    authentication rests.) *)
Hypothesis hmac_sha256_detects_substitution :
  forall (key key' msg : bytes) (i : nat) (b b' : byte),
    msg !! i = Some b -> b' <> b ->
    hmac_sha256 key' (<[i:=b']> msg) <> hmac_sha256 key msg.

(** C2. Authenticity and terminal failure.  Take a blob [B] returned by
    [encrypt] under password [p] and overwrite one byte, at any index [i],
    in the salt, in the MAC or in the ciphertext, with a different value:
    [decrypt] rejects the tampered blob.  A changed MAC byte differs from the
    recomputed MAC; a changed ciphertext byte changes the message the MAC is
    computed over; a changed salt byte changes that message and the MAC key.
    Rejection is the integrity error, raised with the state untouched: no
    salt-derived lattice is initialised and no keystream is generated.
    Moreover any plaintext [decrypt] ever returns is complete: an error
    carries no bytes, and a success carries all of them. *)
Theorem tampering_detected (P : bytes) (p : string) (w w' : World) (B : bytes)
    (i : nat) (b b' : byte) :
  encrypt P p w = (Ok B, w') ->
  B !! i = Some b -> b' <> b ->
  (forall w1,
     decrypt (<[i:=b']> B) p w1 = (Raise (ValueError IntegrityVerificationFailed), w1)) /\
  (forall D k w1 pt w2,
     decrypt D k w1 = (Ok pt, w2) -> length pt = (length D - 64)%nat).
Proof.
  intros Henc Hi Hne. split; [|intros; by eapply decrypt_complete].
  rewrite encrypt_run in Henc.
  destruct (_generate_keystream_cml _ (length P)) as [ks|] eqn:Hks; [|discriminate].
  set (salt := fresh_salt w) in *. set (ct := xor_zip P ks) in *.
  set (mac := mac_over p salt ct) in *.
  assert (HB : salt ++ mac ++ ct = B) by congruence. clear Henc.
  assert (Hs : length salt = 32%nat) by apply fresh_salt_length.
  assert (Hm : length mac = 32%nat) by apply mac_over_length.
  subst B. intros w1.
  destruct (decide (i < 32)%nat) as [Hlo|Hlo].
  - (* a salt byte: the message and the key of the MAC change *)
    rewrite insert_app_l by lia. rewrite lookup_app_l in Hi by lia.
    apply tampered_blob_rejected; [by rewrite length_insert|done|].
    subst mac. unfold mac_over.
    rewrite <- (insert_app_l salt ct i b') by lia.
    apply hmac_sha256_detects_substitution with (b := b); [|done].
    by rewrite lookup_app_l by lia.
  - destruct (decide (i < 64)%nat) as [Hmid|Hhi].
    + (* a MAC byte *)
      rewrite insert_app_r_alt in * by lia. rewrite insert_app_l in * by lia.
      rewrite Hs in *.
      rewrite lookup_app_r in Hi by lia. rewrite lookup_app_l in Hi by lia.
      rewrite Hs in Hi.
      apply tampered_blob_rejected; [done|by rewrite length_insert|].
      fold mac. intros Heq. symmetry in Heq. revert Heq. by eapply insert_changes.
    + (* a ciphertext byte: the message of the MAC changes *)
      rewrite insert_app_r_alt by lia. rewrite insert_app_r_alt by lia.
      rewrite lookup_app_r in Hi by lia. rewrite lookup_app_r in Hi by lia.
      apply tampered_blob_rejected; [done|done|].
      generalize dependent (i - length salt - length mac)%nat. intros j Hj.
      subst mac. unfold mac_over.
      rewrite <- (insert_app_r salt ct j b').
      apply hmac_sha256_detects_substitution with (b := b); [|done].
      by rewrite lookup_app_r, Nat.add_comm, Nat.add_sub by lia.
Qed.

End IdealMac.

End Authenticated.

(** C9. What the validated encryption does with its lattice states.  Once
    the two guards have passed, [encrypt_with_validation] draws a first salt,
    derives a state from it and hands that state to the chaos analysis; it
    then calls [encrypt], which draws a second salt, derives a second state,
    generates the keystream from the second state and stores the second salt
    in the blob.  The analysed state is never used for encryption. *)
Theorem validation_inspects_other_state (data : bytes) (key : string) (w : World) :
  validate_key_strength key = true ->
  Z.of_nat (length data) <= 50 * 1024 * 1024 ->
  let salt1 := map os_entropy (seq (entropy_used w) 32) in
  let salt2 := map os_entropy (seq (entropy_used w + 32) 32) in
  exists res w',
    encrypt_with_validation data key w = (res, w') /\
    entropy_used w' = (entropy_used w + 64)%nat /\
    trace w' =
      trace w ++
      EvInitializeCml salt1 :: analysis_events (cml_state_for key salt1) ++
      [EvInitializeCml salt2; EvGenerateKeystream (cml_state_for key salt2) (length data)] /\
    (forall B, res = Ok B -> take 32 B = salt2).
Proof.
  intros Hk Hsz salt1 salt2.
  rewrite encrypt_with_validation_run by done. rewrite encrypt_run.
  fold salt1.
  set (w1 := after_draw w 32 _).
  assert (Hsalt2 : fresh_salt w1 = salt2) by reflexivity.
  rewrite Hsalt2.
  assert (Hlen2 : length salt2 = 32%nat) by (subst salt2; by rewrite length_map, length_seq).
  clear Hsalt2. clearbody salt2.
  destruct (_generate_keystream_cml _ (length data)) as [ks|e]; eexists _, _;
    (split; [reflexivity|]); cbn [after_draw entropy_used trace]; subst w1;
    cbn [after_draw entropy_used trace].
  - split; [lia|]. split.
    + rewrite <- app_assoc. reflexivity.
    + intros B HB. injection HB as <-. by rewrite take_app_length'.
  - split; [lia|]. split.
    + rewrite <- app_assoc. reflexivity.
    + intros B HB. discriminate.
Qed.

End Cipher.

(** *** A small instantiation to run the cipher on

    Stand-ins for the entropy source, the key-derivation function, the hash
    and the MAC, and the ASCII character classes; they only serve to execute
    the definitions on concrete inputs. *)

Definition ex_entropy (n : nat) : byte := byte_of_Z (Z.of_nat (7 * n + 3)).

Definition ex_pbkdf2 (len : nat) (salt : bytes) (iterations : Z) (key_material : bytes)
  : bytes :=
  take len (concat (repeat (key_material ++ salt ++ [byte_of_Z iterations]) len)).

Definition ex_blake2b (data person : bytes) : bytes :=
  take 32 (xor_zip (concat (repeat person 40)) (data ++ data ++ data)).

Definition ex_hmac (key msg : bytes) : bytes :=
  take 32 (fold_left byte_xor (key ++ msg) "000"%byte :: msg ++ repeat "000"%byte 32).

Definition in_range (lo hi : nat) (c : ascii) : bool :=
  ((lo <=? nat_of_ascii c) && (nat_of_ascii c <=? hi))%nat.

Definition ascii_islower : ascii -> bool := in_range 97 122.
Definition ascii_isupper : ascii -> bool := in_range 65 90.
Definition ascii_isdigit : ascii -> bool := in_range 48 57.
Definition ascii_isalnum (c : ascii) : bool :=
  ascii_islower c || ascii_isupper c || ascii_isdigit c.

Definition ex_world : World := {| entropy_used := 0; trace := [] |}.

Definition ex_password : string := "Str0ng-Pass!".

Definition ex_plaintext : bytes := bytes_lit "hello".

Definition ex_validate_key_strength : string -> bool :=
  validate_key_strength ascii_islower ascii_isupper ascii_isdigit ascii_isalnum.

Definition ex_encrypt (mode : string) : bytes -> string -> M bytes :=
  encrypt ex_entropy ex_pbkdf2 ex_blake2b ex_hmac (configure mode).

Definition ex_decrypt (mode : string) : bytes -> string -> M bytes :=
  decrypt ex_entropy ex_pbkdf2 ex_blake2b ex_hmac (configure mode).

Definition ex_encrypt_with_validation (mode : string) : bytes -> string -> M bytes :=
  encrypt_with_validation ex_entropy ex_pbkdf2 ex_blake2b ex_hmac
    ascii_islower ascii_isupper ascii_isdigit ascii_isalnum (configure mode).

Definition ex_decrypt_with_validation (mode : string) : bytes -> string -> M bytes :=
  decrypt_with_validation ex_entropy ex_pbkdf2 ex_blake2b ex_hmac
    ascii_islower ascii_isupper ascii_isdigit ascii_isalnum (configure mode).

Definition result_or {A} (d : A) (r : Result A) : A :=
  match r with
  | Ok a => a
  | Raise _ => d
  end.

Definition ex_blob : bytes :=
  result_or [] (fst (ex_encrypt "balanced" ex_plaintext ex_password ex_world)).

Definition ex_state : CMLState :=
  {| cml_x := [0.15; 0.29; 0.22; 0.41; 0.29; 0.22; 0.37; 0.35; 0.61; 0.77; 0.12;
               0.48; 0.53; 0.86; 0.31; 0.64]%float;
     cml_r := [3.81; 3.84; 3.85; 3.90; 3.83; 3.83; 3.86; 3.86; 3.99; 3.91; 3.95;
               3.88; 3.82; 3.97; 3.93; 3.89]%float;
     cml_epsilon := 0.12%float |}.

Lemma ex_hmac_length key msg : length (ex_hmac key msg) = 32%nat.
Proof.
  unfold ex_hmac. rewrite length_take. cbn [length].
  rewrite length_app, repeat_length. lia.
Qed.

Lemma u8_range (b : byte) : 0 <= u8 b < 256.
Proof. destruct b; vm_compute; split; congruence. Qed.

Lemma u8_byte_of_Z z : u8 (byte_of_Z z) = Z.land z 255.
Proof.
  unfold byte_of_Z, u8.
  assert (H : 0 <= Z.land z 255 < 256).
  { change 255 with (Z.ones 8). rewrite Z.land_ones by lia. apply Z.mod_pos_bound. lia. }
  destruct (Byte.of_N (Z.to_N (Z.land z 255))) as [b|] eqn:E.
  - apply Byte.to_of_N in E. rewrite E. lia.
  - apply Byte.of_N_None_iff in E. lia.
Qed.

Lemma u8_inj a b : u8 a = u8 b -> a = b.
Proof.
  unfold u8. intros H. apply N2Z.inj in H.
  pose proof (Byte.of_to_N a) as Ha. rewrite H, Byte.of_to_N in Ha. congruence.
Qed.

(** A second stand-in for HMAC-SHA256: the sum of the message's bytes
    modulo 256, padded to 32 bytes.  It is no MAC (it ignores the key), but
    it tells a message from the same message with one byte replaced, which
    is what [hmac_sha256_detects_substitution] asks for. *)
Definition byte_sum (l : bytes) : Z := foldr (fun b acc => u8 b + acc) 0 l.

Definition ex_mac (key msg : bytes) : bytes :=
  byte_of_Z (byte_sum msg) :: repeat "000"%byte 31.

Definition ex_mac_blob : bytes :=
  result_or []
    (fst (encrypt ex_entropy ex_pbkdf2 ex_blake2b ex_mac (configure "balanced")
            ex_plaintext ex_password ex_world)).

Lemma ex_mac_length key msg : length (ex_mac key msg) = 32%nat.
Proof. reflexivity. Qed.

Lemma byte_sum_cons a l : byte_sum (a :: l) = u8 a + byte_sum l.
Proof. reflexivity. Qed.

Lemma byte_sum_insert (l : bytes) i b b' :
  l !! i = Some b -> byte_sum (<[i:=b']> l) = byte_sum l - u8 b + u8 b'.
Proof.
  revert i. induction l as [|a l IH]; intros [|i] Hi; try done.
  - injection Hi as ->. change (<[0%nat:=b']> (b :: l)) with (b' :: l).
    rewrite !byte_sum_cons. lia.
  - change (<[S i:=b']> (a :: l)) with (a :: <[i:=b']> l).
    rewrite !byte_sum_cons, (IH i Hi). lia.
Qed.

Lemma ex_mac_detects key key' msg i b b' :
  msg !! i = Some b -> b' <> b -> ex_mac key' (<[i:=b']> msg) <> ex_mac key msg.
Proof.
  intros Hi Hne Heq. unfold ex_mac in Heq. injection Heq as Heq.
  apply (f_equal u8) in Heq. rewrite !u8_byte_of_Z, (byte_sum_insert _ _ _ _ Hi) in Heq.
  change 255 with (Z.ones 8) in Heq. rewrite !Z.land_ones in Heq by lia.
  pose proof (u8_range b). pose proof (u8_range b').
  apply Hne, u8_inj.
  assert ((u8 b' - u8 b) mod 2 ^ 8 = 0).
  { replace (u8 b' - u8 b) with ((byte_sum msg - u8 b + u8 b') - byte_sum msg) by lia.
    rewrite Zminus_mod, Heq, Z.sub_diag. done. }
  apply Z.mod_divide in H1; [|lia]. destruct H1 as [k Hk]. lia.
Qed.

Example strong_password : ex_validate_key_strength ex_password = true.
Proof. reflexivity. Qed.

Example weak_password : ex_validate_key_strength "weakpass" = false.
Proof. reflexivity. Qed.

(** Scenario: a five-byte plaintext gives a 69-byte blob in every mode, and
    decryption gives the plaintext back. *)
Example hello_roundtrip :
  forall mode, In mode ["fast"; "balanced"; "secure"]%string ->
    exists B w,
      ex_encrypt_with_validation mode ex_plaintext ex_password ex_world = (Ok B, w) /\
      length B = 69%nat /\
      fst (ex_decrypt_with_validation mode B ex_password ex_world) = Ok ex_plaintext.
Proof.
  intros mode [<-|[<-|[<-|[]]]]; eexists _, _; (split; [vm_compute; reflexivity|]);
    split; vm_compute; reflexivity.
Qed.

Lemma chunking_preserves_keystream_witness :
  keystream_chunked (configure "secure") 3 ex_state 10 =
    keystream_unchunked (configure "secure") ex_state 10 /\
  _generate_keystream_cml (configure "secure") ex_state 10 =
    keystream_chunked (configure "secure") 3 ex_state 10 /\
  (0 < 10 -> keystream_chunked (configure "secure") 3 ex_state 10 =
             keystream_chunked (configure "secure") 10 ex_state 10)%nat /\
  (forall K, _generate_keystream_cml (configure "secure") ex_state 10 = Ok K ->
             length K = 10%nat /\
             _generate_keystream_cml (configure "secure") ex_state 4 = Ok (take 4 K)).
Proof.
  apply (chunking_preserves_keystream (configure "secure") ex_state 3 4 10); lia.
Defined.


Lemma tampering_detected_witness :
  let decrypt := decrypt ex_entropy ex_pbkdf2 ex_blake2b ex_mac (configure "balanced") in
  (forall w1,
     decrypt (<[3%nat:="000"%byte]> ex_mac_blob) ex_password w1 =
     (Raise (ValueError IntegrityVerificationFailed), w1)) /\
  (forall w1,
     decrypt (<[32%nat:="000"%byte]> ex_mac_blob) ex_password w1 =
     (Raise (ValueError IntegrityVerificationFailed), w1)) /\
  (forall w1,
     decrypt (<[65%nat:="000"%byte]> ex_mac_blob) ex_password w1 =
     (Raise (ValueError IntegrityVerificationFailed), w1)) /\
  (forall D k w1 pt w2,
     decrypt D k w1 = (Ok pt, w2) -> length pt = (length D - 64)%nat).
Proof.
  pose proof (fun i b =>
    tampering_detected ex_entropy ex_pbkdf2 ex_blake2b ex_mac
      (configure "balanced") ex_mac_length ex_mac_detects
      ex_plaintext ex_password ex_world
      (snd (encrypt ex_entropy ex_pbkdf2 ex_blake2b ex_mac (configure "balanced")
              ex_plaintext ex_password ex_world))
      ex_mac_blob i b "000"%byte) as H.
  cbv zeta. split; [|split; [|split]].
  - apply (H 3%nat "024"%byte); [vm_compute; reflexivity|vm_compute; reflexivity|discriminate].
  - apply (H 32%nat "204"%byte); [vm_compute; reflexivity|vm_compute; reflexivity|discriminate].
  - apply (H 65%nat "T"%byte); [vm_compute; reflexivity|vm_compute; reflexivity|discriminate].
  - apply (H 65%nat "T"%byte); [vm_compute; reflexivity|vm_compute; reflexivity|discriminate].
Defined.

Lemma validation_inspects_other_state_witness :
  let salt1 := map ex_entropy (seq (entropy_used ex_world) 32) in
  let salt2 := map ex_entropy (seq (entropy_used ex_world + 32) 32) in
  exists res w',
    ex_encrypt_with_validation "balanced" ex_plaintext ex_password ex_world = (res, w') /\
    entropy_used w' = (entropy_used ex_world + 64)%nat /\
    trace w' =
      trace ex_world ++
      EvInitializeCml salt1 ::
      analysis_events
        (cml_state_for ex_pbkdf2 ex_blake2b (configure "balanced") ex_password salt1) ++
      [EvInitializeCml salt2;
       EvGenerateKeystream
         (cml_state_for ex_pbkdf2 ex_blake2b (configure "balanced") ex_password salt2)
         (length ex_plaintext)] /\
    (forall B, res = Ok B -> take 32 B = salt2).
Proof.
  apply (validation_inspects_other_state ex_entropy ex_pbkdf2 ex_blake2b ex_hmac
           ascii_islower ascii_isupper ascii_isdigit ascii_isalnum
           (configure "balanced") ex_plaintext ex_password ex_world).
  - reflexivity.
  - vm_compute. discriminate.
Defined.

(** On this run the salt whose lattice state is analysed and the salt stored
    in the blob differ, and so do the two lattice states. *)
Example analysed_salt_is_not_stored_salt :
  let salt1 := map ex_entropy (seq 0 32) in
  let B := result_or []
             (fst (ex_encrypt_with_validation "balanced" ex_plaintext ex_password ex_world)) in
  length B = 69%nat /\ take 32 B <> salt1 /\
  cml_state_for ex_pbkdf2 ex_blake2b (configure "balanced") ex_password (take 32 B) <>
  cml_state_for ex_pbkdf2 ex_blake2b (configure "balanced") ex_password salt1.
Proof.
  vm_compute. repeat split; discriminate.
Qed.

(** *** What the entry points do with inputs they refuse *)

Section Outcomes.

Variable os_entropy : nat -> byte.
Variable PBKDF2HMAC_SHA256 : nat -> bytes -> Z -> bytes -> bytes.
Variable blake2b_32 hmac_sha256 : bytes -> bytes -> bytes.
Variable islower isupper isdigit isalnum : ascii -> bool.
Variable cm : CipherModule.

#[local] Abbreviation decrypt_ := (decrypt os_entropy PBKDF2HMAC_SHA256 blake2b_32 hmac_sha256 cm).
#[local] Abbreviation encrypt_ := (encrypt os_entropy PBKDF2HMAC_SHA256 blake2b_32 hmac_sha256 cm).
#[local] Abbreviation mac_over_ := (mac_over PBKDF2HMAC_SHA256 hmac_sha256 cm).
#[local] Abbreviation state_for := (cml_state_for PBKDF2HMAC_SHA256 blake2b_32 cm).
#[local] Abbreviation valid_key := (validate_key_strength islower isupper isdigit isalnum).
#[local] Abbreviation encrypt_with_validation_ :=
  (encrypt_with_validation os_entropy PBKDF2HMAC_SHA256 blake2b_32 hmac_sha256
     islower isupper isdigit isalnum cm).
#[local] Abbreviation decrypt_with_validation_ :=
  (decrypt_with_validation os_entropy PBKDF2HMAC_SHA256 blake2b_32 hmac_sha256
     islower isupper isdigit isalnum cm).

(** X1. The four ways [decrypt] can end, on any byte string whatever and under
    any key: a string shorter than the 64-byte header raises the length
    error; a longer one whose bytes 32..63 are not the MAC of its salt and
    ciphertext raises the integrity error; both leave the state untouched.
    Only when the MAC verifies is a lattice initialised, from the salt in the
    blob, and then the call returns as many bytes as the ciphertext has or
    fails on a non-finite lattice value.  It never draws entropy, and its
    result does not depend on the state it is called in. *)
Theorem decrypt_outcomes (data : bytes) (key : string) (w : World) :
  let salt := slice data 0 32 in
  let mac := slice data 32 64 in
  let ct := drop 64 data in
  let w' := logged w [EvInitializeCml salt;
                      EvGenerateKeystream (state_for key salt) (length ct)] in
  (((length data < 64)%nat /\
    decrypt_ data key w = (Raise (ValueError InvalidDataTooShort), w)) \/
   ((64 <= length data)%nat /\ mac_over_ key salt ct <> mac /\
    decrypt_ data key w = (Raise (ValueError IntegrityVerificationFailed), w)) \/
   ((64 <= length data)%nat /\ mac_over_ key salt ct = mac /\
    exists pt, length pt = (length data - 64)%nat /\ decrypt_ data key w = (Ok pt, w')) \/
   ((64 <= length data)%nat /\ mac_over_ key salt ct = mac /\
    exists e, float_failure e /\ decrypt_ data key w = (Raise e, w'))) /\
  entropy_used (decrypt_ data key w).2 = entropy_used w /\
  forall w2, (decrypt_ data key w2).1 = (decrypt_ data key w).1.
Proof.
  intros salt mac ct w'. subst w'.
  assert (Hrun : forall w0,
    decrypt_ data key w0 =
    if (length data <? 64)%nat then (Raise (ValueError InvalidDataTooShort), w0)
    else if negb (compare_digest (mac_over_ key salt ct) mac)
    then (Raise (ValueError IntegrityVerificationFailed), w0)
    else match _generate_keystream_cml cm (state_for key salt) (length ct) with
         | Ok ks => (Ok (xor_zip ct ks),
                     logged w0 [EvInitializeCml salt;
                                EvGenerateKeystream (state_for key salt) (length ct)])
         | Raise e => (Raise e,
                       logged w0 [EvInitializeCml salt;
                                  EvGenerateKeystream (state_for key salt) (length ct)])
         end).
  { intros w0. unfold decrypt. fold salt mac ct.
    destruct (length data <? 64)%nat; [reflexivity|].
    destruct (negb _); [reflexivity|].
    unfold bind. rewrite initialize_stored_run, generate_keystream_run, logged_logged.
    destruct (_generate_keystream_cml _ _ _); reflexivity. }
  split; [|split].
  - rewrite Hrun.
    destruct (length data <? 64)%nat eqn:Hlen.
    { left. apply Nat.ltb_lt in Hlen. done. }
    apply Nat.ltb_ge in Hlen. right.
    unfold compare_digest. case_bool_decide as Hmac; cbn [negb].
    2:{ left. done. }
    right.
    destruct (cml_state_for_lengths PBKDF2HMAC_SHA256 blake2b_32 cm key salt) as [Hx Hr].
    destruct (_generate_keystream_cml _ _ _) as [ks|e] eqn:Hks.
    + left. split; [done|]. split; [done|]. eexists. split; [|reflexivity].
      rewrite generate_keystream_unchunked in Hks. apply keystream_unchunked_length in Hks.
      rewrite xor_zip_length by done. subst ct. by rewrite length_drop.
    + right. split; [done|]. split; [done|]. exists e. split; [|reflexivity].
      by eapply keystream_failure.
  - rewrite Hrun.
    destruct (length data <? 64)%nat; [reflexivity|].
    destruct (negb _); [reflexivity|].
    destruct (_generate_keystream_cml _ _ _); reflexivity.
  - intros w2. rewrite !Hrun.
    destruct (length data <? 64)%nat; [reflexivity|].
    destruct (negb _); [reflexivity|].
    destruct (_generate_keystream_cml _ _ _); reflexivity.
Qed.

(** X2. The two guards of the validating wrappers.  A key that fails the
    strength rule is refused by both wrappers, and a plaintext of more than
    50 MiB is refused by the encrypting one; the key is judged first.  A
    refusal happens before anything else: no entropy is drawn, no lattice is
    initialised and nothing is logged.  The plain [encrypt] has neither
    guard: called with the same arguments it draws its 32-byte salt. *)
Theorem validation_refuses_before_any_work (data : bytes) (key : string) (w : World) :
  valid_key key = false \/ 50 * 1024 * 1024 < Z.of_nat (length data) ->
  encrypt_with_validation_ data key w =
    (Raise (ValueError (if valid_key key then DataTooLarge else SecretKeyNotStrongEnough)), w) /\
  (valid_key key = false ->
   decrypt_with_validation_ data key w = (Raise (ValueError SecretKeyNotStrongEnough), w)) /\
  entropy_used (encrypt_ data key w).2 = (entropy_used w + 32)%nat.
Proof.
  intros Hbad. split; [|split].
  - unfold encrypt_with_validation.
    destruct (valid_key key); cbn [negb]; [|reflexivity].
    destruct Hbad as [?|Hbig]; [done|].
    apply Z.ltb_lt in Hbig. by rewrite Hbig.
  - intros Hk. unfold decrypt_with_validation. by rewrite Hk.
  - rewrite encrypt_run. by destruct (_generate_keystream_cml _ _ _).
Qed.

(** A blob the validating encryption has returned decrypts, under the same
    key and in any state, to the plaintext. *)
Lemma validated_blob_decrypts (P B : bytes) (p : string) (w w' : World) :
  (forall key msg, length (hmac_sha256 key msg) = 32%nat) ->
  encrypt_with_validation_ P p w = (Ok B, w') ->
  forall w1, exists w2, decrypt_with_validation_ B p w1 = (Ok P, w2).
Proof.
  intros Hlen Henc w1.
  destruct (valid_key p) eqn:Hk.
  2:{ unfold encrypt_with_validation in Henc. by rewrite Hk in Henc. }
  destruct (Z.ltb_spec (50 * 1024 * 1024) (Z.of_nat (length P))) as [Hbig|Hsz].
  { unfold encrypt_with_validation in Henc. rewrite Hk in Henc. cbn [negb] in Henc.
    apply Z.ltb_lt in Hbig. by rewrite Hbig in Henc. }
  rewrite encrypt_with_validation_run in Henc by done.
  pose proof (encrypt_decrypt os_entropy PBKDF2HMAC_SHA256 blake2b_32 hmac_sha256 cm Hlen
                P p (after_draw w 32
                       (EvInitializeCml (fresh_salt os_entropy w) ::
                        analysis_events
                          (cml_state_for PBKDF2HMAC_SHA256 blake2b_32 cm p
                             (fresh_salt os_entropy w))))) as H.
  rewrite Henc in H. destruct H as [_ H]. destruct (H w1) as [w2 Hw2].
  exists w2. unfold decrypt_with_validation. by rewrite Hk.
Qed.

End Outcomes.

Lemma validation_refuses_before_any_work_witness :
  ex_encrypt_with_validation "balanced" ex_plaintext "weakpass" ex_world =
    (Raise (ValueError (if ex_validate_key_strength "weakpass"
                        then DataTooLarge else SecretKeyNotStrongEnough)), ex_world) /\
  (ex_validate_key_strength "weakpass" = false ->
   ex_decrypt_with_validation "balanced" ex_plaintext "weakpass" ex_world =
     (Raise (ValueError SecretKeyNotStrongEnough), ex_world)) /\
  entropy_used (ex_encrypt "balanced" ex_plaintext "weakpass" ex_world).2 =
    (entropy_used ex_world + 32)%nat.
Proof.
  apply (validation_refuses_before_any_work ex_entropy ex_pbkdf2 ex_blake2b ex_hmac
           ascii_islower ascii_isupper ascii_isdigit ascii_isalnum
           (configure "balanced") ex_plaintext "weakpass" ex_world).
  left. reflexivity.
Defined.

(** Scenario: a 10-byte string, and a 64-byte string of zeros, handed to
    [decrypt]. *)
Example malformed_blobs :
  fst (ex_decrypt "balanced" (repeat "000"%byte 10) ex_password ex_world) =
    Raise (ValueError InvalidDataTooShort) /\
  ex_decrypt "balanced" (repeat "001"%byte 64) ex_password ex_world =
    (Raise (ValueError IntegrityVerificationFailed), ex_world).
Proof. split; vm_compute; reflexivity. Qed.

(** *** The lattice [_initialize_cml] builds *)

(** What [_initialize_cml] makes of one two-byte seed: the entry of [x] and
    the entry of [r]; whether both lie in the ranges its comments name, and
    pass the range tests of [analyze_chaos_parameters]. *)
Definition seed_in_range (v : Z) : bool :=
  let q := (float_of_Z v / 65535.0)%float in
  let x := (0.1 + q * 0.8)%float in
  let r := (3.8 + q * 0.2)%float in
  (0.1 <=? x)%float && (x <=? 0.9)%float && (3.8 <=? r)%float && (r <=? 4.0)%float &&
  negb ((r <? 3.57)%float || (4.0 <? r)%float) &&
  negb ((x <=? 0.05)%float || (0.95 <=? x)%float).

(** The same for the [n] seeds from [v] on. *)
Fixpoint seeds_in_range (n : nat) (v : Z) : bool :=
  match n with
  | O => true
  | S n => seed_in_range v && seeds_in_range n (v + 1)
  end.

Lemma seeds_in_range_spec n v k :
  seeds_in_range n v = true -> v <= k < v + Z.of_nat n -> seed_in_range k = true.
Proof.
  revert v. induction n as [|n IH]; intros v Hall Hk; [lia|].
  cbn [seeds_in_range] in Hall. apply andb_true_iff in Hall as [Hv Hrest].
  destruct (decide (k = v)) as [->|Hne]; [done|].
  apply (IH (v + 1) Hrest). lia.
Qed.

(** Every value two bytes can hold, by evaluation. *)
Lemma every_seed_in_range : seeds_in_range (Z.to_nat 65536) 0 = true.
Proof. vm_compute. reflexivity. Qed.

Lemma int_from_bytes_big_short (bs : bytes) :
  (length bs <= 2)%nat -> 0 <= int_from_bytes_big bs < 65536.
Proof.
  unfold int_from_bytes_big.
  destruct bs as [|a [|b [|c bs]]]; cbn [length fold_left]; intros Hlen.
  - lia.
  - pose proof (u8_range a). lia.
  - pose proof (u8_range a). pose proof (u8_range b). lia.
  - lia.
Qed.

Lemma seed_bytes_length key i : (length (seed_bytes key i) <= 2)%nat.
Proof.
  unfold seed_bytes, slice. destruct (_ <? _)%nat; rewrite length_take; lia.
Qed.

Lemma seed_val_in_range key i :
  seed_in_range (int_from_bytes_big (seed_bytes key i)) = true.
Proof.
  apply (seeds_in_range_spec (Z.to_nat 65536) 0); [apply every_seed_in_range|].
  pose proof (int_from_bytes_big_short _ (seed_bytes_length key i)). lia.
Qed.

Lemma no_range_warning {A} (W : nat -> ChaosWarning) (bad : A -> bool) (l : list A)
    (f : nat -> A -> nat * A) :
  (forall i a, (f i a).2 = a) ->
  Forall (fun a => bad a = false) l ->
  omap (fun '(i, a) => if bad a then Some (W i) else None) (imap f l) = [].
Proof.
  intros Hf Hl. revert f Hf. induction Hl as [|a l Ha _ IH]; intros f Hf; [done|].
  cbn [imap]. specialize (Hf 0%nat a) as H0.
  destruct (f 0%nat a) as [i a']. cbn [snd] in H0. subst a'. cbn. rewrite Ha.
  apply IH. intros i' a'. apply Hf.
Qed.

Section Lattice.

Variable blake2b_32 : bytes -> bytes -> bytes.
Variable cm : CipherModule.

(** X26. The lattice [_initialize_cml] derives from a master key, whatever
    the key, the hash and the lattice size: [x] and [r] have one entry per
    site, every entry of [x] lies in [0.1, 0.9] and every entry of [r] in
    [3.8, 4.0], in the floating-point arithmetic of the code.  The tests of
    [analyze_chaos_parameters] on [r] and on [x] therefore never fire on it:
    the only warning it can give for such a lattice is one about epsilon. *)
Theorem initialised_lattice_is_in_range (master_key : bytes) :
  let st := derive_state blake2b_32 cm master_key in
  length (cml_x st) = LATTICE_SIZE cm /\ length (cml_r st) = LATTICE_SIZE cm /\
  Forall (fun x => (0.1 <=? x)%float = true /\ (x <=? 0.9)%float = true) (cml_x st) /\
  Forall (fun r => (3.8 <=? r)%float = true /\ (r <=? 4.0)%float = true) (cml_r st) /\
  warnings (analyze_chaos_parameters st) =
    (if (cml_epsilon st <? 0.05)%float then [WarnEpsilonTooSmall]
     else if (0.5 <? cml_epsilon st)%float then [WarnEpsilonTooLarge]
     else []).
Proof.
  intros st.
  assert (Hx : Forall (fun x => ((0.1 <=? x)%float = true /\ (x <=? 0.9)%float = true) /\
                                (x <=? 0.05)%float || (0.95 <=? x)%float = false) (cml_x st)).
  { subst st. unfold derive_state. cbn [cml_x]. apply Forall_map, Forall_forall.
    intros i _. cbn beta. unfold seed_val.
    pose proof (seed_val_in_range (blake2b_32 master_key (bytes_lit "CML_INIT_STATE")) i) as H.
    unfold seed_in_range in H. cbv zeta in H.
    repeat (apply andb_true_iff in H as [H ?]). rewrite negb_true_iff in *. done. }
  assert (Hr : Forall (fun r => ((3.8 <=? r)%float = true /\ (r <=? 4.0)%float = true) /\
                                (r <? 3.57)%float || (4.0 <? r)%float = false) (cml_r st)).
  { subst st. unfold derive_state. cbn [cml_r]. apply Forall_map, Forall_forall.
    intros i _. cbn beta. unfold seed_val.
    pose proof (seed_val_in_range (blake2b_32 master_key (bytes_lit "CML_PARAMETERS")) i) as H.
    unfold seed_in_range in H. cbv zeta in H.
    repeat (apply andb_true_iff in H as [H ?]). rewrite negb_true_iff in *. done. }
  split; [subst st; unfold derive_state; cbn [cml_x]; by rewrite length_map, length_seq|].
  split; [subst st; unfold derive_state; cbn [cml_r]; by rewrite length_map, length_seq|].
  split; [eapply Forall_impl; [exact Hx|]; by intros x [H _]|].
  split; [eapply Forall_impl; [exact Hr|]; by intros x [H _]|].
  unfold analyze_chaos_parameters. cbn [warnings].
  rewrite (no_range_warning WarnR (fun r => (r <? 3.57)%float || (4.0 <? r)%float)
             (cml_r st) pair (fun _ _ => eq_refl))
    by (eapply Forall_impl; [exact Hr|]; by intros x [_ H]).
  rewrite (no_range_warning WarnX (fun x => (x <=? 0.05)%float || (0.95 <=? x)%float)
             (cml_x st) pair (fun _ _ => eq_refl))
    by (eapply Forall_impl; [exact Hx|]; by intros x [_ H]).
  done.
Qed.

End Lattice.

(** Scenario: the two ends of the seed range, in the arithmetic of the
    code; the largest seed gives exactly the upper bounds. *)
Example extreme_seeds :
  (0.1 + (float_of_Z 0 / 65535.0) * 0.8 =? 0.1)%float = true /\
  (0.1 + (float_of_Z 65535 / 65535.0) * 0.8 =? 0.9)%float = true /\
  (3.8 + (float_of_Z 65535 / 65535.0) * 0.2 =? 4.0)%float = true.
Proof. vm_compute. done. Qed.

(** *** The key-strength rule *)

Lemma list_ascii_of_string_app (a b : string) :
  list_ascii_of_string (a ++ b) = list_ascii_of_string a ++ list_ascii_of_string b.
Proof.
  induction a as [|c a IH]; [done|].
  change (String c a ++ b)%string with (String c (a ++ b)).
  cbn [list_ascii_of_string app]. by rewrite IH.
Qed.

Lemma string_length_list (s : string) : String.length s = length (list_ascii_of_string s).
Proof. induction s as [|c s IH]; [done|]. cbn. by rewrite IH. Qed.

Lemma existsb_false {A} (p : A -> bool) (l : list A) :
  Forall (fun a => p a = false) l -> existsb p l = false.
Proof. induction 1 as [|a l Ha _ IH]; [done|]. cbn. by rewrite Ha, IH. Qed.

Section KeyStrength.

Variable islower isupper isdigit isalnum : ascii -> bool.

#[local] Abbreviation valid_key := (validate_key_strength islower isupper isdigit isalnum).

Lemma valid_key_grows (a b c : string) : valid_key b = true -> valid_key (a ++ b ++ c) = true.
Proof.
  unfold validate_key_strength.
  rewrite !string_length_list, !list_ascii_of_string_app, !length_app, !existsb_app.
  destruct (Nat.ltb_spec (length (list_ascii_of_string b)) 12) as [|Hb]; [done|].
  destruct (Nat.ltb_spec (length (list_ascii_of_string a) +
                          (length (list_ascii_of_string b) + length (list_ascii_of_string c)))
                         12) as [|_]; [lia|].
  cbv zeta. intros H. apply Nat.leb_le in H. apply Nat.leb_le.
  assert (Hmono : forall x y z, (Nat.b2n y <= Nat.b2n (x || (y || z)))%nat)
    by (intros [] [] []; cbn; lia).
  pose proof (Hmono (existsb islower (list_ascii_of_string a))
                (existsb islower (list_ascii_of_string b))
                (existsb islower (list_ascii_of_string c))).
  pose proof (Hmono (existsb isupper (list_ascii_of_string a))
                (existsb isupper (list_ascii_of_string b))
                (existsb isupper (list_ascii_of_string c))).
  pose proof (Hmono (existsb isdigit (list_ascii_of_string a))
                (existsb isdigit (list_ascii_of_string b))
                (existsb isdigit (list_ascii_of_string c))).
  pose proof (Hmono (existsb (fun c => negb (isalnum c)) (list_ascii_of_string a))
                (existsb (fun c => negb (isalnum c)) (list_ascii_of_string b))
                (existsb (fun c => negb (isalnum c)) (list_ascii_of_string c))).
  lia.
Qed.

(** X27. The rule of [validate_key_strength], whatever the character tests
    are.  An accepted key has at least twelve characters and stays accepted
    when characters are put before or after it.  A key in which two of the
    four kinds (lower case, upper case, digit, not alphanumeric) do not
    occur is refused, however long it is. *)
Theorem key_strength_rule (secret_key : string) :
  let validate_key_strength := validate_key_strength islower isupper isdigit isalnum in
  (validate_key_strength secret_key = true ->
   (12 <= String.length secret_key)%nat /\
   forall before after : string,
     validate_key_strength (before ++ secret_key ++ after)%string = true) /\
  (forall (i j : nat) (p q : ascii -> bool),
     i <> j ->
     [islower; isupper; isdigit; fun c => negb (isalnum c)] !! i = Some p ->
     [islower; isupper; isdigit; fun c => negb (isalnum c)] !! j = Some q ->
     Forall (fun c => p c = false /\ q c = false) (list_ascii_of_string secret_key) ->
     validate_key_strength secret_key = false).
Proof.
  cbv zeta. split.
  - intros Hk. split; [|intros a c; by apply valid_key_grows].
    revert Hk. unfold validate_key_strength.
    destruct (Nat.ltb_spec (String.length secret_key) 12); [done|lia].
  - intros i j p q Hne Hp Hq Hall.
    assert (Ep : existsb p (list_ascii_of_string secret_key) = false).
    { apply existsb_false. eapply Forall_impl; [exact Hall|]. by intros c [H _]. }
    assert (Eq : existsb q (list_ascii_of_string secret_key) = false).
    { apply existsb_false. eapply Forall_impl; [exact Hall|]. by intros c [_ H]. }
    clear Hall. unfold validate_key_strength.
    destruct (_ <? _)%nat; [done|]. cbv zeta.
    destruct i as [|[|[|[|i]]]]; cbn in Hp; try discriminate; injection Hp as <-;
      (destruct j as [|[|[|[|j]]]]; cbn in Hq; try discriminate; injection Hq as <-;
       try done; rewrite Ep, Eq;
       repeat match goal with
              | |- context [Nat.b2n (existsb ?t ?l)] => destruct (existsb t l)
              end; done).
Qed.

End KeyStrength.

(** Scenario: a long key of lower-case letters and digits is refused; the
    key of the examples stays accepted inside a longer one. *)
Example lower_case_and_digits_only :
  ex_validate_key_strength "correcthorsebatterystaple2024" = false /\
  ex_validate_key_strength ("xx" ++ ex_password ++ "yy") = true.
Proof. split; reflexivity. Qed.

End ChaoticCipher.

(** ** Exceptions seen by the web layer *)

Module Web.

Inductive exn :=
| HTTPException (status_code : Z) (detail : string)
| UnboundLocalError (name : string).

(** The status code [SecureErrorHandler.handle_exception] answers with: the
    code of an [HTTPException], 500 for an exception it does not know. *)
Definition response_status (e : exn) : Z :=
  match e with
  | HTTPException status_code _ => status_code
  | UnboundLocalError _ => 500
  end.

Definition HTTP_401_UNAUTHORIZED : Z := 401.
Definition HTTP_403_FORBIDDEN : Z := 403.
Definition HTTP_404_NOT_FOUND : Z := 404.
Definition HTTP_408_REQUEST_TIMEOUT : Z := 408.
Definition HTTP_409_CONFLICT : Z := 409.
Definition HTTP_429_TOO_MANY_REQUESTS : Z := 429.

(** Truthiness of an [Optional[str]], and [value or ""]. *)
Definition truthy (s : option string) : bool :=
  match s with
  | Some v => negb (String.eqb v "")
  | None => false
  end.

Definition or_empty (s : option string) : string := default ""%string s.

(** How an f-string renders an [Optional[str]]. *)
Definition fmt_optional (s : option string) : string := default "None"%string s.

End Web.

(** ** [app/core/authorization.py] *)

Module Authorization.
Import Web.

Record UserInDB := { id : string }.

(** The two entries of a track document that the service reads; [None] is
    an absent key. *)
Record Track := {
  track_is_public : option bool;
  track_owner_id : option string
}.

Record TrackSession := {
  ts_track_id : string;
  ts_user_id : string;
  ts_operation : string;
  ts_client_ip : option string;
  ts_expires_at : Z;
  ts_created_at : Z
}.

(** The table of the specification: what an operation needs. *)
Definition access_matrix (operation : string) (public owner : bool) : bool :=
  if String.eqb operation "read" || String.eqb operation "stream" then public || owner
  else if String.eqb operation "write" || String.eqb operation "delete" then owner
  else false.

Section Service.

(** [app.core.validation.validate_uuid] and [app.crud.audio.get_track_by_id]
    are collaborators outside these sources; so are the secret, the hash and
    the rendering of a timestamp.  Times are seconds. *)
Variable validate_uuid : string -> string -> exn + string.
Variable SECRET_KEY : string.
Variable sha256_hexdigest : string -> string.
Variable isoformat : Z -> string.

Definition substring_to (n : nat) (s : string) : string := String.substring 0 n s.

(** [_create_secure_access_token]; [nonce] is [secrets.token_hex(16)]. *)
Definition _create_secure_access_token
    (sessions : gmap string TrackSession)
    (track_id user_id operation : string) (client_ip : option string)
    (ttl_minutes : Z) (now : Z) (nonce : string)
  : string * gmap string TrackSession :=
  let session_data :=
    (track_id ++ ":" ++ user_id ++ ":" ++ operation ++ ":" ++
     fmt_optional client_ip ++ ":" ++ isoformat now)%string in
  let session_id :=
    substring_to 32 (sha256_hexdigest (session_data ++ SECRET_KEY ++ nonce)%string) in
  let expires_at := now + ttl_minutes * 60 in
  (session_id,
   <[session_id := {| ts_track_id := track_id; ts_user_id := user_id;
                      ts_operation := operation; ts_client_ip := client_ip;
                      ts_expires_at := expires_at; ts_created_at := now |}]> sessions).

Definition is_owner (user : option UserInDB) (owner_id : option string) : bool :=
  match user with
  | Some u => bool_decide (Some (id u) = owner_id)
  | None => false
  end.

Definition user_label (user : option UserInDB) : string :=
  match user with
  | Some u => id u
  | None => "anonymous"
  end.

Definition check_track_access
    (sessions : gmap string TrackSession)
    (track_id : string) (user : option UserInDB)
    (db : string -> option Track)
    (operation : string) (client_ip : option string)
    (now : Z) (nonce : string)
  : (exn + (Track * string)) * gmap string TrackSession :=
  match validate_uuid track_id "track_id" with
  | inl e => (inl e, sessions)
  | inr validated_track_id =>
      match db validated_track_id with
      | None => (inl (HTTPException HTTP_404_NOT_FOUND "Track not found"), sessions)
      | Some track =>
          let is_public := default false (track_is_public track) in
          let owner_id := track_owner_id track in
          let access_granted :=
            if String.eqb operation "read" || String.eqb operation "stream"
            then is_public || is_owner user owner_id
            else if String.eqb operation "write" then is_owner user owner_id
            else if String.eqb operation "delete" then is_owner user owner_id
            else false in
          if negb access_granted then
            match user with
            | None =>
                (inl (HTTPException HTTP_401_UNAUTHORIZED "Authentication required"),
                 sessions)
            | Some _ =>
                (inl (HTTPException HTTP_403_FORBIDDEN
                        "You do not have permission to access this track"),
                 sessions)
            end
          else
            let '(access_token, sessions') :=
              _create_secure_access_token sessions validated_track_id (user_label user)
                operation client_ip 30 now nonce in
            (inr (track, access_token), sessions')
      end
  end.

(** C3. Access matrix with error kinds.  Once the track id has passed
    validation: an absent track gives 404 (NotFound); otherwise the check
    grants access exactly when the matrix does, that is for read and stream
    when the track is public or the caller is its owner, for write and delete
    when the caller is its owner, and never for another operation; a grant
    returns the track with a token stored for that track, caller and
    operation; every denial is 401 (Unauthenticated) for an anonymous caller
    and 403 (Forbidden) for an authenticated one, and stores nothing. *)
Theorem check_track_access_matrix
    (sessions : gmap string TrackSession) (track_id : string)
    (user : option UserInDB) (db : string -> option Track)
    (operation : string) (client_ip : option string) (now : Z) (nonce : string) :
  let outcome :=
    check_track_access sessions track_id user db operation client_ip now nonce in
  match validate_uuid track_id "track_id" with
  | inl e => outcome = (inl e, sessions)
  | inr vid =>
      match db vid with
      | None => outcome = (inl (HTTPException 404 "Track not found"), sessions)
      | Some track =>
          if access_matrix operation (default false (track_is_public track))
               (is_owner user (track_owner_id track))
          then exists token,
                 outcome =
                 (inr (track, token),
                  <[token := {| ts_track_id := vid; ts_user_id := user_label user;
                                ts_operation := operation; ts_client_ip := client_ip;
                                ts_expires_at := now + 1800; ts_created_at := now |}]>
                    sessions)
          else exists detail,
                 outcome =
                 (inl (HTTPException (if user is None then 401 else 403) detail), sessions)
      end
  end.
Proof.
  intros outcome. subst outcome. unfold check_track_access.
  destruct (validate_uuid track_id "track_id") as [e|vid]; [done|].
  destruct (db vid) as [track|]; [|done].
  unfold access_matrix.
  set (pub := default false (track_is_public track)).
  set (own := is_owner user (track_owner_id track)).
  assert (Hwd : (if String.eqb operation "write" then own
                 else if String.eqb operation "delete" then own else false) =
                (if String.eqb operation "write" || String.eqb operation "delete"
                 then own else false)).
  { destruct (String.eqb operation "write"), (String.eqb operation "delete"); done. }
  rewrite Hwd. clear Hwd.
  destruct (if String.eqb operation "read" || String.eqb operation "stream"
            then pub || own
            else if String.eqb operation "write" || String.eqb operation "delete"
                 then own else false); cbn [negb].
  - eexists. reflexivity.
  - destruct user; eexists; reflexivity.
Qed.

End Service.

(** Scenario: a private track of [U]; anonymous read, read by another user,
    and delete by the owner. *)
Definition ex_db (track_id : string) : option Track :=
  if String.eqb track_id "T"
  then Some {| track_is_public := Some false; track_owner_id := Some "U"%string |}
  else None.

Definition ex_check (user : option UserInDB) (operation : string) : exn + (Track * string) :=
  fst (check_track_access (fun s _ => inr s) "k" (fun s => s) (fun _ => "t"%string)
         ∅ "T" user ex_db operation None 0 "n").

Example private_track_scenario :
  ex_check None "read" = inl (HTTPException 401 "Authentication required") /\
  ex_check (Some {| id := "V" |}) "read" =
    inl (HTTPException 403 "You do not have permission to access this track") /\
  (exists track token, ex_check (Some {| id := "U" |}) "delete" = inr (track, token)) /\
  ex_check (Some {| id := "U" |}) "purge" =
    inl (HTTPException 403 "You do not have permission to access this track") /\
  fst (check_track_access (fun s _ => inr s) "k" (fun s => s) (fun _ => "t"%string)
         ∅ "X" None ex_db "read" None 0 "n") = inl (HTTPException 404 "Track not found").
Proof.
  repeat split; try reflexivity. eexists _, _. reflexivity.
Qed.

End Authorization.

(** ** [app/core/token_utils.py] *)

Module TokenUtils.
Import Web.

(** The claims of a signed URL token.  A token signed under the same key
    elsewhere may lack any of them. *)
Record Claims := {
  claim_track_id : option string;
  claim_exp : option Z;
  claim_ip : option string;
  claim_rng : option string
}.

#[global] Instance Claims_eq_dec : EqDecision Claims.
Proof. solve_decision. Defined.

(** A compact JWT: claims and signature; or a string that does not parse. *)
Inductive Token :=
| Compact (claims : Claims) (signature : string)
| Malformed (raw : string).

Definition TOKEN_EXPIRE_MINUTES_DEFAULT : Z := 2.

Section Jose.

(** The HS256 signature of a claim set under [SECRET_KEY]. *)
Variable sign : Claims -> string.

(** [jwt.encode(payload, SECRET_KEY, algorithm=ALGORITHM)] *)
Definition jwt_encode (payload : Claims) : Token := Compact payload (sign payload).

(** [jwt.decode(token, SECRET_KEY, algorithms=[ALGORITHM])] at time [now], in
    seconds: [None] stands for a [JWTError] (bad signature, or [exp] in the
    past). *)
Definition jwt_decode (token : Token) (now : Z) : option Claims :=
  match token with
  | Malformed _ => None
  | Compact claims signature =>
      if negb (String.eqb signature (sign claims)) then None
      else match claim_exp claims with
           | Some exp => if exp <? now then None else Some claims
           | None => Some claims
           end
  end.

Definition create_track_token (track_id : string) (ip range_header : option string)
    (expires_minutes : Z) (now : Z) : Token :=
  let payload :=
    {| claim_track_id := Some track_id;
       claim_exp := Some (now + expires_minutes * 60);
       claim_ip := if truthy ip then ip else None;
       claim_rng := if truthy range_header then range_header else None |} in
  jwt_encode payload.

Definition verify_track_token (token : Token) (track_id : string)
    (ip range_header : option string) (now : Z) : exn + unit :=
  match jwt_decode token now with
  | None => inl (HTTPException HTTP_401_UNAUTHORIZED "Invalid token")
  | Some payload =>
      if negb (bool_decide (claim_track_id payload = Some track_id))
      then inl (HTTPException HTTP_403_FORBIDDEN "Token track mismatch")
      else if truthy ip && truthy (claim_ip payload)
              && negb (bool_decide (claim_ip payload = ip))
      then inl (HTTPException HTTP_403_FORBIDDEN "IP mismatch")
      else if truthy (claim_rng payload)
              && negb (bool_decide (Some (or_empty range_header) = claim_rng payload))
      then inl (HTTPException HTTP_403_FORBIDDEN "Range header mismatch")
      else inr tt
  end.

Lemma truthy_Some (s : string) : s <> ""%string -> truthy (Some s) = true.
Proof.
  intros H. unfold truthy. destruct (String.eqb_spec s ""); [done|reflexivity].
Qed.

Lemma sign_accepts claims : negb (String.eqb (sign claims) (sign claims)) = false.
Proof. by rewrite String.eqb_refl. Qed.

(** What verification answers on a token minted with both bindings. *)
Lemma verify_minted (track_id A R : string) (ttl t0 : Z)
    (track_id' : string) (ip range_header : option string) (now : Z) :
  A <> ""%string -> R <> ""%string ->
  verify_track_token (create_track_token track_id (Some A) (Some R) ttl t0)
    track_id' ip range_header now =
  if t0 + ttl * 60 <? now then inl (HTTPException 401 "Invalid token")
  else if negb (bool_decide (track_id = track_id'))
  then inl (HTTPException 403 "Token track mismatch")
  else if truthy ip && negb (bool_decide (ip = Some A))
  then inl (HTTPException 403 "IP mismatch")
  else if negb (bool_decide (or_empty range_header = R))
  then inl (HTTPException 403 "Range header mismatch")
  else inr tt.
Proof.
  intros HA HR. unfold verify_track_token, create_track_token, jwt_encode, jwt_decode.
  rewrite sign_accepts. cbn [claim_exp].
  destruct (t0 + ttl * 60 <? now); [done|].
  cbn [claim_track_id claim_ip claim_rng]. rewrite !truthy_Some by done.
  replace (bool_decide (Some track_id = Some track_id'))
    with (bool_decide (track_id = track_id')) by (apply bool_decide_ext; naive_solver).
  replace (bool_decide (Some A = ip))
    with (bool_decide (ip = Some A)) by (apply bool_decide_ext; naive_solver).
  replace (bool_decide (Some (or_empty range_header) = Some R))
    with (bool_decide (or_empty range_header = R)) by (apply bool_decide_ext; naive_solver).
  rewrite andb_true_r. reflexivity.
Qed.

(** C4, as the code has it.  A token minted for [track_id] with IP binding
    [A] and Range binding [R] (both non-empty) verifies exactly when it has
    not expired, the expected track id is [track_id], the verifier passes no
    IP (none, or the empty string) or passes exactly [A], and the verifier's
    Range header (an absent one read as empty) is exactly [R].  An expired
    token and a token whose signature does not match are rejected with 401; a
    track mismatch, a supplied IP other than [A] and a Range mismatch are
    rejected with 403. *)
Theorem signed_url_binding (track_id A R : string) (ttl t0 : Z)
    (track_id' : string) (ip range_header : option string) (now : Z) :
  A <> ""%string -> R <> ""%string ->
  let token := create_track_token track_id (Some A) (Some R) ttl t0 in
  let outcome := verify_track_token token track_id' ip range_header now in
  (outcome = inr tt <->
     now <= t0 + ttl * 60 /\ track_id' = track_id /\
     (truthy ip = false \/ ip = Some A) /\ or_empty range_header = R) /\
  (t0 + ttl * 60 < now -> outcome = inl (HTTPException 401 "Invalid token")) /\
  (forall claims signature,
     signature <> sign claims ->
     verify_track_token (Compact claims signature) track_id' ip range_header now =
     inl (HTTPException 401 "Invalid token")) /\
  (now <= t0 + ttl * 60 ->
   track_id' <> track_id \/ (truthy ip = true /\ ip <> Some A) \/ or_empty range_header <> R ->
   exists detail, outcome = inl (HTTPException 403 detail)).
Proof.
  intros HA HR token outcome. subst token outcome.
  rewrite verify_minted by done.
  repeat split.
  - destruct (Z.ltb_spec (t0 + ttl * 60) now); [done|lia].
  - revert H. destruct (Z.ltb_spec (t0 + ttl * 60) now); [done|].
    by destruct (decide (track_id = track_id')) as [->|];
      [rewrite bool_decide_eq_true_2 by done|rewrite bool_decide_eq_false_2 by done].
  - revert H. destruct (Z.ltb_spec (t0 + ttl * 60) now); [done|].
    destruct (decide (track_id = track_id')) as [->|];
      [rewrite bool_decide_eq_true_2 by done|by rewrite bool_decide_eq_false_2 by done].
    cbn [negb]. destruct (truthy ip); [|by left].
    destruct (decide (ip = Some A)) as [->|]; [by right|].
    by rewrite bool_decide_eq_false_2 by done.
  - revert H. destruct (Z.ltb_spec (t0 + ttl * 60) now); [done|].
    destruct (decide (track_id = track_id')) as [->|];
      [rewrite bool_decide_eq_true_2 by done|by rewrite bool_decide_eq_false_2 by done].
    cbn [negb].
    destruct (truthy ip && negb (bool_decide (ip = Some A))); [done|].
    destruct (decide (or_empty range_header = R)); [done|].
    by rewrite bool_decide_eq_false_2 by done.
  - intros (Hexp & -> & Hip & Hrng).
    destruct (Z.ltb_spec (t0 + ttl * 60) now); [lia|].
    rewrite bool_decide_eq_true_2 by done. cbn [negb].
    replace (truthy ip && negb (bool_decide (ip = Some A))) with false.
    + by rewrite bool_decide_eq_true_2 by done.
    + destruct Hip as [->| ->]; [done|].
      rewrite bool_decide_eq_true_2 by done. by rewrite andb_false_r.
  - intros Hexp. destruct (Z.ltb_spec (t0 + ttl * 60) now); [done|lia].
  - intros claims signature Hsig. unfold verify_track_token, jwt_decode.
    destruct (String.eqb_spec signature (sign claims)); done.
  - intros Hexp Hmis.
    destruct (Z.ltb_spec (t0 + ttl * 60) now); [lia|].
    destruct (decide (track_id = track_id')) as [->|];
      [rewrite bool_decide_eq_true_2 by done|rewrite bool_decide_eq_false_2 by done];
      cbn [negb]; [|by eexists].
    destruct Hmis as [?|[[Ht Hn]|Hr]]; [done| |].
    + rewrite Ht, bool_decide_eq_false_2 by done. by eexists.
    + destruct (truthy ip && negb (bool_decide (ip = Some A))); [by eexists|].
      rewrite bool_decide_eq_false_2 by done. by eexists.
Qed.

End Jose.

Definition ex_sign (claims : Claims) : string :=
  ("sig:" ++ default "" (claim_track_id claims) ++ ":" ++ default "" (claim_ip claims)
   ++ ":" ++ default "" (claim_rng claims))%string.

Definition ex_token : Token :=
  create_track_token ex_sign "track-1" (Some "203.0.113.7"%string)
    (Some "bytes=0-1023"%string) TOKEN_EXPIRE_MINUTES_DEFAULT 1000.

(** C4, as the claim states it, fails: a token bound to the IP 203.0.113.7
    verifies for a caller that passes no IP at all. *)
Lemma ip_binding_skipped_without_caller_ip :
  verify_track_token ex_sign ex_token "track-1" None (Some "bytes=0-1023"%string) 1060
    = inr tt /\
  ~ (forall (sign : Claims -> string) (track_id A R : string) (ttl t0 : Z)
            (track_id' : string) (ip range_header : option string) (now : Z),
       A <> ""%string -> R <> ""%string ->
       verify_track_token sign (create_track_token sign track_id (Some A) (Some R) ttl t0)
         track_id' ip range_header now = inr tt ->
       track_id' = track_id /\ ip = Some A /\ range_header = Some R).
Proof.
  split; [reflexivity|].
  intros H.
  destruct (H ex_sign "track-1" "203.0.113.7" "bytes=0-1023" 2 1000
              "track-1" None (Some "bytes=0-1023") 1060)%string as (_ & Hip & _);
    [done|done|reflexivity|discriminate].
Qed.

Lemma signed_url_binding_witness :
  let outcome :=
    verify_track_token ex_sign ex_token "track-1" (Some "203.0.113.7"%string)
      (Some "bytes=0-1023"%string) 1060 in
  (outcome = inr tt <->
     1060 <= 1000 + 2 * 60 /\ "track-1"%string = "track-1"%string /\
     (truthy (Some "203.0.113.7"%string) = false \/
      Some "203.0.113.7"%string = Some "203.0.113.7"%string) /\
     or_empty (Some "bytes=0-1023"%string) = "bytes=0-1023"%string) /\
  (1000 + 2 * 60 < 1060 -> outcome = inl (HTTPException 401 "Invalid token")) /\
  (forall claims signature,
     signature <> ex_sign claims ->
     verify_track_token ex_sign (Compact claims signature) "track-1"
       (Some "203.0.113.7"%string) (Some "bytes=0-1023"%string) 1060 =
     inl (HTTPException 401 "Invalid token")) /\
  (1060 <= 1000 + 2 * 60 ->
   "track-1"%string <> "track-1"%string \/
   (truthy (Some "203.0.113.7"%string) = true /\
    Some "203.0.113.7"%string <> Some "203.0.113.7"%string) \/
   or_empty (Some "bytes=0-1023"%string) <> "bytes=0-1023"%string ->
   exists detail, outcome = inl (HTTPException 403 detail)).
Proof.
  apply (signed_url_binding ex_sign "track-1" "203.0.113.7" "bytes=0-1023" 2 1000
           "track-1" (Some "203.0.113.7"%string) (Some "bytes=0-1023"%string) 1060);
    discriminate.
Defined.

Example signed_url_examples :
  verify_track_token ex_sign ex_token "track-1" (Some "203.0.113.7"%string)
    (Some "bytes=0-1023"%string) 1060 = inr tt /\
  verify_track_token ex_sign ex_token "track-1" (Some "203.0.113.8"%string)
    (Some "bytes=0-1023"%string) 1060 = inl (HTTPException 403 "IP mismatch") /\
  verify_track_token ex_sign ex_token "track-1" (Some "203.0.113.7"%string)
    None 1060 = inl (HTTPException 403 "Range header mismatch") /\
  verify_track_token ex_sign ex_token "track-2" (Some "203.0.113.7"%string)
    (Some "bytes=0-1023"%string) 1060 = inl (HTTPException 403 "Token track mismatch") /\
  verify_track_token ex_sign ex_token "track-1" (Some "203.0.113.7"%string)
    (Some "bytes=0-1023"%string) 1121 = inl (HTTPException 401 "Invalid token").
Proof. repeat split; reflexivity. Qed.

(** *** Tokens minted with fewer bindings, and tokens minted elsewhere *)

Section Optional.

Variable sign : Claims -> string.

#[local] Abbreviation create_track_token_ := (create_track_token sign).
#[local] Abbreviation verify_track_token_ := (verify_track_token sign).

(** X7. The bindings of a signed URL are optional on both sides.  For a
    token minted with any IP and Range arguments, verification succeeds
    exactly when the token has not expired, the expected track is the minted
    one, the IP check passes and the Range check passes; the IP check passes
    as soon as the token was minted without an IP (none, or the empty
    string), or the verifier passes none, and otherwise asks for the minted
    IP; the Range check passes when the token was minted without a Range,
    and otherwise asks for the minted Range, an absent header being read as
    empty. *)
Theorem bindings_are_optional (track_id : string) (ip range_header : option string)
    (ttl t0 : Z) (track_id' : string) (ip' range_header' : option string) (now : Z) :
  verify_track_token_ (create_track_token_ track_id ip range_header ttl t0)
    track_id' ip' range_header' now = inr tt <->
  now <= t0 + ttl * 60 /\ track_id' = track_id /\
  (truthy ip = false \/ truthy ip' = false \/ ip' = ip) /\
  (truthy range_header = false \/ Some (or_empty range_header') = range_header).
Proof.
  unfold verify_track_token, create_track_token, jwt_encode, jwt_decode.
  rewrite sign_accepts. cbn [claim_exp].
  destruct (Z.ltb_spec (t0 + ttl * 60) now) as [Hlt|Hge].
  { split; [done|]. lia. }
  cbn [claim_track_id claim_ip claim_rng].
  destruct (decide (track_id' = track_id)) as [->|Hne].
  2:{ rewrite bool_decide_eq_false_2 by congruence. cbn [negb]. split; [done|]. naive_solver. }
  rewrite bool_decide_eq_true_2 by done. cbn [negb].
  assert (Hip : truthy ip' && truthy (if truthy ip then ip else None)
                && negb (bool_decide ((if truthy ip then ip else None) = ip')) = false <->
                truthy ip = false \/ truthy ip' = false \/ ip' = ip).
  { destruct (truthy ip) eqn:Hi.
    - cbv iota. rewrite Hi. destruct (truthy ip') eqn:Hi'; cbn [andb].
      + case_bool_decide as Hd; cbn [negb].
        * split; [intros _; right; right; done|done].
        * split; [done|]. intros [?|[?|?]]; congruence.
      + split; [intros _; right; left; done|done].
    - cbn [truthy]. rewrite andb_false_r. cbn [andb]. split; [by left|done]. }
  assert (Hrng : truthy (if truthy range_header then range_header else None)
                 && negb (bool_decide (Some (or_empty range_header') =
                                        (if truthy range_header then range_header else None)))
                 = false <->
                 truthy range_header = false \/ Some (or_empty range_header') = range_header).
  { destruct (truthy range_header) eqn:Hr.
    - rewrite Hr. cbv iota. cbn [andb].
      destruct (decide (Some (or_empty range_header') = range_header)) as [Hd|Hd];
        [rewrite bool_decide_eq_true_2 by done|rewrite bool_decide_eq_false_2 by done];
        cbn [negb].
      + split; [intros _; by right|done].
      + split; [done|]. intros [?|?]; congruence.
    - cbn [truthy andb]. split; [by left|done]. }
  destruct (truthy ip' && _ && _) eqn:E1.
  { split; [done|]. intros (_ & _ & H & _). apply Hip in H. congruence. }
  destruct (truthy (if truthy range_header then range_header else None) && _) eqn:E2.
  { split; [done|]. intros (_ & _ & _ & H). apply Hrng in H. congruence. }
  split; [intros _|done]. split; [done|]. split; [done|]. split; [by apply Hip|by apply Hrng].
Qed.

(** X8. What an accepted token must be.  Whatever token is presented,
    minted by [create_track_token] or not, if verification succeeds then the
    token carries the signature of its own claims, its track claim is the
    expected track, its expiry claim, if it has one, has not passed, its IP
    claim, if it has one and the verifier passes an IP, is that IP, and its
    Range claim, if it has one, is the verifier's Range header. *)
Theorem accepted_token_is_signed_for_the_track (token : Token) (track_id : string)
    (ip range_header : option string) (now : Z) :
  verify_track_token_ token track_id ip range_header now = inr tt ->
  exists claims,
    token = Compact claims (sign claims) /\
    claim_track_id claims = Some track_id /\
    (forall exp, claim_exp claims = Some exp -> now <= exp) /\
    (truthy ip = true -> truthy (claim_ip claims) = true -> claim_ip claims = ip) /\
    (truthy (claim_rng claims) = true -> claim_rng claims = Some (or_empty range_header)).
Proof.
  unfold verify_track_token, jwt_decode.
  destruct token as [claims signature|raw]; [|done].
  destruct (String.eqb_spec signature (sign claims)) as [->|]; [|done]. cbn [negb].
  assert (Hexp : forall payload,
    match claim_exp claims with
    | Some exp => if exp <? now then None else Some claims
    | None => Some claims
    end = Some payload ->
    payload = claims /\ forall exp, claim_exp claims = Some exp -> now <= exp).
  { intros payload. destruct (claim_exp claims) as [exp|].
    - destruct (Z.ltb_spec exp now); [done|]. intros [= <-]. split; [done|].
      intros ? [= <-]. done.
    - intros [= <-]. done. }
  destruct (match claim_exp claims with Some _ => _ | None => _ end) as [payload|];
    [|done].
  destruct (Hexp payload eq_refl) as [-> Hle]. clear Hexp.
  case_bool_decide as Htr; [|done]. cbn [negb].
  destruct (truthy ip && truthy (claim_ip claims)
            && negb (bool_decide (claim_ip claims = ip))) eqn:Hip; [done|].
  destruct (truthy (claim_rng claims) && _) eqn:Hrng; [done|].
  intros _. exists claims. repeat split; try done.
  - intros H1 H2. rewrite H1, H2 in Hip. cbn [andb] in Hip.
    by apply negb_false_iff, bool_decide_eq_true in Hip.
  - intros H1. rewrite H1 in Hrng. cbn [andb] in Hrng.
    by apply negb_false_iff, bool_decide_eq_true in Hrng.
Qed.

End Optional.

Lemma accepted_token_is_signed_for_the_track_witness :
  exists claims,
    ex_token = Compact claims (ex_sign claims) /\
    claim_track_id claims = Some "track-1"%string /\
    (forall exp, claim_exp claims = Some exp -> 1060 <= exp) /\
    (truthy None = true -> truthy (claim_ip claims) = true -> claim_ip claims = None) /\
    (truthy (claim_rng claims) = true ->
     claim_rng claims = Some (or_empty (Some "bytes=0-1023"%string))).
Proof.
  apply (accepted_token_is_signed_for_the_track ex_sign ex_token "track-1" None
           (Some "bytes=0-1023"%string) 1060).
  reflexivity.
Defined.

(** Scenario: a token minted without bindings verifies from any address and
    with any Range header until it expires. *)
Example unbound_token :
  let token := create_track_token ex_sign "track-1" None (Some ""%string) 2 1000 in
  verify_track_token ex_sign token "track-1" (Some "198.51.100.1"%string)
    (Some "bytes=0-"%string) 1100 = inr tt /\
  verify_track_token ex_sign token "track-1" None None 1120 = inr tt /\
  verify_track_token ex_sign token "track-1" None None 1121 =
    inl (HTTPException 401 "Invalid token").
Proof. repeat split; reflexivity. Qed.

End TokenUtils.

(** ** [app/core/hls_cleanup.py] *)

Module HlsCleanup.

(** The tree under the HLS root: a file with its modification time, or a
    directory with its listing.  Times are on one scale with [age_seconds]. *)
Inductive Node :=
| File (mtime : Z)
| Dir (entries : list (string * Node)).

Definition HLS_DIRECTORY : string := "hls".
Definition _SEGMENT_EXT : string := ".ts".

(** [s.endswith(suffix)] *)
Definition endswith (s suffix : string) : bool :=
  let n := String.length s in
  let m := String.length suffix in
  (m <=? n)%nat && String.eqb (String.substring (n - m) m s) suffix.

(** [os.path.join(root, name)] *)
Definition join (root name : string) : string := (root ++ "/" ++ name)%string.

(** The entry a name denotes in a listing. *)
Fixpoint entry (name : string) (es : list (string * Node)) : option Node :=
  match es with
  | [] => None
  | (n, child) :: rest => if String.eqb n name then Some child else entry name rest
  end.

(** The node at a path below a node. *)
Fixpoint lookup_path (n : Node) (path : list string) : option Node :=
  match path with
  | [] => Some n
  | name :: rest =>
      match n with
      | File _ => None
      | Dir es =>
          match entry name es with
          | Some child => lookup_path child rest
          | None => None
          end
      end
  end.

Section Sweep.

(** Whether [os.remove] on a path raises an error other than a missing
    file (it is logged and the file stays), and whether [shutil.rmtree]
    fails, silently, to remove a directory. *)
Variable remove_fails : string -> bool.
Variable rmtree_fails : string -> bool.

Variable age_seconds : Z.
Variable now : Z.

(** The body of [for file in files] decides whether an entry is deleted. *)
Definition deleted (root : string) (e : string * Node) : bool :=
  match e with
  | (file, File mtime) =>
      endswith file _SEGMENT_EXT && (age_seconds <? now - mtime)
      && negb (remove_fails (join root file))
  | (_, Dir _) => false
  end.

(** One directory as [os.walk(..., topdown=False)] presents it to the loop
    body: its subdirectories have been dealt with, then its own segments are
    deleted, then it is removed if it is not the root and is listed empty.
    The result is what is left of the directory, [None] when it is gone. *)
Fixpoint sweep (root : string) (n : Node) : option Node :=
  match n with
  | File mtime => Some (File mtime)
  | Dir es =>
      let below :=
        omap (fun e : string * Node =>
                match e.2 with
                | File _ => Some e
                | Dir _ =>
                    match sweep (join root e.1) e.2 with
                    | Some child => Some (e.1, child)
                    | None => None
                    end
                end) es in
      let remaining := filter (fun e => negb (deleted root e)) below in
      if String.eqb root HLS_DIRECTORY then Some (Dir remaining)
      else
        match remaining with
        | [] => if rmtree_fails root then Some (Dir remaining) else None
        | _ => Some (Dir remaining)
        end
  end.

Definition _cleanup_once (hls : list (string * Node)) : list (string * Node) :=
  match sweep HLS_DIRECTORY (Dir hls) with
  | Some (Dir remaining) => remaining
  | _ => hls
  end.

(** A file the sweep must leave alone. *)
Definition kept (name : string) (mtime : Z) : Prop :=
  endswith name _SEGMENT_EXT = false \/ now - mtime <= age_seconds.

(** The two passes over one listing, as [sweep] performs them. *)
Definition below (root : string) (es : list (string * Node)) : list (string * Node) :=
  omap (fun e : string * Node =>
          match e.2 with
          | File _ => Some e
          | Dir _ =>
              match sweep (join root e.1) e.2 with
              | Some child => Some (e.1, child)
              | None => None
              end
          end) es.

Definition remaining (root : string) (es : list (string * Node)) : list (string * Node) :=
  filter (fun e => negb (deleted root e)) (below root es).

Lemma sweep_Dir root es :
  sweep root (Dir es) =
  if String.eqb root HLS_DIRECTORY then Some (Dir (remaining root es))
  else match remaining root es with
       | [] => if rmtree_fails root then Some (Dir (remaining root es)) else None
       | _ => Some (Dir (remaining root es))
       end.
Proof. reflexivity. Qed.

Lemma sweep_Dir_is_Dir root es c :
  sweep root (Dir es) = Some c -> exists es', c = Dir es'.
Proof.
  rewrite sweep_Dir. destruct (String.eqb root HLS_DIRECTORY).
  - intros [= <-]. eauto.
  - destruct (remaining root es); [destruct (rmtree_fails root)|];
      intros [= <-]; eauto.
Qed.

Lemma entry_below_file root name es mtime :
  entry name es = Some (File mtime) -> entry name (below root es) = Some (File mtime).
Proof.
  induction es as [|[n child] es IH]; [done|].
  cbn [entry]. unfold below. cbn [omap list_omap]. fold (below root es). cbn [fst snd].
  destruct (String.eqb n name) eqn:Hn.
  - intros [= ->]. cbn [entry]. by rewrite Hn.
  - intros H. specialize (IH H).
    destruct child as [m|sub]; [cbn [entry]; by rewrite Hn|].
    destruct (sweep (join root n) (Dir sub)); [cbn [entry]; by rewrite Hn|done].
Qed.

Lemma entry_below_dir root name es child child' :
  entry name es = Some child ->
  (exists sub, child = Dir sub) ->
  sweep (join root name) child = Some child' ->
  entry name (below root es) = Some child'.
Proof.
  intros He [sub ->] Hs. revert He.
  induction es as [|[n c] es IH]; [done|].
  cbn [entry]. unfold below. cbn [omap list_omap]. fold (below root es). cbn [fst snd].
  destruct (String.eqb_spec n name) as [->|Hn].
  - intros [= ->]. rewrite Hs. cbn [entry]. by rewrite String.eqb_refl.
  - intros H. specialize (IH H).
    apply String.eqb_neq in Hn.
    destruct c as [m|sub']; [cbn [entry]; by rewrite Hn|].
    destruct (sweep (join root n) (Dir sub')); [cbn [entry]; by rewrite Hn|done].
Qed.

Lemma entry_filter root name l child :
  entry name l = Some child -> deleted root (name, child) = false ->
  entry name (filter (fun e => negb (deleted root e)) l) = Some child.
Proof.
  intros He Hd. revert He.
  induction l as [|[n c] l IH]; [done|].
  cbn [entry]. destruct (String.eqb_spec n name) as [->|Hn].
  - intros [= ->]. rewrite filter_cons_True by (by rewrite Hd).
    cbn [entry]. by rewrite String.eqb_refl.
  - intros H. specialize (IH H). apply String.eqb_neq in Hn.
    rewrite filter_cons. destruct (decide _); [cbn [entry]; by rewrite Hn|done].
Qed.

Lemma kept_not_deleted root name mtime :
  kept name mtime -> deleted root (name, File mtime) = false.
Proof.
  intros [Hext|Hage]; cbn [deleted].
  - by rewrite Hext.
  - replace (age_seconds <? now - mtime) with false by (symmetry; apply Z.ltb_ge; lia).
    by rewrite andb_false_r.
Qed.

Lemma sweep_keeps_nonempty root es name child :
  entry name (remaining root es) = Some child ->
  sweep root (Dir es) = Some (Dir (remaining root es)).
Proof.
  intros He. rewrite sweep_Dir. destruct (String.eqb root HLS_DIRECTORY); [done|].
  destruct (remaining root es); done.
Qed.

Lemma file_survives path :
  forall n root name mtime,
    lookup_path n (path ++ [name]) = Some (File mtime) -> kept name mtime ->
    exists es', sweep root n = Some (Dir es') /\
                lookup_path (Dir es') (path ++ [name]) = Some (File mtime).
Proof.
  induction path as [|d rest IH]; intros n root name mtime Hl Hk.
  - cbn [app lookup_path] in Hl. destruct n as [m|es]; [done|].
    destruct (entry name es) as [child|] eqn:He; [|done].
    injection Hl as ->.
    assert (Hr : entry name (remaining root es) = Some (File mtime)).
    { apply entry_filter; [by apply entry_below_file|by apply kept_not_deleted]. }
    exists (remaining root es). split; [by eapply sweep_keeps_nonempty|].
    cbn [app lookup_path]. by rewrite Hr.
  - cbn [app lookup_path] in Hl. change (d :: rest ++ [name]) with ((d :: rest) ++ [name]).
    destruct n as [m|es]; [done|].
    destruct (entry d es) as [child|] eqn:He; [|done].
    assert (Hdir : exists sub, child = Dir sub).
    { destruct child as [m|sub]; [|by eauto]. by destruct rest. }
    destruct (IH child (join root d) name mtime Hl Hk) as (es'' & Hs & Hl').
    assert (Hr : entry d (remaining root es) = Some (Dir es'')).
    { apply entry_filter; [by eapply entry_below_dir|done]. }
    exists (remaining root es). split; [by eapply sweep_keeps_nonempty|].
    cbn [app lookup_path]. by rewrite Hr.
Qed.

Lemma removed_only_if_emptied root es :
  sweep root (Dir es) = None ->
  root <> HLS_DIRECTORY /\
  forall name child, (name, child) ∈ es ->
    match child with
    | File mtime => endswith name _SEGMENT_EXT = true /\ age_seconds < now - mtime
    | Dir _ => sweep (join root name) child = None
    end.
Proof.
  rewrite sweep_Dir. destruct (String.eqb_spec root HLS_DIRECTORY) as [|Hroot]; [done|].
  destruct (remaining root es) as [|e l] eqn:Hrem; [|done].
  intros _. split; [done|]. intros name child Hin.
  assert (Hall : forall e, e ∈ below root es -> deleted root e = true).
  { intros e He. destruct (deleted root e) eqn:Hd; [done|].
    assert (e ∈ remaining root es) as Hm
      by (apply list_elem_of_filter; split; [by rewrite Hd|done]).
    rewrite Hrem in Hm. by apply elem_of_nil in Hm. }
  destruct child as [mtime|sub].
  - assert (Hb : (name, File mtime) ∈ below root es).
    { apply list_elem_of_omap. exists (name, File mtime). done. }
    apply Hall in Hb. cbn [deleted] in Hb.
    apply andb_prop in Hb as [Hb _]. apply andb_prop in Hb as [Hext Hage].
    split; [done|]. by apply Z.ltb_lt.
  - destruct (sweep (join root name) (Dir sub)) as [c|] eqn:Hs; [|done].
    destruct (sweep_Dir_is_Dir _ _ _ Hs) as [es' ->].
    assert (Hb : (name, Dir es') ∈ below root es).
    { apply list_elem_of_omap. exists (name, Dir sub). cbn [fst snd]. by rewrite Hs. }
    apply Hall in Hb. done.
Qed.

(** C7. Safety of one cleanup pass.  A file whose name does not end in [.ts],
    whatever its age, and a [.ts] file whose modification time is within
    [age_seconds] of the current time, are still there, at the same path and
    with the same modification time, after the pass.  A directory that the
    pass removes is not the HLS root, and was emptied first: every file in it
    was a segment older than [age_seconds] and every subdirectory in it was
    itself removed.  The root is never removed. *)
Theorem sweep_safety (hls : list (string * Node)) :
  (forall path name mtime,
     lookup_path (Dir hls) (path ++ [name]) = Some (File mtime) ->
     kept name mtime ->
     lookup_path (Dir (_cleanup_once hls)) (path ++ [name]) = Some (File mtime)) /\
  (forall root es,
     sweep root (Dir es) = None ->
     root <> HLS_DIRECTORY /\
     forall name child, (name, child) ∈ es ->
       match child with
       | File mtime => endswith name _SEGMENT_EXT = true /\ age_seconds < now - mtime
       | Dir _ => sweep (join root name) child = None
       end) /\
  sweep HLS_DIRECTORY (Dir hls) = Some (Dir (_cleanup_once hls)).
Proof.
  assert (Hroot : sweep HLS_DIRECTORY (Dir hls) = Some (Dir (_cleanup_once hls))).
  { unfold _cleanup_once. by rewrite sweep_Dir. }
  split; [|split; [apply removed_only_if_emptied|done]].
  intros path name mtime Hl Hk.
  destruct (file_survives path (Dir hls) HLS_DIRECTORY name mtime Hl Hk) as (es' & Hs & Hl').
  rewrite Hroot in Hs. by injection Hs as <-.
Qed.

End Sweep.

(** Scenario: [a/seg_000.ts] is 700 s old, [a/seg_001.ts] 100 s,
    [a/stream.m3u8] 900 s; a second directory holds one stale segment only. *)
Definition ex_hls (now : Z) : list (string * Node) :=
  [("a"%string, Dir [("seg_000.ts"%string, File (now - 700));
                     ("seg_001.ts"%string, File (now - 100));
                     ("stream.m3u8"%string, File (now - 900))]);
   ("b"%string, Dir [("seg_000.ts"%string, File (now - 700))])].

Example sweep_scenario :
  _cleanup_once (fun _ => false) (fun _ => false) 600 100000 (ex_hls 100000) =
  [("a"%string, Dir [("seg_001.ts"%string, File 99900);
                     ("stream.m3u8"%string, File 99100)])].
Proof. reflexivity. Qed.

(** *** What a pass does remove *)

(** Induction over a tree together with the trees in its listing. *)
Fixpoint Node_tree_ind (P : Node -> Prop)
    (HFile : forall mtime, P (File mtime))
    (HDir : forall es, Forall (fun e : string * Node => P e.2) es -> P (Dir es))
    (n : Node) : P n :=
  match n with
  | File mtime => HFile mtime
  | Dir es =>
      HDir es
        ((fix go (es : list (string * Node)) : Forall (fun e : string * Node => P e.2) es :=
            match es with
            | [] => @List.Forall_nil _ _
            | e :: rest =>
                @List.Forall_cons _ _ e rest
                  (match e as e0 return P e0.2 with
                   | (_, child) => Node_tree_ind P HFile HDir child
                   end)
                  (go rest)
            end) es)
  end.

(** In a directory of a file system no two entries share a name. *)
Fixpoint unique_names (n : Node) : bool :=
  match n with
  | File _ => true
  | Dir es =>
      bool_decide (NoDup es.*1) &&
      forallb (fun e : string * Node => unique_names e.2) es
  end.

(** The path [os.walk] reports for a directory reached along [path]. *)
Definition walk_root (root : string) (path : list string) : string := foldl join root path.

Lemma entry_Some_elem name es child : entry name es = Some child -> (name, child) ∈ es.
Proof.
  induction es as [|[n c] es IH]; [done|]. cbn [entry].
  destruct (String.eqb_spec n name) as [->|Hn].
  - intros [= ->]. apply list_elem_of_here.
  - intros H. apply list_elem_of_further. by apply IH.
Qed.

Lemma entry_None_elem name es child : entry name es = None -> (name, child) ∉ es.
Proof.
  induction es as [|[n c] es IH]; [intros _; apply not_elem_of_nil|]. cbn [entry].
  destruct (String.eqb_spec n name) as [->|Hn]; [done|].
  intros H Hin. apply elem_of_cons in Hin as [Heq|Hin]; [by simplify_eq|].
  by apply IH.
Qed.

Lemma entry_unique name es child child' :
  NoDup es.*1 -> entry name es = Some child -> (name, child') ∈ es -> child' = child.
Proof.
  induction es as [|[n c] es IH]; [done|]. cbn [entry fmap list_fmap fst].
  intros Hnd. apply NoDup_cons in Hnd as [Hn Hnd].
  destruct (String.eqb_spec n name) as [->|Hne].
  - intros [= ->] Hin. apply elem_of_cons in Hin as [Heq|Hin]; [by simplify_eq|].
    exfalso. apply Hn. apply list_elem_of_fmap. by exists (name, child').
  - intros He Hin. apply elem_of_cons in Hin as [Heq|Hin]; [by simplify_eq|].
    by apply IH.
Qed.

Lemma unique_names_Dir es :
  unique_names (Dir es) = true ->
  NoDup es.*1 /\ forall name child, (name, child) ∈ es -> unique_names child = true.
Proof.
  cbn [unique_names]. intros H. apply andb_true_iff in H as [Hnd Hall].
  apply bool_decide_eq_true in Hnd. split; [done|].
  intros name child Hin. rewrite forallb_forall in Hall.
  apply (Hall (name, child)). by apply list_elem_of_In.
Qed.

Section Liveness.

Variable remove_fails : string -> bool.
Variable rmtree_fails : string -> bool.
Variable age_seconds : Z.
Variable now : Z.

#[local] Abbreviation sweep_ := (sweep remove_fails rmtree_fails age_seconds now).
#[local] Abbreviation below_ := (below remove_fails rmtree_fails age_seconds now).
#[local] Abbreviation remaining_ := (remaining remove_fails rmtree_fails age_seconds now).
#[local] Abbreviation deleted_ := (deleted remove_fails age_seconds now).
#[local] Abbreviation _cleanup_once_ := (_cleanup_once remove_fails rmtree_fails age_seconds now).

Lemma elem_of_below root es name child' :
  (name, child') ∈ below_ root es <->
  exists child, (name, child) ∈ es /\
    match child with
    | File _ => child' = child
    | Dir _ => sweep_ (join root name) child = Some child'
    end.
Proof.
  unfold below. rewrite list_elem_of_omap. split.
  - intros ([n c] & Hin & Hf). cbn [fst snd] in Hf. destruct c as [m|sub].
    + simplify_eq. by exists (File m).
    + destruct (sweep remove_fails rmtree_fails age_seconds now (join root n) (Dir sub))
        as [c'|] eqn:Hs; [|done].
      simplify_eq. by exists (Dir sub).
  - intros (child & Hin & Hc). exists (name, child). split; [done|]. cbn [fst snd].
    destruct child as [m|sub]; [by subst|]. by rewrite Hc.
Qed.

Lemma elem_of_remaining root es e :
  e ∈ remaining_ root es <-> e ∈ below_ root es /\ deleted_ root e = false.
Proof.
  unfold remaining. rewrite list_elem_of_filter.
  destruct (deleted remove_fails age_seconds now root e); cbn [negb]; naive_solver.
Qed.

Lemma sweep_Some_remaining root es n' :
  sweep_ root (Dir es) = Some n' -> n' = Dir (remaining_ root es).
Proof.
  rewrite sweep_Dir. destruct (String.eqb root HLS_DIRECTORY); [by intros [= <-]|].
  destruct (remaining _ _ _ _ root es); [destruct (rmtree_fails root)|]; by intros [= <-].
Qed.

Lemma stale_segment_gone path :
  forall n root name mtime n',
    unique_names n = true ->
    lookup_path n (path ++ [name]) = Some (File mtime) ->
    endswith name _SEGMENT_EXT = true -> age_seconds < now - mtime ->
    remove_fails (join (walk_root root path) name) = false ->
    sweep_ root n = Some n' ->
    lookup_path n' (path ++ [name]) = None.
Proof.
  induction path as [|d rest IH]; intros n root name mtime n' Hu Hl Hext Hage Hrm Hs.
  - cbn [app lookup_path] in *. destruct n as [m|es]; [done|].
    destruct (entry name es) as [child|] eqn:He; [|done]. injection Hl as ->.
    apply sweep_Some_remaining in Hs as ->.
    destruct (unique_names_Dir es Hu) as [Hnd _].
    destruct (entry name (remaining_ root es)) as [c'|] eqn:Hr; [|done].
    exfalso. apply entry_Some_elem, elem_of_remaining in Hr as [Hb Hd].
    apply elem_of_below in Hb as (child & Hin & Hc).
    rewrite (entry_unique name es (File mtime) child Hnd He Hin) in Hc. subst c'.
    cbn [deleted walk_root foldl] in *. rewrite Hext, Hrm in Hd.
    apply Z.ltb_lt in Hage. by rewrite Hage in Hd.
  - cbn [app lookup_path] in Hl. change ((d :: rest) ++ [name]) with (d :: (rest ++ [name])).
    destruct n as [m|es]; [done|].
    destruct (entry d es) as [child|] eqn:He; [|done].
    apply sweep_Some_remaining in Hs as ->. cbn [lookup_path].
    destruct (unique_names_Dir es Hu) as [Hnd Hall].
    destruct (entry d (remaining_ root es)) as [c'|] eqn:Hr; [|done].
    apply entry_Some_elem, elem_of_remaining in Hr as [Hb Hd].
    apply elem_of_below in Hb as (child0 & Hin & Hc).
    assert (child0 = child) as -> by (eapply entry_unique; eauto).
    destruct child as [m|sub]; [by destruct rest|].
    eapply (IH (Dir sub) (join root d)); eauto.
Qed.

(** X9. A stale segment is removed.  In a tree where no directory lists a
    name twice, a file whose name ends in [.ts], whose modification time lies
    more than [age_seconds] back and whose removal does not fail is, after
    the pass, no longer to be found at its path. *)
Theorem stale_segments_are_removed (hls : list (string * Node)) path name mtime :
  unique_names (Dir hls) = true ->
  lookup_path (Dir hls) (path ++ [name]) = Some (File mtime) ->
  endswith name _SEGMENT_EXT = true -> age_seconds < now - mtime ->
  remove_fails (join (walk_root HLS_DIRECTORY path) name) = false ->
  lookup_path (Dir (_cleanup_once_ hls)) (path ++ [name]) = None.
Proof.
  intros Hu Hl Hext Hage Hrm.
  eapply (stale_segment_gone path (Dir hls) HLS_DIRECTORY); eauto.
Qed.

(** X10. A directory the pass empties goes in the same pass.  A directory
    other than the HLS root, holding nothing but segments that the pass
    deletes and subdirectories that the pass removes, is removed itself,
    unless [shutil.rmtree] fails on it. *)
Theorem emptied_directory_is_removed root es :
  root <> HLS_DIRECTORY -> rmtree_fails root = false ->
  (forall name child, (name, child) ∈ es ->
     match child with
     | File mtime =>
         endswith name _SEGMENT_EXT = true /\ age_seconds < now - mtime /\
         remove_fails (join root name) = false
     | Dir _ => sweep_ (join root name) child = None
     end) ->
  sweep_ root (Dir es) = None.
Proof.
  intros Hroot Hrm Hall. rewrite sweep_Dir.
  apply String.eqb_neq in Hroot. rewrite Hroot.
  assert (Hrem : remaining_ root es = []).
  { apply elem_of_nil_inv. intros [name c'] Hin.
    apply elem_of_remaining in Hin as [Hb Hd].
    apply elem_of_below in Hb as (child & Hin & Hc).
    specialize (Hall name child Hin). destruct child as [m|sub].
    - subst c'. destruct Hall as (Hext & Hage & Hr). cbn [deleted] in Hd.
      apply Z.ltb_lt in Hage. by rewrite Hext, Hage, Hr in Hd.
    - congruence. }
  by rewrite Hrem, Hrm.
Qed.

Lemma omap_fixed {A} (f : A -> option A) (l : list A) :
  (forall x, x ∈ l -> f x = Some x) -> omap f l = l.
Proof.
  induction l as [|x l IH]; intros H; [done|]. cbn [omap list_omap].
  rewrite (H x) by apply list_elem_of_here. f_equal. apply IH.
  intros y Hy. apply H. by apply list_elem_of_further.
Qed.

Lemma filter_fixed {A} (p : A -> bool) (l : list A) :
  (forall x, x ∈ l -> p x = true) -> filter (fun x => p x) l = l.
Proof.
  induction l as [|x l IH]; intros H; [done|].
  rewrite filter_cons_True by (rewrite (H x); [done|apply list_elem_of_here]).
  f_equal. apply IH. intros y Hy. apply H. by apply list_elem_of_further.
Qed.

Lemma sweep_fixed n :
  forall root n', sweep_ root n = Some n' -> sweep_ root n' = Some n'.
Proof.
  induction n as [mtime|es IH] using Node_tree_ind; intros root n' Hs.
  - cbn [sweep] in Hs. by injection Hs as <-.
  - pose proof (sweep_Some_remaining root es n' Hs) as ->.
    rewrite Forall_forall in IH.
    assert (Hfix : remaining_ root (remaining_ root es) = remaining_ root es).
    { assert (Hb : below_ root (remaining_ root es) = remaining_ root es).
      { unfold below at 1. apply omap_fixed. intros [name c'] Hin.
        apply elem_of_remaining in Hin as [Hin _].
        apply elem_of_below in Hin as (child & Hin & Hc). cbn [fst snd].
        destruct child as [m|sub]; [by subst|].
        destruct (sweep_Dir_is_Dir _ _ _ _ _ _ _ Hc) as [es' ->].
        by rewrite (IH (name, Dir sub) Hin (join root name) (Dir es') Hc). }
      unfold remaining at 1. rewrite Hb. apply filter_fixed.
      intros e He. apply elem_of_remaining in He as [_ Hd]. by rewrite Hd. }
    rewrite sweep_Dir in Hs |- *. rewrite Hfix.
    destruct (String.eqb root HLS_DIRECTORY); [done|].
    destruct (remaining _ _ _ _ root es); [|done].
    by destruct (rmtree_fails root).
Qed.

(** X11. One pass leaves nothing for a second one.  Run again at the same
    time, with removals failing where they failed before, the pass returns
    the tree it is given: every segment that could be deleted has been, and
    every directory that this emptied has been removed, children before
    parents. *)
Theorem second_pass_changes_nothing (hls : list (string * Node)) :
  _cleanup_once_ (_cleanup_once_ hls) = _cleanup_once_ hls /\
  forall root n n', sweep_ root n = Some n' -> sweep_ root n' = Some n'.
Proof.
  split; [|intros root n n'; apply sweep_fixed].
  assert (Hs : sweep_ HLS_DIRECTORY (Dir hls) = Some (Dir (_cleanup_once_ hls))).
  { unfold _cleanup_once. by rewrite sweep_Dir. }
  apply sweep_fixed in Hs. unfold _cleanup_once at 1. by rewrite Hs.
Qed.

End Liveness.

Lemma stale_segments_are_removed_witness :
  lookup_path
    (Dir (_cleanup_once (fun _ => false) (fun _ => false) 600 100000 (ex_hls 100000)))
    (["a"%string] ++ ["seg_000.ts"%string]) = None.
Proof.
  apply (stale_segments_are_removed (fun _ => false) (fun _ => false) 600 100000
           (ex_hls 100000) ["a"%string] "seg_000.ts" 99300).
  - reflexivity.
  - reflexivity.
  - reflexivity.
  - lia.
  - reflexivity.
Defined.

Lemma emptied_directory_is_removed_witness :
  sweep (fun _ => false) (fun _ => false) 600 100000 "hls/b"
    (Dir [("seg_000.ts"%string, File 99300)]) = None.
Proof.
  apply (emptied_directory_is_removed (fun _ => false) (fun _ => false) 600 100000).
  - discriminate.
  - reflexivity.
  - intros name child Hin. apply list_elem_of_singleton in Hin. injection Hin as -> ->.
    split; [reflexivity|]. split; [lia|reflexivity].
Defined.

End HlsCleanup.

(** ** [app/core/file_lock_manager.py] *)

Module FileLockManager.
Import Web.

Record LockData := {
  ld_track_id : string;
  ld_user_id : string;
  ld_operation : string;
  ld_created_at : Z;
  ld_expires_at : Z;
  ld_process_id : string
}.

(** The three module-level dictionaries and the manager's [last_cleanup].
    An [asyncio.Lock] is its locked flag. *)
Record State := {
  _processing_locks : gmap string LockData;
  _file_locks : gmap string bool;
  _user_processing : gmap string (gset string);
  last_cleanup : Z
}.

Definition max_concurrent_per_user : Z := 3.
Definition lock_timeout_minutes : Z := 30.
Definition cleanup_interval : Z := 300.

Definition lock_key_of (track_id operation : string) : string :=
  (track_id ++ ":" ++ operation)%string.

(** The names [HTTPException] and [status] are local to
    [acquire_processing_lock]: the only statement that binds them is the
    [from fastapi import HTTPException, status] inside the branch taken when
    the user is at the concurrency limit, and the module imports neither.
    [raise_http bound code detail] is the exception that
    [raise HTTPException(status_code=code, detail=detail)] ends with, given
    whether that import has run. *)
Definition raise_http (fastapi_bound : bool) (status_code : Z) (detail : string) : exn :=
  if fastapi_bound then HTTPException status_code detail
  else UnboundLocalError "HTTPException".

Section Manager.

Variable SECRET_KEY : string.
Variable sha256_hexdigest : string -> string.
Variable repr_time : Z -> string.

Definition _generate_process_id (track_id user_id operation : string) (now : Z) : string :=
  String.substring 0 16
    (sha256_hexdigest
       (track_id ++ ":" ++ user_id ++ ":" ++ operation ++ ":" ++ repr_time now ++ ":"
        ++ SECRET_KEY)%string).

Definition _is_lock_expired (lock_data : LockData) (now : Z) : bool :=
  ld_expires_at lock_data <? now.

Definition _release_processing_lock (st : State) (lock_key : string) : State :=
  match _processing_locks st !! lock_key with
  | None => st
  | Some lock_data =>
      let user_id := ld_user_id lock_data in
      let track_id := ld_track_id lock_data in
      let user_processing :=
        match _user_processing st !! user_id with
        | None => _user_processing st
        | Some tracks =>
            let tracks' := tracks ∖ {[track_id]} in
            if decide (tracks' = ∅) then delete user_id (_user_processing st)
            else <[user_id := tracks']> (_user_processing st)
        end in
      {| _processing_locks := delete lock_key (_processing_locks st);
         _file_locks := _file_locks st;
         _user_processing := user_processing;
         last_cleanup := last_cleanup st |}
  end.

Definition _get_user_processing_count (st : State) (user_id : string) : Z :=
  Z.of_nat (size (default ∅ (_user_processing st !! user_id))).

Definition _cleanup_expired_locks (st : State) (now : Z) : State :=
  if now - last_cleanup st <? cleanup_interval then st
  else
    let expired_locks :=
      (map_to_list (filter (fun kv => _is_lock_expired kv.2 now = true)
                           (_processing_locks st))).*1 in
    let st' := foldl _release_processing_lock st expired_locks in
    {| _processing_locks := _processing_locks st';
       _file_locks := _file_locks st';
       _user_processing := _user_processing st';
       last_cleanup := now |}.

(** From the file-level lock to the [yield], for a call during whose
    [await] no other task changes the state: the track's lock is created if
    it is missing; if it is free it is taken, the processing lock is recorded
    and handed out; if it is held, it is still held when [asyncio.wait_for]
    gives up: the handler raises, and the [finally] clause releases the lock
    it finds locked.  What happens when other tasks run during the [await]
    is [before_wait], [granted] and [timed_out] below. *)
Definition enter (fastapi_bound : bool) (st : State)
    (track_id user_id operation : string) (now : Z) : (exn + LockData) * State :=
  let lock_key := lock_key_of track_id operation in
  let file_locks :=
    match _file_locks st !! track_id with
    | None => <[track_id := false]> (_file_locks st)
    | Some _ => _file_locks st
    end in
  if default false (file_locks !! track_id) then
    (inl (raise_http fastapi_bound HTTP_408_REQUEST_TIMEOUT
            "Processing timeout - please try again later"),
     {| _processing_locks := _processing_locks st;
        _file_locks := <[track_id := false]> file_locks;
        _user_processing := _user_processing st;
        last_cleanup := last_cleanup st |})
  else
    let lock_data :=
      {| ld_track_id := track_id; ld_user_id := user_id; ld_operation := operation;
         ld_created_at := now; ld_expires_at := now + lock_timeout_minutes * 60;
         ld_process_id := _generate_process_id track_id user_id operation now |} in
    (inr lock_data,
     {| _processing_locks := <[lock_key := lock_data]> (_processing_locks st);
        _file_locks := <[track_id := true]> file_locks;
        _user_processing :=
          <[user_id := default ∅ (_user_processing st !! user_id) ∪ {[track_id]}]>
            (_user_processing st);
        last_cleanup := last_cleanup st |}).

(** [acquire_processing_lock] up to its [yield]. *)
Definition acquire_processing_lock (st : State)
    (track_id user_id operation : string) (now : Z) : (exn + LockData) * State :=
  let lock_key := lock_key_of track_id operation in
  let st := _cleanup_expired_locks st now in
  if max_concurrent_per_user <=? _get_user_processing_count st user_id then
    let fastapi_bound := true in
    (inl (raise_http fastapi_bound HTTP_429_TOO_MANY_REQUESTS
            "Too many concurrent processing operations. Limit: 3"), st)
  else
    let fastapi_bound := false in
    match _processing_locks st !! lock_key with
    | Some existing_lock =>
        if String.eqb (ld_user_id existing_lock) user_id then
          (inl (raise_http fastapi_bound HTTP_409_CONFLICT
                  "Track is already being processed by you"), st)
        else if _is_lock_expired existing_lock now then
          enter fastapi_bound (_release_processing_lock st lock_key)
            track_id user_id operation now
        else
          (inl (raise_http fastapi_bound HTTP_409_CONFLICT
                  "Track is currently being processed by another operation"), st)
    | None => enter fastapi_bound st track_id user_id operation now
    end.

(** What runs when the guarded block is left: the two [finally] clauses. *)
Definition leave (st : State) (track_id operation : string) : State :=
  let st' := _release_processing_lock st (lock_key_of track_id operation) in
  match _file_locks st' !! track_id with
  | Some true =>
      {| _processing_locks := _processing_locks st';
         _file_locks := <[track_id := false]> (_file_locks st');
         _user_processing := _user_processing st';
         last_cleanup := last_cleanup st' |}
  | _ => st'
  end.

(** *** The call around its [await]

    [await asyncio.wait_for(file_lock.acquire(), timeout=max_wait_seconds)]
    is the one point at which other tasks run.  [before_wait] is the call up
    to it, [granted] what follows it when the lock is obtained, then or
    later, and [timed_out] what follows it otherwise; both start from the
    state the other tasks have left. *)

(** Lines 50 to 88: the sweep, the limit, the record of the key, the
    creation of the track's file lock. *)
Definition before_wait (st : State) (track_id user_id operation : string) (now : Z)
  : (exn + unit) * State :=
  let lock_key := lock_key_of track_id operation in
  let st := _cleanup_expired_locks st now in
  let with_file_lock (st : State) : State :=
    {| _processing_locks := _processing_locks st;
       _file_locks :=
         match _file_locks st !! track_id with
         | None => <[track_id := false]> (_file_locks st)
         | Some _ => _file_locks st
         end;
       _user_processing := _user_processing st;
       last_cleanup := last_cleanup st |} in
  if max_concurrent_per_user <=? _get_user_processing_count st user_id then
    (inl (raise_http true HTTP_429_TOO_MANY_REQUESTS
            "Too many concurrent processing operations. Limit: 3"), st)
  else
    match _processing_locks st !! lock_key with
    | Some existing_lock =>
        if String.eqb (ld_user_id existing_lock) user_id then
          (inl (raise_http false HTTP_409_CONFLICT
                  "Track is already being processed by you"), st)
        else if _is_lock_expired existing_lock now then
          (inr tt, with_file_lock (_release_processing_lock st lock_key))
        else
          (inl (raise_http false HTTP_409_CONFLICT
                  "Track is currently being processed by another operation"), st)
    | None => (inr tt, with_file_lock st)
    end.

(** Lines 94 to 114, once the file lock is obtained, at the time it is:
    none of the tests made before the wait is made again. *)
Definition granted (st : State) (track_id user_id operation : string) (now : Z)
  : LockData * State :=
  let lock_data :=
    {| ld_track_id := track_id; ld_user_id := user_id; ld_operation := operation;
       ld_created_at := now; ld_expires_at := now + lock_timeout_minutes * 60;
       ld_process_id := _generate_process_id track_id user_id operation now |} in
  (lock_data,
   {| _processing_locks :=
        <[lock_key_of track_id operation := lock_data]> (_processing_locks st);
      _file_locks := <[track_id := true]> (_file_locks st);
      _user_processing :=
        <[user_id := default ∅ (_user_processing st !! user_id) ∪ {[track_id]}]>
          (_user_processing st);
      last_cleanup := last_cleanup st |}).

(** Lines 119 to 128, when the wait times out: the handler's [raise], with
    [HTTPException] unbound, and the [finally] clause. *)
Definition timed_out (st : State) (track_id : string) : exn * State :=
  (raise_http false HTTP_408_REQUEST_TIMEOUT "Processing timeout - please try again later",
   match _file_locks st !! track_id with
   | Some true =>
       {| _processing_locks := _processing_locks st;
          _file_locks := <[track_id := false]> (_file_locks st);
          _user_processing := _user_processing st;
          last_cleanup := last_cleanup st |}
   | _ => st
   end).

(** [acquire_processing_lock] is the call whose wait ends in the state in
    which it began. *)
Lemma acquire_uninterrupted st track_id user_id operation now :
  acquire_processing_lock st track_id user_id operation now =
  match before_wait st track_id user_id operation now with
  | (inl e, st1) => (inl e, st1)
  | (inr _, st1) =>
      if default false (_file_locks st1 !! track_id)
      then (inl (timed_out st1 track_id).1, (timed_out st1 track_id).2)
      else (inr (granted st1 track_id user_id operation now).1,
            (granted st1 track_id user_id operation now).2)
  end.
Proof.
  unfold acquire_processing_lock, before_wait.
  set (st1 := _cleanup_expired_locks st now).
  destruct (max_concurrent_per_user <=? _); [done|].
  assert (Henter : forall st0,
    enter false st0 track_id user_id operation now =
    let st2 :=
      {| _processing_locks := _processing_locks st0;
         _file_locks :=
           match _file_locks st0 !! track_id with
           | None => <[track_id := false]> (_file_locks st0)
           | Some _ => _file_locks st0
           end;
         _user_processing := _user_processing st0;
         last_cleanup := last_cleanup st0 |} in
    if default false (_file_locks st2 !! track_id)
    then (inl (timed_out st2 track_id).1, (timed_out st2 track_id).2)
    else (inr (granted st2 track_id user_id operation now).1,
          (granted st2 track_id user_id operation now).2)).
  { intros st0. unfold enter, timed_out, granted. cbn [fst snd _file_locks].
    destruct (_file_locks st0 !! track_id) as [[|]|] eqn:Hfl;
      rewrite ?Hfl, ?lookup_insert_eq; cbn [default from_option id]; done. }
  destruct (_processing_locks st1 !! _) as [existing|]; [|apply Henter].
  destruct (String.eqb _ _); [done|].
  destruct (_is_lock_expired _ _); [apply Henter|done].
Qed.

(** The user is at the limit: 429, and nothing else happens. *)
Lemma acquire_at_limit st track_id user_id operation now :
  let st1 := _cleanup_expired_locks st now in
  3 <= _get_user_processing_count st1 user_id ->
  acquire_processing_lock st track_id user_id operation now =
  (inl (HTTPException 429 "Too many concurrent processing operations. Limit: 3"), st1).
Proof.
  intros st1 H. unfold acquire_processing_lock. fold st1.
  unfold max_concurrent_per_user.
  destruct (Z.leb_spec 3 (_get_user_processing_count st1 user_id)); [done|lia].
Qed.

(** An expired record of another user is removed and acquisition goes on. *)
Lemma acquire_reclaims_expired st track_id user_id operation now existing :
  let st1 := _cleanup_expired_locks st now in
  let lock_key := lock_key_of track_id operation in
  _get_user_processing_count st1 user_id < 3 ->
  _processing_locks st1 !! lock_key = Some existing ->
  ld_user_id existing <> user_id ->
  ld_expires_at existing < now ->
  _processing_locks (_release_processing_lock st1 lock_key) !! lock_key = None /\
  acquire_processing_lock st track_id user_id operation now =
  enter false (_release_processing_lock st1 lock_key) track_id user_id operation now.
Proof.
  intros st1 lock_key Hcount Hlock Huser Hexp. split.
  - unfold _release_processing_lock. rewrite Hlock. cbn [_processing_locks].
    apply lookup_delete_eq.
  - unfold acquire_processing_lock. fold st1. fold lock_key. unfold max_concurrent_per_user.
    destruct (Z.leb_spec 3 (_get_user_processing_count st1 user_id)); [lia|].
    rewrite Hlock.
    destruct (String.eqb_spec (ld_user_id existing) user_id); [done|].
    unfold _is_lock_expired.
    destruct (Z.ltb_spec (ld_expires_at existing) now); [done|lia].
Qed.

(** C5, on the two conflict outcomes.  Below the concurrency limit, when a
    record exists for the key and is held by the same user, or by another
    user and not expired, the attempt does not end with 409 Conflict: the
    [raise HTTPException(...)] it reaches finds the name unbound, so the
    exception is [UnboundLocalError], which the error handler answers with
    500.  The state is left as the lazy sweep left it. *)
Theorem conflict_raises_unbound_local st track_id user_id operation now existing :
  let st1 := _cleanup_expired_locks st now in
  _get_user_processing_count st1 user_id < 3 ->
  _processing_locks st1 !! lock_key_of track_id operation = Some existing ->
  ld_user_id existing = user_id \/ now <= ld_expires_at existing ->
  acquire_processing_lock st track_id user_id operation now =
    (inl (UnboundLocalError "HTTPException"), st1) /\
  response_status (UnboundLocalError "HTTPException") = 500 /\
  forall detail,
    fst (acquire_processing_lock st track_id user_id operation now)
    <> inl (HTTPException 409 detail).
Proof.
  intros st1 Hcount Hlock Hcase.
  assert (Hres : acquire_processing_lock st track_id user_id operation now =
                 (inl (UnboundLocalError "HTTPException"), st1)).
  { unfold acquire_processing_lock. fold st1. unfold max_concurrent_per_user.
    destruct (Z.leb_spec 3 (_get_user_processing_count st1 user_id)); [lia|].
    rewrite Hlock.
    destruct (String.eqb_spec (ld_user_id existing) user_id); [done|].
    unfold _is_lock_expired.
    destruct (Z.ltb_spec (ld_expires_at existing) now); [|done].
    destruct Hcase; [done|lia]. }
  split; [done|]. split; [done|]. intros detail. by rewrite Hres.
Qed.

End Manager.

(** A run: alice takes the lock on (T1, processing); then alice again, and
    bob, ask for the same key. *)
Definition ex_acquire : State -> string -> string -> string -> Z -> (exn + LockData) * State :=
  acquire_processing_lock "secret" (fun s => s) (fun _ => "t"%string).

Definition ex_empty : State :=
  {| _processing_locks := ∅; _file_locks := ∅; _user_processing := ∅; last_cleanup := 0 |}.

Definition ex_held : State := snd (ex_acquire ex_empty "T1" "alice" "processing" 10).

Lemma conflict_raises_unbound_local_witness :
  ex_acquire ex_held "T1" "alice" "processing" 20 =
    (inl (UnboundLocalError "HTTPException"),
     _cleanup_expired_locks ex_held 20) /\
  response_status (UnboundLocalError "HTTPException") = 500 /\
  forall detail,
    fst (ex_acquire ex_held "T1" "alice" "processing" 20)
    <> inl (HTTPException 409 detail).
Proof.
  apply (conflict_raises_unbound_local "secret" (fun s => s) (fun _ => "t"%string)
           ex_held "T1" "alice" "processing" 20
           {| ld_track_id := "T1"; ld_user_id := "alice"; ld_operation := "processing";
              ld_created_at := 10; ld_expires_at := 1810;
              ld_process_id := "T1:alice:process" |}).
  - vm_compute. reflexivity.
  - vm_compute. reflexivity.
  - by left.
Defined.

Example first_acquire_succeeds :
  exists lock_data, fst (ex_acquire ex_empty "T1" "alice" "processing" 10) = inr lock_data.
Proof. eexists. vm_compute. reflexivity. Qed.

Example other_user_conflict :
  fst (ex_acquire ex_held "T1" "bob" "processing" 20) = inl (UnboundLocalError "HTTPException").
Proof. vm_compute. reflexivity. Qed.

(** Scenario: three locks held, a fourth is refused with 429; after one is
    released the fourth is granted. *)
Definition ex_three : State :=
  snd (ex_acquire (snd (ex_acquire ex_held "T2" "alice" "processing" 11))
         "T3" "alice" "processing" 12).

Example fourth_lock_refused :
  fst (ex_acquire ex_three "T4" "alice" "processing" 13) =
    inl (HTTPException 429 "Too many concurrent processing operations. Limit: 3") /\
  exists lock_data,
    fst (ex_acquire (leave ex_three "T1" "processing") "T4" "alice" "processing" 14)
    = inr lock_data.
Proof. split; [|eexists]; vm_compute; reflexivity. Qed.

(** *** Releasing, sweeping and the per-user count *)

(** [force_release_user_locks] *)
Definition force_release_user_locks (st : State) (user_id : string) : State :=
  foldl (fun st '(lock_key, lock_data) =>
           if String.eqb (ld_user_id lock_data) user_id
           then _release_processing_lock st lock_key else st)
        st (map_to_list (_processing_locks st)).

(** [get_user_processing_tracks] *)
Definition get_user_processing_tracks (st : State) (user_id : string) : gset string :=
  default ∅ (_user_processing st !! user_id).

Lemma release_locks st lock_key :
  _processing_locks (_release_processing_lock st lock_key) =
  delete lock_key (_processing_locks st).
Proof.
  unfold _release_processing_lock.
  destruct (_processing_locks st !! lock_key) eqn:E; [done|].
  symmetry. by apply delete_id.
Qed.

Lemma release_file_locks st lock_key :
  _file_locks (_release_processing_lock st lock_key) = _file_locks st /\
  last_cleanup (_release_processing_lock st lock_key) = last_cleanup st.
Proof.
  unfold _release_processing_lock. by destruct (_processing_locks st !! lock_key).
Qed.

Lemma release_each_lookup (l : list string) st k :
  _processing_locks (foldl _release_processing_lock st l) !! k =
  if decide (k ∈ l) then None else _processing_locks st !! k.
Proof.
  revert st. induction l as [|x l IH]; intros st; cbn [foldl].
  - by rewrite decide_False by set_solver.
  - rewrite IH, release_locks. destruct (decide (k ∈ l)) as [Hl|Hl].
    + by rewrite decide_True by set_solver.
    + destruct (decide (x = k)) as [->|Hne].
      * rewrite decide_True by set_solver. apply lookup_delete_eq.
      * rewrite decide_False by set_solver. by apply lookup_delete_ne.
Qed.

(** No user is counted for more than three tracks. *)
Definition within_limit (st : State) : Prop :=
  forall user_id, _get_user_processing_count st user_id <= max_concurrent_per_user.

Lemma within_limit_release st lock_key :
  within_limit st -> within_limit (_release_processing_lock st lock_key).
Proof.
  intros Hst u. unfold _release_processing_lock.
  destruct (_processing_locks st !! lock_key) as [ld|]; [|apply Hst].
  unfold _get_user_processing_count. cbn [_user_processing].
  destruct (_user_processing st !! ld_user_id ld) as [tracks|] eqn:Ht; [|apply Hst].
  pose proof (Hst (ld_user_id ld)) as Hu. unfold _get_user_processing_count in Hu.
  rewrite Ht in Hu. cbn [default from_option id] in Hu.
  destruct (decide (u = ld_user_id ld)) as [->|Hne].
  - destruct (decide _).
    + rewrite lookup_delete_eq. cbn [default from_option id]. rewrite size_empty. unfold max_concurrent_per_user. lia.
    + rewrite lookup_insert_eq. cbn [default from_option id].
      assert (size (tracks ∖ {[ld_track_id ld]}) <= size tracks)%nat
        by (apply subseteq_size; set_solver).
      unfold max_concurrent_per_user in *. lia.
  - destruct (decide _).
    + rewrite lookup_delete_ne by done. apply Hst.
    + rewrite lookup_insert_ne by done. apply Hst.
Qed.

Lemma within_limit_release_each l st :
  within_limit st -> within_limit (foldl _release_processing_lock st l).
Proof.
  revert st. induction l as [|x l IH]; intros st Hst; cbn [foldl]; [done|].
  by apply IH, within_limit_release.
Qed.

Lemma within_limit_cleanup st now :
  within_limit st -> within_limit (_cleanup_expired_locks st now).
Proof.
  intros Hst. unfold _cleanup_expired_locks.
  destruct (now - last_cleanup st <? cleanup_interval); [done|].
  cbn zeta. intros u. unfold _get_user_processing_count. cbn [_user_processing].
  by apply within_limit_release_each.
Qed.

Lemma within_limit_leave st track_id operation :
  within_limit st -> within_limit (leave st track_id operation).
Proof.
  intros Hst. unfold leave.
  pose proof (within_limit_release st (lock_key_of track_id operation) Hst) as H.
  destruct (_file_locks _ !! track_id) as [[|]|]; done.
Qed.

Lemma within_limit_force st user_id :
  within_limit st -> within_limit (force_release_user_locks st user_id).
Proof.
  unfold force_release_user_locks. generalize (map_to_list (_processing_locks st)).
  intros l. revert st. induction l as [|[k ld] l IH]; intros st Hst; cbn [foldl]; [done|].
  apply IH. destruct (String.eqb _ _); [by apply within_limit_release|done].
Qed.

(** A release never adds a track to anybody's set, and takes the released
    record's track out of its user's set. *)
Lemma release_tracks_subseteq st lock_key user_id :
  get_user_processing_tracks (_release_processing_lock st lock_key) user_id ⊆
  get_user_processing_tracks st user_id.
Proof.
  unfold _release_processing_lock, get_user_processing_tracks.
  destruct (_processing_locks st !! lock_key) as [ld|]; [|done]. cbn [_user_processing].
  destruct (_user_processing st !! ld_user_id ld) as [tracks|] eqn:Ht; [|done].
  destruct (decide (user_id = ld_user_id ld)) as [->|Hne].
  - rewrite Ht. destruct (decide _).
    + rewrite lookup_delete_eq. set_solver.
    + rewrite lookup_insert_eq. set_solver.
  - destruct (decide _).
    + by rewrite lookup_delete_ne.
    + by rewrite lookup_insert_ne.
Qed.

Lemma release_tracks_other st lock_key lock_data user_id :
  _processing_locks st !! lock_key = Some lock_data -> ld_user_id lock_data <> user_id ->
  get_user_processing_tracks (_release_processing_lock st lock_key) user_id =
  get_user_processing_tracks st user_id.
Proof.
  intros Hl Hne. unfold _release_processing_lock, get_user_processing_tracks. rewrite Hl.
  cbn [_user_processing].
  destruct (_user_processing st !! ld_user_id lock_data); [|done].
  destruct (decide _).
  - by rewrite lookup_delete_ne.
  - by rewrite lookup_insert_ne.
Qed.

Lemma release_tracks_removed st lock_key lock_data :
  _processing_locks st !! lock_key = Some lock_data ->
  ld_track_id lock_data ∉
    get_user_processing_tracks (_release_processing_lock st lock_key) (ld_user_id lock_data).
Proof.
  intros Hl. unfold _release_processing_lock, get_user_processing_tracks. rewrite Hl.
  cbn [_user_processing].
  destruct (_user_processing st !! ld_user_id lock_data) as [tracks|] eqn:Ht.
  - destruct (decide _).
    + rewrite lookup_delete_eq. set_solver.
    + rewrite lookup_insert_eq. cbn [default from_option id]. set_solver.
  - rewrite Ht. set_solver.
Qed.

Lemma release_each_tracks_subseteq (l : list string) st user_id :
  get_user_processing_tracks (foldl _release_processing_lock st l) user_id ⊆
  get_user_processing_tracks st user_id.
Proof.
  revert st. induction l as [|x l IH]; intros st; cbn [foldl]; [done|].
  etrans; [apply IH|apply release_tracks_subseteq].
Qed.

Lemma release_each_tracks_removed (l : list string) st lock_key lock_data :
  lock_key ∈ l -> _processing_locks st !! lock_key = Some lock_data ->
  ld_track_id lock_data ∉
    get_user_processing_tracks (foldl _release_processing_lock st l) (ld_user_id lock_data).
Proof.
  revert st. induction l as [|x l IH]; intros st Hin Hl; cbn [foldl]; [set_solver|].
  destruct (decide (x = lock_key)) as [->|Hne].
  - intros H. apply release_each_tracks_subseteq in H.
    by apply (release_tracks_removed st lock_key lock_data).
  - apply IH; [set_solver|]. rewrite release_locks. by rewrite lookup_delete_ne.
Qed.

Lemma release_each_file_locks (l : list string) st :
  _file_locks (foldl _release_processing_lock st l) = _file_locks st.
Proof.
  revert st. induction l as [|x l IH]; intros st; cbn [foldl]; [done|].
  rewrite IH. apply release_file_locks.
Qed.

(** X14. A sweep that is due.  It removes exactly the records whose expiry
    time has passed, takes each such record's track out of its user's set,
    adds no track to any set and notes the time; it does not touch the file
    locks, so the file lock of a track whose holder never left stays
    held. *)
Theorem sweep_releases_expired_locks st now :
  cleanup_interval <= now - last_cleanup st ->
  let st' := _cleanup_expired_locks st now in
  last_cleanup st' = now /\
  _file_locks st' = _file_locks st /\
  (forall lock_key,
     _processing_locks st' !! lock_key =
     match _processing_locks st !! lock_key with
     | Some lock_data => if ld_expires_at lock_data <? now then None else Some lock_data
     | None => None
     end) /\
  (forall lock_key lock_data,
     _processing_locks st !! lock_key = Some lock_data -> ld_expires_at lock_data < now ->
     ld_track_id lock_data ∉ get_user_processing_tracks st' (ld_user_id lock_data)) /\
  (forall user_id,
     get_user_processing_tracks st' user_id ⊆ get_user_processing_tracks st user_id).
Proof.
  intros Hdue st'. subst st'. unfold _cleanup_expired_locks.
  replace (now - last_cleanup st <? cleanup_interval) with false
    by (symmetry; apply Z.ltb_ge; lia).
  cbn zeta. cbn [last_cleanup _file_locks _processing_locks].
  set (expired := (map_to_list _).*1).
  assert (Hexp : forall k, k ∈ expired <->
            exists ld, _processing_locks st !! k = Some ld /\ ld_expires_at ld < now).
  { intros k. subst expired. rewrite list_elem_of_fmap. split.
    - intros ([k' ld] & -> & Hin). apply elem_of_map_to_list in Hin.
      apply map_lookup_filter_Some in Hin as [Hl Hp]. cbn [fst snd] in *.
      unfold _is_lock_expired in Hp. apply Z.ltb_lt in Hp. eauto.
    - intros (ld & Hl & Hlt). exists (k, ld). split; [done|].
      apply elem_of_map_to_list, map_lookup_filter_Some. split; [done|].
      cbn [snd]. unfold _is_lock_expired. by apply Z.ltb_lt. }
  split; [done|]. split; [apply release_each_file_locks|]. split; [|split].
  - intros k. rewrite release_each_lookup.
    destruct (_processing_locks st !! k) as [ld|] eqn:Hl.
    + destruct (Z.ltb_spec (ld_expires_at ld) now) as [Hlt|Hge].
      * rewrite decide_True; [done|]. apply Hexp. eauto.
      * rewrite decide_False; [done|]. rewrite Hexp. intros (ld' & ? & ?).
        simplify_eq. lia.
    + by destruct (decide _).
  - intros k ld Hl Hlt. unfold get_user_processing_tracks at 1. cbn [_user_processing].
    apply (release_each_tracks_removed expired st k ld); [|done]. apply Hexp. eauto.
  - intros u. unfold get_user_processing_tracks at 1. cbn [_user_processing].
    apply release_each_tracks_subseteq.
Qed.

(** X15. [force_release_user_locks] removes every record of the user and
    none of anybody else, takes the tracks of the removed records out of the
    user's set, and leaves the sets of other users and all file locks as they
    were. *)
Theorem force_release_removes_user_locks st user_id :
  let st' := force_release_user_locks st user_id in
  (forall lock_key,
     _processing_locks st' !! lock_key =
     match _processing_locks st !! lock_key with
     | Some lock_data =>
         if String.eqb (ld_user_id lock_data) user_id then None else Some lock_data
     | None => None
     end) /\
  (forall lock_key lock_data,
     _processing_locks st !! lock_key = Some lock_data -> ld_user_id lock_data = user_id ->
     ld_track_id lock_data ∉ get_user_processing_tracks st' user_id) /\
  (forall other, other <> user_id ->
     get_user_processing_tracks st' other = get_user_processing_tracks st other) /\
  _file_locks st' = _file_locks st.
Proof.
  intros st'. subst st'. unfold force_release_user_locks.
  set (mine := (filter (fun kv : string * LockData => String.eqb (ld_user_id kv.2) user_id)
                  (map_to_list (_processing_locks st))).*1).
  assert (Hfold : forall (l : list (string * LockData)) st0,
    foldl (fun st '(lock_key, lock_data) =>
             if String.eqb (ld_user_id lock_data) user_id
             then _release_processing_lock st lock_key else st) st0 l =
    foldl _release_processing_lock st0
      (filter (fun kv : string * LockData => String.eqb (ld_user_id kv.2) user_id) l).*1).
  { induction l as [|[k ld] l IH]; intros st0; [done|].
    cbn [foldl]. rewrite IH, filter_cons. cbn [snd].
    destruct (String.eqb (ld_user_id ld) user_id).
    - by rewrite decide_True by exact I.
    - by rewrite decide_False by (intros []). }
  rewrite Hfold. fold mine.
  assert (Hmine : forall k, k ∈ mine <->
            exists ld, _processing_locks st !! k = Some ld /\ ld_user_id ld = user_id).
  { intros k. subst mine. rewrite list_elem_of_fmap. split.
    - intros ([k' ld] & -> & Hin). apply list_elem_of_filter in Hin as [Hp Hin].
      apply elem_of_map_to_list in Hin. cbn [fst snd] in *.
      apply Is_true_true, String.eqb_eq in Hp. eauto.
    - intros (ld & Hl & Hu). exists (k, ld). split; [done|].
      apply list_elem_of_filter. split; [|by apply elem_of_map_to_list].
      cbn [snd]. by apply Is_true_true, String.eqb_eq. }
  split; [|split; [|split]].
  - intros k. rewrite release_each_lookup.
    destruct (_processing_locks st !! k) as [ld|] eqn:Hl.
    + destruct (String.eqb_spec (ld_user_id ld) user_id) as [Hu|Hu].
      * rewrite decide_True; [done|]. apply Hmine. eauto.
      * rewrite decide_False; [done|]. rewrite Hmine. intros (ld' & ? & ?). by simplify_eq.
    + by destruct (decide _).
  - intros k ld Hl Hu. rewrite <- Hu.
    apply (release_each_tracks_removed mine st k ld); [|done]. apply Hmine. eauto.
  - intros other Hne.
    assert (Hgen : forall l st0,
      (forall k, k ∈ l -> forall ld, _processing_locks st0 !! k = Some ld ->
                                     ld_user_id ld <> other) ->
      get_user_processing_tracks (foldl _release_processing_lock st0 l) other =
      get_user_processing_tracks st0 other).
    { induction l as [|x l IH]; intros st0 Hl; cbn [foldl]; [done|].
      rewrite IH.
      - destruct (_processing_locks st0 !! x) as [ld|] eqn:Hx.
        + eapply release_tracks_other; [done|]. eapply Hl; [apply list_elem_of_here|done].
        + unfold _release_processing_lock. by rewrite Hx.
      - intros k Hk ld. rewrite release_locks. intros Hld.
        apply lookup_delete_Some in Hld as [_ Hld].
        eapply Hl; [apply list_elem_of_further, Hk|done]. }
    apply Hgen. intros k Hk ld Hl. apply Hmine in Hk as (ld' & ? & ?). by simplify_eq.
  - apply release_each_file_locks.
Qed.

Section Lifecycle.

Variable SECRET_KEY : string.
Variable sha256_hexdigest : string -> string.
Variable repr_time : Z -> string.

#[local] Abbreviation acquire_ :=
  (acquire_processing_lock SECRET_KEY sha256_hexdigest repr_time).
#[local] Abbreviation enter_ := (enter SECRET_KEY sha256_hexdigest repr_time).
#[local] Abbreviation granted_ := (granted SECRET_KEY sha256_hexdigest repr_time).
#[local] Abbreviation process_id_ := (_generate_process_id SECRET_KEY sha256_hexdigest repr_time).

Lemma within_limit_enter bound st track_id user_id operation now :
  within_limit st -> _get_user_processing_count st user_id < max_concurrent_per_user ->
  within_limit (enter_ bound st track_id user_id operation now).2.
Proof.
  intros Hst Hlt. unfold enter.
  destruct (default false _); [done|]. cbn [snd].
  intros u. unfold _get_user_processing_count. cbn [_user_processing].
  destruct (decide (u = user_id)) as [->|Hne].
  - rewrite lookup_insert_eq. cbn [default from_option id].
    unfold _get_user_processing_count in Hlt.
    assert (size (default ∅ (_user_processing st !! user_id) ∪ {[track_id]}) <=
            size (default ∅ (_user_processing st !! user_id)) + 1)%nat.
    { rewrite size_union_alt.
      assert (size ({[track_id]} ∖ default ∅ (_user_processing st !! user_id)
                    : gset string) <= size ({[track_id]} : gset string))%nat
        by (apply subseteq_size; set_solver).
      rewrite size_singleton in *. lia. }
    unfold max_concurrent_per_user in *. lia.
  - rewrite lookup_insert_ne by done. apply Hst.
Qed.

Lemma release_other_user_count st lock_key lock_data user_id :
  _processing_locks st !! lock_key = Some lock_data -> ld_user_id lock_data <> user_id ->
  _get_user_processing_count (_release_processing_lock st lock_key) user_id =
  _get_user_processing_count st user_id.
Proof.
  intros Hl Hne. unfold _release_processing_lock. rewrite Hl.
  unfold _get_user_processing_count. cbn [_user_processing].
  destruct (_user_processing st !! ld_user_id lock_data); [|done].
  destruct (decide _).
  - by rewrite lookup_delete_ne.
  - by rewrite lookup_insert_ne.
Qed.

Lemma within_limit_acquire st track_id user_id operation now :
  within_limit st -> within_limit (acquire_ st track_id user_id operation now).2.
Proof.
  intros Hst. unfold acquire_processing_lock.
  pose proof (within_limit_cleanup st now Hst) as H1.
  set (st1 := _cleanup_expired_locks st now) in *.
  destruct (Z.leb_spec max_concurrent_per_user (_get_user_processing_count st1 user_id));
    [done|].
  destruct (_processing_locks st1 !! _) as [existing|] eqn:Hl.
  - destruct (String.eqb_spec (ld_user_id existing) user_id); [done|].
    destruct (_is_lock_expired existing now); [|done].
    apply within_limit_enter; [by apply within_limit_release|].
    by erewrite release_other_user_count.
  - by apply within_limit_enter.
Qed.

(** *** Calls that run while another waits *)

(** A call of [acquire_processing_lock]: its track, user and operation. *)
Record Call := { c_track_id : string; c_user_id : string; c_operation : string }.

(** The manager with the calls parked at their [await] and the calls that
    are inside their guarded block. *)
Record Tasks := { manager : State; waiting : list Call; inside : list Call }.

(** What the event loop can do next: start a call, which raises before the
    [await] or parks there; resume a parked call whose file lock is free,
    or let its wait time out; let a call leave its block. *)
Inductive step : Tasks -> Tasks -> Prop :=
| step_parked ts call now st1 :
    before_wait (manager ts) (c_track_id call) (c_user_id call) (c_operation call) now =
      (inr tt, st1) ->
    step ts {| manager := st1; waiting := waiting ts ++ [call]; inside := inside ts |}
| step_refused ts call now e st1 :
    before_wait (manager ts) (c_track_id call) (c_user_id call) (c_operation call) now =
      (inl e, st1) ->
    step ts {| manager := st1; waiting := waiting ts; inside := inside ts |}
| step_granted st before call after ins now :
    default false (_file_locks st !! c_track_id call) = false ->
    step {| manager := st; waiting := before ++ call :: after; inside := ins |}
         {| manager :=
              (granted_ st (c_track_id call) (c_user_id call) (c_operation call) now).2;
            waiting := before ++ after; inside := call :: ins |}
| step_timed_out st before call after ins :
    step {| manager := st; waiting := before ++ call :: after; inside := ins |}
         {| manager := (timed_out st (c_track_id call)).2;
            waiting := before ++ after; inside := ins |}
| step_left st ws before call after :
    step {| manager := st; waiting := ws; inside := before ++ call :: after |}
         {| manager := leave st (c_track_id call) (c_operation call);
            waiting := ws; inside := before ++ after |}.

Definition initial (t0 : Z) : State :=
  {| _processing_locks := ∅; _file_locks := ∅; _user_processing := ∅; last_cleanup := t0 |}.

Lemma granted_tracks st track_id user_id operation now other :
  get_user_processing_tracks (granted_ st track_id user_id operation now).2 other =
  if decide (other = user_id)
  then get_user_processing_tracks st user_id ∪ {[track_id]}
  else get_user_processing_tracks st other.
Proof.
  unfold granted, get_user_processing_tracks. cbn [snd _user_processing].
  destruct (decide (other = user_id)) as [->|Hne].
  - by rewrite lookup_insert_eq.
  - by rewrite lookup_insert_ne.
Qed.

(** The pieces of a run in which alice ends with four tracks: bob works on
    T3; alice takes T1 and T2 and asks for T3 under another operation, which
    parks her call; she takes T4; bob leaves, and her parked call is
    resumed. *)
Definition ex_call (track_id user_id operation : string) : Call :=
  {| c_track_id := track_id; c_user_id := user_id; c_operation := operation |}.

Definition ex_parked (st : State) (call : Call) (now : Z) : State :=
  (before_wait st (c_track_id call) (c_user_id call) (c_operation call) now).2.

Definition ex_resumed (st : State) (call : Call) (now : Z) : State :=
  (granted_ st (c_track_id call) (c_user_id call) (c_operation call) now).2.

Lemma parked_then_granted st call now ws ins :
  (before_wait st (c_track_id call) (c_user_id call) (c_operation call) now).1 = inr tt ->
  default false (_file_locks (ex_parked st call now) !! c_track_id call) = false ->
  rtc step {| manager := st; waiting := ws; inside := ins |}
           {| manager := ex_resumed (ex_parked st call now) call now;
              waiting := ws; inside := call :: ins |}.
Proof.
  intros Hok Hfree.
  apply (rtc_l _ _ {| manager := ex_parked st call now;
                      waiting := ws ++ [call]; inside := ins |}).
  - apply (step_parked {| manager := st; waiting := ws; inside := ins |} call now).
    cbn [manager]. unfold ex_parked.
    destruct (before_wait _ _ _ _ _) as [res st1]. cbn [fst snd] in *. by subst res.
  - apply rtc_once.
    pose proof (step_granted (ex_parked st call now) ws call [] ins now Hfree) as H.
    by rewrite app_nil_r in H.
Qed.

(** X13. The per-user limit is tested before the wait for the file lock
    and not after it.  An acquisition during whose wait no other task runs
    leaves every user with at most three tracks, if that held before.  But
    the lines that follow the wait add the track to the user's set whatever
    the set has become while the call was parked; so there is a run, from
    the state in which nothing is locked, of calls of one user below the
    limit at the time they are made, after which that user is recorded with
    four tracks. *)
Theorem limit_is_tested_before_the_wait_only :
  (forall st track_id user_id operation now,
     within_limit st -> within_limit (acquire_ st track_id user_id operation now).2) /\
  (forall st track_id user_id operation now,
     get_user_processing_tracks (granted_ st track_id user_id operation now).2 user_id =
     get_user_processing_tracks st user_id ∪ {[track_id]}) /\
  exists ts,
    rtc step {| manager := initial 0; waiting := []; inside := [] |} ts /\
    size (get_user_processing_tracks (manager ts) "alice") = 4%nat /\
    max_concurrent_per_user < _get_user_processing_count (manager ts) "alice".
Proof.
  split; [intros; by apply within_limit_acquire|].
  split; [intros; rewrite granted_tracks; by rewrite decide_True|].
  set (bob3 := ex_call "T3" "bob" "encryption").
  set (alice1 := ex_call "T1" "alice" "processing").
  set (alice2 := ex_call "T2" "alice" "processing").
  set (alice3 := ex_call "T3" "alice" "hls_generation").
  set (alice4 := ex_call "T4" "alice" "processing").
  set (s1 := ex_resumed (ex_parked (initial 0) bob3 1) bob3 1).
  set (s2 := ex_resumed (ex_parked s1 alice1 2) alice1 2).
  set (s3 := ex_resumed (ex_parked s2 alice2 3) alice2 3).
  set (s4 := ex_parked s3 alice3 4).
  set (s5 := ex_resumed (ex_parked s4 alice4 5) alice4 5).
  set (s6 := leave s5 "T3" "encryption").
  set (s7 := ex_resumed s6 alice3 6).
  exists {| manager := s7; waiting := []; inside := [alice3; alice4; alice2; alice1] |}.
  split; [|split; [by vm_compute|by vm_compute]].
  etrans; [apply (parked_then_granted (initial 0) bob3 1 [] []); by vm_compute|].
  etrans; [apply (parked_then_granted s1 alice1 2 [] [bob3]); by vm_compute|].
  etrans; [apply (parked_then_granted s2 alice2 3 [] [alice1; bob3]); by vm_compute|].
  apply (rtc_l _ _ {| manager := s4; waiting := [alice3];
                      inside := [alice2; alice1; bob3] |}).
  { apply (step_parked {| manager := s3; waiting := [];
                          inside := [alice2; alice1; bob3] |} alice3 4).
    cbn [manager]. subst s4. unfold ex_parked.
    assert (H : (before_wait s3 (c_track_id alice3) (c_user_id alice3)
                   (c_operation alice3) 4).1 = inr tt) by (by vm_compute).
    destruct (before_wait _ _ _ _ _) as [res st1]. cbn [fst snd] in *. by subst res. }
  etrans; [apply (parked_then_granted s4 alice4 5 [alice3] [alice2; alice1; bob3]);
           by vm_compute|].
  apply (rtc_l _ _ {| manager := s6; waiting := [alice3];
                      inside := [alice4; alice2; alice1] |}).
  { exact (step_left s5 [alice3] [alice4; alice2; alice1] bob3 []). }
  apply rtc_once.
  apply (step_granted s6 [] alice3 [] [alice4; alice2; alice1] 6). by vm_compute.
Qed.

Lemma acquire_success st track_id user_id operation now lock_data st' :
  acquire_ st track_id user_id operation now = (inr lock_data, st') ->
  exists st0,
    enter_ false st0 track_id user_id operation now = (inr lock_data, st') /\
    default false (_file_locks st0 !! track_id) = false.
Proof.
  unfold acquire_processing_lock.
  set (st1 := _cleanup_expired_locks st now).
  destruct (max_concurrent_per_user <=? _); [done|].
  assert (Hfree : forall st0,
    enter_ false st0 track_id user_id operation now = (inr lock_data, st') ->
    default false (_file_locks st0 !! track_id) = false).
  { intros st0. unfold enter.
    destruct (_file_locks st0 !! track_id) as [b|] eqn:Hb.
    - rewrite Hb. cbn [default from_option id]. by destruct b.
    - done. }
  destruct (_processing_locks st1 !! _) as [existing|].
  - destruct (String.eqb _ _); [done|].
    destruct (_is_lock_expired _ _); [|done]. eauto.
  - eauto.
Qed.

(** X12. From acquisition to release.  When [acquire_processing_lock]
    hands out a lock, the record it returns is stored under the key of the
    track and operation, created now and expiring thirty minutes later, the
    track's file lock is held and the track is in the user's set.  Leaving
    the guarded block removes that record and no other, frees the file lock
    and takes the track out of the user's set; leaving a second time changes
    nothing. *)
Theorem acquire_then_leave st track_id user_id operation now lock_data st' :
  acquire_ st track_id user_id operation now = (inr lock_data, st') ->
  let lock_key := lock_key_of track_id operation in
  let st'' := leave st' track_id operation in
  (lock_data =
     {| ld_track_id := track_id; ld_user_id := user_id; ld_operation := operation;
        ld_created_at := now; ld_expires_at := now + 1800;
        ld_process_id := process_id_ track_id user_id operation now |} /\
   _processing_locks st' !! lock_key = Some lock_data /\
   _file_locks st' !! track_id = Some true /\
   track_id ∈ get_user_processing_tracks st' user_id) /\
  (_processing_locks st'' !! lock_key = None /\
   _file_locks st'' !! track_id = Some false /\
   (track_id ∉ get_user_processing_tracks st'' user_id) /\
   (forall k, k <> lock_key -> _processing_locks st'' !! k = _processing_locks st' !! k) /\
   leave st'' track_id operation = st'').
Proof.
  intros Hacq lock_key st''.
  apply acquire_success in Hacq as (st0 & Henter & Hfree).
  unfold enter in Henter. fold lock_key in Henter.
  set (file_locks := match _file_locks st0 !! track_id with
                     | Some _ => _file_locks st0
                     | None => <[track_id:=false]> (_file_locks st0)
                     end) in Henter.
  assert (Hfl : default false (file_locks !! track_id) = false).
  { subst file_locks. destruct (_file_locks st0 !! track_id) eqn:E; [by rewrite E in *|].
    by rewrite lookup_insert_eq. }
  rewrite Hfl in Henter. injection Henter as <- <-.
  split.
  { cbn [_processing_locks _file_locks]. rewrite !lookup_insert_eq.
    repeat split; try done. unfold get_user_processing_tracks. cbn [_user_processing].
    rewrite lookup_insert_eq. cbn [default from_option id]. set_solver. }
  subst st''. unfold leave. fold lock_key.
  set (ld := {| ld_track_id := track_id |}).
  set (st1 := {| _processing_locks := <[lock_key:=ld]> (_processing_locks st0) |}).
  set (st2 := _release_processing_lock st1 lock_key).
  assert (H2 : _processing_locks st2 = delete lock_key (_processing_locks st1))
    by apply release_locks.
  destruct (release_file_locks st1 lock_key) as [H3 _]. fold st2 in H3.
  assert (H4 : track_id ∉ get_user_processing_tracks st2 user_id).
  { subst st2. unfold _release_processing_lock, st1. cbn [_processing_locks _user_processing].
    rewrite !lookup_insert_eq. cbn [ld ld_user_id ld_track_id].
    unfold get_user_processing_tracks. cbn [_user_processing].
    destruct (decide _).
    - rewrite lookup_delete_eq. set_solver.
    - rewrite lookup_insert_eq. cbn [default from_option id]. set_solver. }
  assert (H5 : _file_locks st2 !! track_id = Some true).
  { rewrite H3. subst st1. cbn [_file_locks]. by rewrite lookup_insert_eq. }
  rewrite H5. cbn [_processing_locks _file_locks]. rewrite H2.
  rewrite lookup_delete_eq, lookup_insert_eq.
  repeat split; try done.
  - intros k Hk. by rewrite lookup_delete_ne.
  - fold lock_key. unfold _release_processing_lock. cbn [_processing_locks].
    rewrite lookup_delete_eq. cbn [_file_locks]. by rewrite lookup_insert_eq.
Qed.

(** X16. A waiter that times out frees the file lock it was waiting for.
    Take a user below the limit who asks for an operation that has no record
    yet, on a track whose file lock is held, by another operation on that
    track.  The wait times out; the [raise HTTPException] of the timeout
    handler finds the name unbound, so the attempt ends with
    [UnboundLocalError]; no record or user set changes, but the [finally]
    clause releases the file lock that the other operation holds.  The same
    request made again at once is therefore granted, while every record the
    first holder has is still in place. *)
Theorem timed_out_waiter_frees_the_track st track_id user_id operation now :
  let st1 := _cleanup_expired_locks st now in
  _get_user_processing_count st1 user_id < 3 ->
  _processing_locks st1 !! lock_key_of track_id operation = None ->
  _file_locks st1 !! track_id = Some true ->
  let attempt := acquire_ st track_id user_id operation now in
  attempt.1 = inl (UnboundLocalError "HTTPException") /\
  _processing_locks attempt.2 = _processing_locks st1 /\
  _user_processing attempt.2 = _user_processing st1 /\
  _file_locks attempt.2 !! track_id = Some false /\
  exists lock_data st2,
    acquire_ attempt.2 track_id user_id operation now = (inr lock_data, st2) /\
    forall k, k <> lock_key_of track_id operation ->
      _processing_locks st2 !! k = _processing_locks st1 !! k.
Proof.
  intros st1 Hcount Hnone Hheld attempt.
  assert (Hattempt : attempt =
    (inl (UnboundLocalError "HTTPException"),
     {| _processing_locks := _processing_locks st1;
        _file_locks := <[track_id := false]> (_file_locks st1);
        _user_processing := _user_processing st1;
        last_cleanup := last_cleanup st1 |})).
  { subst attempt. unfold acquire_processing_lock. fold st1.
    unfold max_concurrent_per_user.
    destruct (Z.leb_spec 3 (_get_user_processing_count st1 user_id)); [lia|].
    rewrite Hnone. unfold enter. rewrite Hheld. rewrite Hheld. done. }
  rewrite Hattempt. cbn [fst snd _processing_locks _user_processing _file_locks].
  rewrite lookup_insert_eq. repeat split; try done.
  set (st' := {| _processing_locks := _processing_locks st1 |}).
  assert (Hsweep : _cleanup_expired_locks st' now = st').
  { unfold _cleanup_expired_locks. subst st'. cbn [last_cleanup].
    subst st1. unfold _cleanup_expired_locks.
    destruct (now - last_cleanup st <? cleanup_interval) eqn:E.
    - by rewrite E.
    - cbn [last_cleanup]. replace (now - now) with 0 by lia. done. }
  unfold acquire_processing_lock. rewrite Hsweep.
  unfold max_concurrent_per_user.
  replace (_get_user_processing_count st' user_id) with (_get_user_processing_count st1 user_id)
    by reflexivity.
  destruct (Z.leb_spec 3 (_get_user_processing_count st1 user_id)); [lia|].
  change (_processing_locks st') with (_processing_locks st1). rewrite Hnone.
  unfold enter. cbn [_file_locks st']. rewrite !lookup_insert_eq.
  cbn [default from_option id].
  eexists _, _. split; [reflexivity|]. intros k Hk. cbn [_processing_locks].
  by rewrite lookup_insert_ne.
Qed.

End Lifecycle.

Lemma acquire_then_leave_witness :
  let lock_data :=
    {| ld_track_id := "T1"; ld_user_id := "alice"; ld_operation := "processing";
       ld_created_at := 10; ld_expires_at := 10 + 1800;
       ld_process_id :=
         _generate_process_id "secret" (fun s => s) (fun _ => "t"%string)
           "T1" "alice" "processing" 10 |} in
  let lock_key := lock_key_of "T1" "processing" in
  let st'' := leave ex_held "T1" "processing" in
  (lock_data = lock_data /\
   _processing_locks ex_held !! lock_key = Some lock_data /\
   _file_locks ex_held !! "T1"%string = Some true /\
   "T1"%string ∈ get_user_processing_tracks ex_held "alice") /\
  (_processing_locks st'' !! lock_key = None /\
   _file_locks st'' !! "T1"%string = Some false /\
   ("T1"%string ∉ get_user_processing_tracks st'' "alice") /\
   (forall k, k <> lock_key -> _processing_locks st'' !! k = _processing_locks ex_held !! k) /\
   leave st'' "T1" "processing" = st'').
Proof.
  apply (acquire_then_leave "secret" (fun s => s) (fun _ => "t"%string)
           ex_empty "T1" "alice" "processing" 10).
  reflexivity.
Defined.

Lemma sweep_releases_expired_locks_witness :
  let st' := _cleanup_expired_locks ex_held 5000 in
  last_cleanup st' = 5000 /\
  _file_locks st' = _file_locks ex_held /\
  (forall lock_key,
     _processing_locks st' !! lock_key =
     match _processing_locks ex_held !! lock_key with
     | Some lock_data => if ld_expires_at lock_data <? 5000 then None else Some lock_data
     | None => None
     end) /\
  (forall lock_key lock_data,
     _processing_locks ex_held !! lock_key = Some lock_data ->
     ld_expires_at lock_data < 5000 ->
     ld_track_id lock_data ∉ get_user_processing_tracks st' (ld_user_id lock_data)) /\
  (forall user_id,
     get_user_processing_tracks st' user_id ⊆ get_user_processing_tracks ex_held user_id).
Proof.
  apply (sweep_releases_expired_locks ex_held 5000).
  vm_compute. discriminate.
Defined.

Lemma timed_out_waiter_frees_the_track_witness :
  let st1 := _cleanup_expired_locks ex_held 20 in
  let attempt := ex_acquire ex_held "T1" "alice" "encryption" 20 in
  attempt.1 = inl (UnboundLocalError "HTTPException") /\
  _processing_locks attempt.2 = _processing_locks st1 /\
  _user_processing attempt.2 = _user_processing st1 /\
  _file_locks attempt.2 !! "T1"%string = Some false /\
  exists lock_data st2,
    ex_acquire attempt.2 "T1" "alice" "encryption" 20 = (inr lock_data, st2) /\
    forall k, k <> lock_key_of "T1" "encryption" ->
      _processing_locks st2 !! k = _processing_locks st1 !! k.
Proof.
  apply (timed_out_waiter_frees_the_track "secret" (fun s => s) (fun _ => "t"%string)
           ex_held "T1" "alice" "encryption" 20).
  - vm_compute. reflexivity.
  - vm_compute. reflexivity.
  - vm_compute. reflexivity.
Defined.

(** Scenario: alice holds (T1, processing); her request for (T1, encryption)
    times out, is repeated and granted; she leaves the first block.  A record
    of hers for T1 is still stored, her set of tracks is empty, and the file
    lock of T1 is free. *)
Example two_operations_on_one_track :
  let st1 := (ex_acquire ex_held "T1" "alice" "encryption" 20).2 in
  let st2 := (ex_acquire st1 "T1" "alice" "encryption" 21).2 in
  let st3 := leave st2 "T1" "processing" in
  is_Some (_processing_locks st3 !! lock_key_of "T1" "encryption") /\
  get_user_processing_tracks st3 "alice" = ∅ /\
  _file_locks st3 !! "T1"%string = Some false.
Proof. repeat split; vm_compute; eauto. Qed.

End FileLockManager.

(** ** [app/core/chaotic_audio_protection.py] *)

Module AudioProtection.
Import Py.

Record ProgressRecord := {
  pr_track_id : string;
  pr_status : string;
  pr_progress_percent : Z;
  pr_current_step : string;
  pr_estimated_remaining : option float;
  pr_performance_mode : string;
  pr_updated_at : float
}.

(** The process as the facade sees it: [os.environ], the files, the
    progress dictionary, the globals of the cipher module as its import left
    them, the cipher's entropy and call record, the number of clock
    readings taken, and the calls made to a progress callback. *)
Record Runtime := {
  environ : gmap string string;
  files : gmap string bytes;
  _progress_storage : gmap string ProgressRecord;
  cipher_module : ChaoticCipher.CipherModule;
  cipher_world : ChaoticCipher.World;
  clock_reads : nat;
  callback_calls : list (Z * string)
}.

Inductive exn :=
| CipherError (e : Py.exn)
| FileNotFoundError (path : string)
| OSError (path : string).

(** The dictionary [encrypt_audio_file] returns. *)
Inductive Report :=
| Encrypted (encrypted_path original_file_sha256 user_id track_id performance_mode : string)
            (encryption_time estimated_time : float)
| Failed (error : string) (performance_mode : string).

Definition F (A : Type) : Type := Runtime -> (exn + A) * Runtime.

Definition fret {A} (a : A) : F A := fun rt => (inr a, rt).

Definition fbind {A B} (m : F A) (k : A -> F B) : F B :=
  fun rt =>
    match m rt with
    | (inr a, rt') => k a rt'
    | (inl e, rt') => (inl e, rt')
    end.

Notation "'let!' x ':=' c 'in' k" := (fbind c (fun x => k))
  (at level 10, x pattern, c at level 100, k at level 200).
Notation "c >>> k" := (fbind c (fun _ => k))
  (at level 100, right associativity).

Definition ENV_MODE : string := "CHAOTIC_PERFORMANCE_MODE".

(** Importing the facade imports the cipher module, which reads the
    environment once. *)
Definition import_runtime (environ0 : gmap string string) (files0 : gmap string bytes)
  : Runtime :=
  {| environ := environ0; files := files0; _progress_storage := ∅;
     cipher_module := ChaoticCipher.import_module environ0;
     cipher_world := {| ChaoticCipher.entropy_used := 0; ChaoticCipher.trace := [] |};
     clock_reads := 0; callback_calls := [] |}.

Section Facade.

Variable os_entropy : nat -> byte.
Variable PBKDF2HMAC_SHA256 :
  forall (length : nat) (salt : bytes) (iterations : Z) (key_material : bytes), bytes.
Variable blake2b_32 : forall (data person : bytes), bytes.
Variable hmac_sha256 : forall (key msg : bytes), bytes.
Variable islower isupper isdigit isalnum : ascii -> bool.
Variable sha256_digest : bytes -> bytes.
Variable sha256_hexdigest : bytes -> string.
Variable b64encode : bytes -> string.
Variable wall_clock : nat -> float.
Variable str_of_exn : exn -> string.

(** The paths [open(path, 'wb')] refuses: the empty path, a path in a
    directory that does not exist or cannot be written, a directory. *)
Variable open_fails : string -> bool.

(** [time.time()] *)
Definition time_time : F float :=
  fun rt =>
    (inr (wall_clock (clock_reads rt)),
     {| environ := environ rt; files := files rt;
        _progress_storage := _progress_storage rt;
        cipher_module := cipher_module rt; cipher_world := cipher_world rt;
        clock_reads := S (clock_reads rt); callback_calls := callback_calls rt |}).

Definition set_environ (update : gmap string string -> gmap string string) : F unit :=
  fun rt =>
    (inr tt,
     {| environ := update (environ rt); files := files rt;
        _progress_storage := _progress_storage rt;
        cipher_module := cipher_module rt; cipher_world := cipher_world rt;
        clock_reads := clock_reads rt; callback_calls := callback_calls rt |}).

Definition set_progress
    (update : gmap string ProgressRecord -> gmap string ProgressRecord) : F unit :=
  fun rt =>
    (inr tt,
     {| environ := environ rt; files := files rt;
        _progress_storage := update (_progress_storage rt);
        cipher_module := cipher_module rt; cipher_world := cipher_world rt;
        clock_reads := clock_reads rt; callback_calls := callback_calls rt |}).

(** [os.path.getsize] and [open(path, 'rb').read()] *)
Definition read_file (path : string) : F bytes :=
  fun rt =>
    match files rt !! path with
    | Some data => (inr data, rt)
    | None => (inl (FileNotFoundError path), rt)
    end.

(** [with open(path, 'wb') as f: f.write(data)] *)
Definition write_file (path : string) (data : bytes) : F unit :=
  fun rt =>
    if open_fails path then (inl (OSError path), rt)
    else
      (inr tt,
       {| environ := environ rt; files := <[path := data]> (files rt);
          _progress_storage := _progress_storage rt;
          cipher_module := cipher_module rt; cipher_world := cipher_world rt;
          clock_reads := clock_reads rt; callback_calls := callback_calls rt |}).

(** [if progress_callback: progress_callback(progress, step)] for a callback
    that observes. *)
Definition notify (has_callback : bool) (progress : Z) (step : string) : F unit :=
  fun rt =>
    (inr tt,
     if has_callback then
       {| environ := environ rt; files := files rt;
          _progress_storage := _progress_storage rt;
          cipher_module := cipher_module rt; cipher_world := cipher_world rt;
          clock_reads := clock_reads rt;
          callback_calls := callback_calls rt ++ [(progress, step)] |}
     else rt).

(** The call [encrypt_with_validation(audio_data, secret_key)]: the cipher
    runs on its module's globals. *)
Definition call_encrypt_with_validation (data : bytes) (secret_key : string) : F bytes :=
  fun rt =>
    let '(res, w) :=
      ChaoticCipher.encrypt_with_validation os_entropy PBKDF2HMAC_SHA256 blake2b_32
        hmac_sha256 islower isupper isdigit isalnum (cipher_module rt)
        data secret_key (cipher_world rt) in
    (match res with
     | Ok blob => inr blob
     | Raise e => inl (CipherError e)
     end,
     {| environ := environ rt; files := files rt;
        _progress_storage := _progress_storage rt;
        cipher_module := cipher_module rt; cipher_world := w;
        clock_reads := clock_reads rt; callback_calls := callback_calls rt |}).

Definition estimate_encryption_time (file_size : Z) (performance_mode : string) : float :=
  let time_per_mb :=
    if String.eqb performance_mode "fast" then 0.5%float
    else if String.eqb performance_mode "balanced" then 6.0%float
    else if String.eqb performance_mode "secure" then 15.0%float
    else 6.0%float in
  let file_size_mb := (float_of_Z file_size / float_of_Z (1024 * 1024))%float in
  let base_time := (file_size_mb * time_per_mb)%float in
  let overhead := (2.0 + (file_size_mb * 0.5))%float in
  (base_time + overhead)%float.

Definition update_progress (track_id : string) (progress : Z) (step : string)
    (performance_mode : string) (estimated_remaining : option float) : F unit :=
  let! now := time_time in
  set_progress
    (insert track_id
       {| pr_track_id := track_id;
          pr_status := if progress <? 100 then "processing" else "completed";
          pr_progress_percent := progress;
          pr_current_step := step;
          pr_estimated_remaining := estimated_remaining;
          pr_performance_mode := performance_mode;
          pr_updated_at := now |}).

Definition calculate_file_sha256 (file_path : string) : F string :=
  let! data := read_file file_path in
  fret (sha256_hexdigest data).

Definition create_audio_protection_key (user_id track_id master_secret : string) : string :=
  let combined := (user_id ++ ":" ++ track_id ++ ":" ++ master_secret)%string in
  let salt := sha256_digest (str_encode ("audio_protection:" ++ track_id)%string) in
  let key_bytes := PBKDF2HMAC_SHA256 32 salt 50000 (str_encode combined) in
  b64encode key_bytes.

Definition validated_mode (performance_mode : string) : string :=
  if String.eqb performance_mode "fast" || String.eqb performance_mode "balanced"
     || String.eqb performance_mode "secure"
  then performance_mode else "balanced".

(** The [try] block of [ChaoticAudioProtection.encrypt_audio_file]; the
    argument is the mode after its validation. *)
Definition try_block (master_secret input_path output_path user_id track_id : string)
    (performance_mode : string) (has_callback : bool) (start_time : float) : F Report :=
  set_environ (insert ENV_MODE performance_mode) >>>
  let! audio := read_file input_path in
  let file_size := Z.of_nat (length audio) in
  let estimated_time := estimate_encryption_time file_size performance_mode in
  update_progress track_id 0 "Initializing encryption..." performance_mode
    (Some estimated_time) >>>
  notify has_callback 0 "Initializing encryption..." >>>
  update_progress track_id 10 "Calculating file hash..." performance_mode None >>>
  notify has_callback 10 "Calculating file hash..." >>>
  let! original_sha256 := calculate_file_sha256 input_path in
  update_progress track_id 20 "Generating encryption key..." performance_mode None >>>
  notify has_callback 20 "Generating encryption key..." >>>
  let secret_key := create_audio_protection_key user_id track_id master_secret in
  update_progress track_id 30 "Reading audio file..." performance_mode None >>>
  notify has_callback 30 "Reading audio file..." >>>
  let! audio_data := read_file input_path in
  let step := ("Encrypting with " ++ performance_mode ++ " mode...")%string in
  update_progress track_id 40 step performance_mode None >>>
  notify has_callback 40 step >>>
  let! encrypted_data := call_encrypt_with_validation audio_data secret_key in
  update_progress track_id 95 "Writing encrypted file..." performance_mode None >>>
  notify has_callback 95 "Writing encrypted file..." >>>
  write_file output_path encrypted_data >>>
  let! end_time := time_time in
  let encryption_time := (end_time - start_time)%float in
  update_progress track_id 100 "Encryption completed!" performance_mode (Some 0%float) >>>
  notify has_callback 100 "Encryption completed!" >>>
  fret (Encrypted output_path original_sha256 user_id track_id performance_mode
          encryption_time estimated_time).

(** The [except Exception] handler. *)
Definition except_block (track_id performance_mode : string) (e : exn) : F Report :=
  update_progress track_id 0 ("Encryption failed: " ++ str_of_exn e)%string
    performance_mode None >>>
  set_progress (alter (fun r =>
    {| pr_track_id := pr_track_id r; pr_status := "failed";
       pr_progress_percent := pr_progress_percent r;
       pr_current_step := pr_current_step r;
       pr_estimated_remaining := pr_estimated_remaining r;
       pr_performance_mode := pr_performance_mode r;
       pr_updated_at := pr_updated_at r |}) track_id) >>>
  fret (Failed (str_of_exn e) performance_mode).

Definition encrypt_audio_file
    (master_secret input_path output_path user_id track_id performance_mode : string)
    (has_callback : bool) : F Report :=
  fun rt =>
    let '(start_time, rt0) := time_time rt in
    let start_time := match start_time with inr t => t | inl _ => 0%float end in
    let performance_mode := validated_mode performance_mode in
    let '(outcome, rt1) :=
      match try_block master_secret input_path output_path user_id track_id
              performance_mode has_callback start_time rt0 with
      | (inr report, rt') => (inr report, rt')
      | (inl e, rt') => except_block track_id performance_mode e rt'
      end in
    let '(_, rt2) := set_environ (delete ENV_MODE) rt1 in
    (outcome, rt2).

(** *** Two runs that differ in the performance mode only *)

(** What two runtimes share when they differ at most in the environment
    variable of the mode, in progress records and in callback calls. *)
Definition agree (cm : ChaoticCipher.CipherModule) (rt1 rt2 : Runtime) : Prop :=
  cipher_module rt1 = cm /\ cipher_module rt2 = cm /\
  files rt1 = files rt2 /\
  cipher_world rt1 = cipher_world rt2 /\
  clock_reads rt1 = clock_reads rt2 /\
  delete ENV_MODE (environ rt1) = delete ENV_MODE (environ rt2).

(** Two computations that, from agreeing runtimes, either both return,
    with results related by [R], or both raise the same exception, and leave
    agreeing runtimes. *)
Definition sim {A} (cm : ChaoticCipher.CipherModule) (R : A -> A -> Prop)
    (m1 m2 : F A) : Prop :=
  forall rt1 rt2, agree cm rt1 rt2 ->
    match m1 rt1, m2 rt2 with
    | (inr a1, rt1'), (inr a2, rt2') => R a1 a2 /\ agree cm rt1' rt2'
    | (inl e1, rt1'), (inl e2, rt2') => e1 = e2 /\ agree cm rt1' rt2'
    | _, _ => False
    end.

Lemma sim_bind {A B} cm (R : B -> B -> Prop) (m1 m2 : F A) (k1 k2 : A -> F B) :
  sim cm eq m1 m2 -> (forall a, sim cm R (k1 a) (k2 a)) ->
  sim cm R (fbind m1 k1) (fbind m2 k2).
Proof.
  intros Hm Hk rt1 rt2 Hag. unfold fbind. specialize (Hm rt1 rt2 Hag).
  destruct (m1 rt1) as [[e1|a1] rt1'], (m2 rt2) as [[e2|a2] rt2']; try done.
  destruct Hm as [-> Hag']. by apply Hk.
Qed.

Lemma sim_fret {A} cm (R : A -> A -> Prop) a1 a2 : R a1 a2 -> sim cm R (fret a1) (fret a2).
Proof. intros HR rt1 rt2 Hag. done. Qed.

Lemma sim_time_time cm : sim cm eq time_time time_time.
Proof.
  intros rt1 rt2 (H1 & H2 & H3 & H4 & H5 & H6). cbn.
  rewrite H5. repeat split; auto.
Qed.

Lemma sim_set_progress cm f1 f2 : sim cm eq (set_progress f1) (set_progress f2).
Proof. intros rt1 rt2 (H1 & H2 & H3 & H4 & H5 & H6). cbn. by repeat split. Qed.

Lemma sim_set_mode cm v1 v2 :
  sim cm eq (set_environ (insert ENV_MODE v1)) (set_environ (insert ENV_MODE v2)).
Proof.
  intros rt1 rt2 (H1 & H2 & H3 & H4 & H5 & H6). unfold set_environ, agree.
  cbn [environ files cipher_module cipher_world clock_reads].
  rewrite !delete_insert_eq. by repeat split.
Qed.

Lemma sim_read_file cm path : sim cm eq (read_file path) (read_file path).
Proof.
  intros rt1 rt2 Hag. pose proof Hag as (H1 & H2 & H3 & H4 & H5 & H6).
  unfold read_file. rewrite H3. by destruct (files rt2 !! path).
Qed.

Lemma sim_write_file cm path data : sim cm eq (write_file path data) (write_file path data).
Proof.
  intros rt1 rt2 Hag. pose proof Hag as (H1 & H2 & H3 & H4 & H5 & H6).
  unfold write_file. destruct (open_fails path); [done|].
  cbn. rewrite H3. by repeat split.
Qed.

Lemma sim_notify cm has_callback p1 s1 p2 s2 :
  sim cm eq (notify has_callback p1 s1) (notify has_callback p2 s2).
Proof.
  intros rt1 rt2 Hag. pose proof Hag as (H1 & H2 & H3 & H4 & H5 & H6).
  unfold notify. destruct has_callback; cbn; by repeat split.
Qed.

Lemma sim_call_encrypt cm data key :
  sim cm eq (call_encrypt_with_validation data key) (call_encrypt_with_validation data key).
Proof.
  intros rt1 rt2 (H1 & H2 & H3 & H4 & H5 & H6).
  unfold call_encrypt_with_validation. rewrite H1, H2, H4.
  destruct (ChaoticCipher.encrypt_with_validation _ _ _ _ _ _ _ _ _ _ _ _) as [[blob|e] w];
    cbn; by repeat split.
Qed.

Lemma sim_update_progress cm track_id p1 s1 m1 e1 p2 s2 m2 e2 :
  sim cm eq (update_progress track_id p1 s1 m1 e1) (update_progress track_id p2 s2 m2 e2).
Proof.
  unfold update_progress. apply sim_bind; [apply sim_time_time|].
  intros now. apply sim_set_progress.
Qed.

Lemma sim_calculate_file_sha256 cm path :
  sim cm eq (calculate_file_sha256 path) (calculate_file_sha256 path).
Proof.
  unfold calculate_file_sha256. apply sim_bind; [apply sim_read_file|].
  intros data. by apply sim_fret.
Qed.

(** Two reports that differ at most in the mode they echo and in the time
    estimate. *)
Definition same_report (r1 r2 : Report) : Prop :=
  match r1, r2 with
  | Encrypted p1 h1 u1 t1 _ d1 _, Encrypted p2 h2 u2 t2 _ d2 _ =>
      p1 = p2 /\ h1 = h2 /\ u1 = u2 /\ t1 = t2 /\ d1 = d2
  | Failed e1 _, Failed e2 _ => e1 = e2
  | _, _ => False
  end.

Ltac sim_step :=
  first
    [ apply sim_bind;
      [ first [ apply sim_set_mode | apply sim_read_file | apply sim_update_progress
              | apply sim_notify | apply sim_calculate_file_sha256
              | apply sim_call_encrypt | apply sim_write_file | apply sim_time_time
              | apply sim_set_progress ]
      | intros ? ]
    | apply sim_fret ].

Lemma sim_try_block cm master_secret input_path output_path user_id track_id
    mode1 mode2 has_callback start_time :
  sim cm same_report
    (try_block master_secret input_path output_path user_id track_id mode1
       has_callback start_time)
    (try_block master_secret input_path output_path user_id track_id mode2
       has_callback start_time).
Proof.
  unfold try_block. repeat sim_step. cbn. done.
Qed.

Lemma sim_except_block cm track_id mode1 mode2 e :
  sim cm same_report (except_block track_id mode1 e) (except_block track_id mode2 e).
Proof.
  unfold except_block. repeat sim_step. cbn. done.
Qed.

Lemma except_block_returns track_id mode e rt :
  exists report rt', except_block track_id mode e rt = (inr report, rt').
Proof. eexists _, _. reflexivity. Qed.

(** C10. The per-call performance mode never reaches the cipher.  Run
    [encrypt_audio_file] twice from the same runtime on the same inputs, with
    any two values of [performance_mode].  The cipher module's globals are
    what the import left in both runs; the cipher is called with the same
    data and key and leaves the same record of salts, lattice states and
    keystream lengths; the same bytes are written to the same files; the
    environment is the same afterwards (the variable is set during the call
    and deleted at its end); and the two reports agree except for the mode
    they echo and the time estimate. *)
Theorem performance_mode_never_reaches_cipher
    (master_secret input_path output_path user_id track_id : string)
    (has_callback : bool) (mode1 mode2 : string) (rt : Runtime) :
  let run1 := encrypt_audio_file master_secret input_path output_path user_id track_id
                mode1 has_callback rt in
  let run2 := encrypt_audio_file master_secret input_path output_path user_id track_id
                mode2 has_callback rt in
  cipher_module run1.2 = cipher_module rt /\
  cipher_module run2.2 = cipher_module rt /\
  cipher_world run1.2 = cipher_world run2.2 /\
  files run1.2 = files run2.2 /\
  environ run1.2 = environ run2.2 /\
  match run1.1, run2.1 with
  | inr report1, inr report2 => same_report report1 report2
  | _, _ => False
  end.
Proof.
  intros run1 run2. subst run1 run2. unfold encrypt_audio_file.
  assert (Hag0 : agree (cipher_module rt) rt rt) by (by repeat split).
  pose proof (sim_time_time _ _ _ Hag0) as Ht.
  unfold time_time in Ht |- *. cbv beta iota zeta in Ht |- *.
  destruct Ht as [_ Hag1].
  set (t0 := wall_clock (clock_reads rt)) in *.
  set (rt0 := Build_Runtime _ _ _ _ _ _ _) in *.
  pose proof (sim_try_block (cipher_module rt) master_secret input_path output_path
                user_id track_id (validated_mode mode1) (validated_mode mode2)
                has_callback t0 _ _ Hag1) as Htry.
  destruct (try_block _ _ _ _ _ (validated_mode mode1) _ _ rt0) as [[e1|r1] rt1],
           (try_block _ _ _ _ _ (validated_mode mode2) _ _ rt0) as [[e2|r2] rt2];
    try done.
  - destruct Htry as [<- Hag2].
    pose proof (sim_except_block (cipher_module rt) track_id (validated_mode mode1)
                  (validated_mode mode2) e1 _ _ Hag2) as Hex.
    destruct (except_block_returns track_id (validated_mode mode1) e1 rt1)
      as (r1 & rt1' & E1).
    destruct (except_block_returns track_id (validated_mode mode2) e1 rt2)
      as (r2 & rt2' & E2).
    rewrite E1, E2 in *.
    destruct Hex as [HR (H1 & H2 & H3 & H4 & H5 & H6)]. cbn.
    by repeat split.
  - destruct Htry as [HR (H1 & H2 & H3 & H4 & H5 & H6)]. cbn. by repeat split.
Qed.

End Facade.

(** A run: the module is imported with no mode in the environment, so in
    the balanced configuration, and a file is encrypted once with the mode
    argument "fast" and once with "secure". *)
Definition ex_runtime : Runtime :=
  import_runtime ∅ {[ "in.wav"%string := ChaoticCipher.ex_plaintext ]}.

Definition ex_encrypt_audio_file (performance_mode : string) : (exn + Report) * Runtime :=
  encrypt_audio_file ChaoticCipher.ex_entropy ChaoticCipher.ex_pbkdf2
    ChaoticCipher.ex_blake2b ChaoticCipher.ex_hmac
    ChaoticCipher.ascii_islower ChaoticCipher.ascii_isupper
    ChaoticCipher.ascii_isdigit ChaoticCipher.ascii_isalnum
    (fun b => b) (fun _ => "0f"%string) (fun _ => ChaoticCipher.ex_password)
    (fun _ => 0%float) (fun _ => "error"%string) (fun path => String.eqb path "")
    "master" "in.wav" "out.enc" "alice" "T1" performance_mode false ex_runtime.

Example fast_and_secure_requests_write_the_same_blob :
  cipher_module (ex_encrypt_audio_file "fast").2 = ChaoticCipher.configure "balanced" /\
  files (ex_encrypt_audio_file "fast").2 = files (ex_encrypt_audio_file "secure").2 /\
  (exists blob, files (ex_encrypt_audio_file "fast").2 !! "out.enc"%string = Some blob /\
                length blob = 69%nat) /\
  environ (ex_encrypt_audio_file "fast").2 = ∅.
Proof.
  split; [reflexivity|]. split; [vm_compute; reflexivity|].
  split; [|vm_compute; reflexivity].
  eexists. split; vm_compute; reflexivity.
Qed.

(** *** How a call of the facade ends *)

Section Outcomes.

Variable os_entropy : nat -> byte.
Variable PBKDF2HMAC_SHA256 : nat -> bytes -> Z -> bytes -> bytes.
Variable blake2b_32 hmac_sha256 : bytes -> bytes -> bytes.
Variable islower isupper isdigit isalnum : ascii -> bool.
Variable sha256_digest : bytes -> bytes.
Variable sha256_hexdigest : bytes -> string.
Variable b64encode : bytes -> string.
Variable wall_clock : nat -> float.
Variable str_of_exn : exn -> string.
Variable open_fails : string -> bool.

#[local] Abbreviation encrypt_audio_file_ :=
  (encrypt_audio_file os_entropy PBKDF2HMAC_SHA256 blake2b_32 hmac_sha256
     islower isupper isdigit isalnum sha256_digest sha256_hexdigest b64encode
     wall_clock str_of_exn open_fails).
#[local] Abbreviation encrypt_with_validation_ :=
  (ChaoticCipher.encrypt_with_validation os_entropy PBKDF2HMAC_SHA256 blake2b_32
     hmac_sha256 islower isupper isdigit isalnum).
#[local] Abbreviation key_for :=
  (create_audio_protection_key PBKDF2HMAC_SHA256 sha256_digest b64encode).

Ltac facade_run :=
  cbv beta iota zeta delta
    [try_block except_block update_progress calculate_file_sha256
     call_encrypt_with_validation fbind time_time set_environ set_progress
     read_file write_file notify fret
     environ files _progress_storage cipher_module cipher_world clock_reads
     callback_calls fst snd].

(** The progress record of a track says [status] at [percent]. *)
Definition progress_is (rt : Runtime) (track_id status : string) (percent : Z) : Prop :=
  exists r, _progress_storage rt !! track_id = Some r /\
            pr_status r = status /\ pr_progress_percent r = percent.

Lemma facade_encrypt_cases
    (master_secret input_path output_path user_id track_id performance_mode : string)
    (has_callback : bool) (rt : Runtime) :
  let mode := validated_mode performance_mode in
  let key := key_for user_id track_id master_secret in
  let run := encrypt_audio_file_ master_secret input_path output_path user_id track_id
               performance_mode has_callback rt in
  environ run.2 = delete ENV_MODE (environ rt) /\
  cipher_module run.2 = cipher_module rt /\
  match files rt !! input_path with
  | None =>
      run.1 = inr (Failed (str_of_exn (FileNotFoundError input_path)) mode) /\
      files run.2 = files rt /\ cipher_world run.2 = cipher_world rt /\
      progress_is run.2 track_id "failed" 0
  | Some data =>
      match encrypt_with_validation_ (cipher_module rt) data key (cipher_world rt) with
      | (Ok blob, w) =>
          if open_fails output_path then
            run.1 = inr (Failed (str_of_exn (OSError output_path)) mode) /\
            files run.2 = files rt /\ cipher_world run.2 = w /\
            progress_is run.2 track_id "failed" 0
          else
            (exists encryption_time estimated_time,
               run.1 = inr (Encrypted output_path (sha256_hexdigest data) user_id track_id
                              mode encryption_time estimated_time)) /\
            files run.2 = <[output_path := blob]> (files rt) /\
            cipher_world run.2 = w /\
            progress_is run.2 track_id "completed" 100
      | (Raise e, w) =>
          run.1 = inr (Failed (str_of_exn (CipherError e)) mode) /\
          files run.2 = files rt /\ cipher_world run.2 = w /\
          progress_is run.2 track_id "failed" 0
      end
  end.
Proof.
  intros mode key run. subst run.
  unfold encrypt_audio_file. fold mode.
  destruct rt as [env fs progress cm w0 reads calls].
  cbn [environ files cipher_module cipher_world].
  destruct (fs !! input_path) as [data|] eqn:Hfile.
  - destruct (ChaoticCipher.encrypt_with_validation _ _ _ _ _ _ _ _ _ _ _ _)
      as [[blob|e] w] eqn:Henc; subst key;
      [destruct (open_fails output_path) eqn:Hopen|];
      destruct has_callback; facade_run; rewrite ?Hfile; facade_run; rewrite ?Henc;
      facade_run; rewrite ?Hopen; facade_run;
      (split; [apply delete_insert_eq|]); (split; [done|]);
      (split; [first [done|by eexists _, _]|]); (split; [done|]); (split; [done|]);
      unfold progress_is; cbn [_progress_storage]; eexists;
      rewrite ?lookup_alter_eq, lookup_insert_eq; done.
  - facade_run. rewrite ?Hfile. facade_run.
    split; [apply delete_insert_eq|]. split; [done|].
    split; [done|]. split; [done|]. split; [done|].
    unfold progress_is. cbn [_progress_storage]. eexists.
    rewrite lookup_alter_eq, lookup_insert_eq. done.
Qed.

(** X21. How a call of [ChaoticAudioProtection.encrypt_audio_file] ends.
    It always returns a report, with the mode variable removed from the
    environment and the cipher module's globals untouched.  If the input file
    is missing, or the cipher raises (a weak derived key, an input over
    50 MiB), or the output path cannot be opened for writing, the report is
    a failure carrying the exception's text, no file is written or changed,
    and the track's progress record says [failed] at 0 percent.  Otherwise
    the report names the output path and the SHA-256 of the input, exactly
    one file is written, the blob at the output path, and the progress
    record says [completed] at 100 percent. *)
Theorem facade_encrypt_outcomes
    (master_secret input_path output_path user_id track_id performance_mode : string)
    (has_callback : bool) (rt : Runtime) :
  let mode := validated_mode performance_mode in
  let key := key_for user_id track_id master_secret in
  let run := encrypt_audio_file_ master_secret input_path output_path user_id track_id
               performance_mode has_callback rt in
  environ run.2 = delete ENV_MODE (environ rt) /\
  cipher_module run.2 = cipher_module rt /\
  match files rt !! input_path with
  | None =>
      run.1 = inr (Failed (str_of_exn (FileNotFoundError input_path)) mode) /\
      files run.2 = files rt /\ cipher_world run.2 = cipher_world rt /\
      progress_is run.2 track_id "failed" 0
  | Some data =>
      match encrypt_with_validation_ (cipher_module rt) data key (cipher_world rt) with
      | (Ok blob, w) =>
          if open_fails output_path then
            run.1 = inr (Failed (str_of_exn (OSError output_path)) mode) /\
            files run.2 = files rt /\ cipher_world run.2 = w /\
            progress_is run.2 track_id "failed" 0
          else
            (exists encryption_time estimated_time,
               run.1 = inr (Encrypted output_path (sha256_hexdigest data) user_id track_id
                              mode encryption_time estimated_time)) /\
            files run.2 = <[output_path := blob]> (files rt) /\
            cipher_world run.2 = w /\
            progress_is run.2 track_id "completed" 100
      | (Raise e, w) =>
          run.1 = inr (Failed (str_of_exn (CipherError e)) mode) /\
          files run.2 = files rt /\ cipher_world run.2 = w /\
          progress_is run.2 track_id "failed" 0
      end
  end.
Proof. apply facade_encrypt_cases. Qed.

End Outcomes.

(** Scenario: the input file is missing. *)
Example missing_input_file :
  let run :=
    encrypt_audio_file ChaoticCipher.ex_entropy ChaoticCipher.ex_pbkdf2
      ChaoticCipher.ex_blake2b ChaoticCipher.ex_hmac
      ChaoticCipher.ascii_islower ChaoticCipher.ascii_isupper
      ChaoticCipher.ascii_isdigit ChaoticCipher.ascii_isalnum
      (fun b => b) (fun _ => "0f"%string) (fun _ => ChaoticCipher.ex_password)
      (fun _ => 0%float) (fun _ => "error"%string) (fun path => String.eqb path "")
      "master" "nowhere.wav" "out.enc" "alice" "T1" "fast" true ex_runtime in
  run.1 = inr (Failed "error" "fast") /\
  files run.2 = files ex_runtime /\
  callback_calls run.2 = [] /\
  pr_status <$> (_progress_storage run.2 !! "T1"%string) = Some "failed"%string.
Proof. repeat split; vm_compute; reflexivity. Qed.

(** Scenario: the output path is empty, so [open] refuses it: the cipher has
    run, the report is a failure and nothing is written. *)
Example unwritable_output_path :
  let run :=
    encrypt_audio_file ChaoticCipher.ex_entropy ChaoticCipher.ex_pbkdf2
      ChaoticCipher.ex_blake2b ChaoticCipher.ex_hmac
      ChaoticCipher.ascii_islower ChaoticCipher.ascii_isupper
      ChaoticCipher.ascii_isdigit ChaoticCipher.ascii_isalnum
      (fun b => b) (fun _ => "0f"%string) (fun _ => ChaoticCipher.ex_password)
      (fun _ => 0%float) (fun _ => "error"%string) (fun path => String.eqb path "")
      "master" "in.wav" "" "alice" "T1" "fast" false ex_runtime in
  run.1 = inr (Failed "error" "fast") /\
  files run.2 = files ex_runtime /\
  ChaoticCipher.entropy_used (cipher_world run.2) = 64%nat /\
  pr_status <$> (_progress_storage run.2 !! "T1"%string) = Some "failed"%string.
Proof. repeat split; vm_compute; reflexivity. Qed.

End AudioProtection.

(** ** [app/core/session_manager.py] *)

Module SessionManager.

Record Session := {
  s_user_id : string;
  s_session_id : string;
  s_client_ip : string;
  s_user_agent_hash : string;
  s_device_fingerprint : option string;
  s_created_at : Z;
  s_last_accessed : Z;
  s_expires_at : Z;
  s_access_count : Z;
  s_is_active : bool;
  s_revoked_at : option Z;
  s_revoke_reason : option string
}.

(** The three module-level containers and the manager's [last_cleanup].
    Times are seconds. *)
Record State := {
  _active_sessions : gmap string Session;
  _revoked_sessions : gset string;
  _user_sessions : gmap string (gset string);
  last_cleanup : Z
}.

Definition max_sessions_per_user : Z := 5.
Definition cleanup_interval : Z := 300.

(** [s.split(".")] *)
Fixpoint split_dots (s : string) : list string :=
  match s with
  | EmptyString => [EmptyString]
  | String c rest =>
      if Ascii.eqb c "."%char then EmptyString :: split_dots rest
      else match split_dots rest with
           | [] => [String c EmptyString]
           | part :: parts => String c part :: parts
           end
  end.

(** The session dictionary after [revoke_session] has written to it. *)
Definition mark_revoked (s : Session) (reason : string) (now : Z) : Session :=
  {| s_user_id := s_user_id s; s_session_id := s_session_id s;
     s_client_ip := s_client_ip s; s_user_agent_hash := s_user_agent_hash s;
     s_device_fingerprint := s_device_fingerprint s;
     s_created_at := s_created_at s; s_last_accessed := s_last_accessed s;
     s_expires_at := s_expires_at s; s_access_count := s_access_count s;
     s_is_active := false; s_revoked_at := Some now; s_revoke_reason := Some reason |}.

Definition revoke_session (st : State) (session_id reason : string) (now : Z) : State :=
  match _active_sessions st !! session_id with
  | None => st
  | Some session_data =>
      let user_id := s_user_id session_data in
      {| _active_sessions :=
           <[session_id := mark_revoked session_data reason now]> (_active_sessions st);
         _revoked_sessions := {[session_id]} ∪ _revoked_sessions st;
         _user_sessions :=
           match _user_sessions st !! user_id with
           | Some ids => <[user_id := ids ∖ {[session_id]}]> (_user_sessions st)
           | None => _user_sessions st
           end;
         last_cleanup := last_cleanup st |}
  end.

(** The condition under which [_get_user_sessions] keeps a session id. *)
Definition is_current (st : State) (now : Z) (session_id : string) : bool :=
  match _active_sessions st !! session_id with
  | Some s =>
      bool_decide (session_id ∉ _revoked_sessions st) && s_is_active s
      && (now <=? s_expires_at s)
  | None => false
  end.

Definition _get_user_sessions (st : State) (user_id : string) (now : Z)
  : gset string * State :=
  match _user_sessions st !! user_id with
  | None => (∅, st)
  | Some ids =>
      let active_sessions := filter (fun sid => is_current st now sid) ids in
      (active_sessions,
       {| _active_sessions := _active_sessions st;
          _revoked_sessions := _revoked_sessions st;
          _user_sessions := <[user_id := active_sessions]> (_user_sessions st);
          last_cleanup := last_cleanup st |})
  end.

Definition created_of (st : State) (session_id : string) : Z :=
  match _active_sessions st !! session_id with
  | Some s => s_created_at s
  | None => 0
  end.

(** [min(ids, key=created_at)]: the first id, in iteration order, that no
    other id undercuts. *)
Definition oldest (st : State) (ids : list string) : option string :=
  foldl (fun best sid =>
           match best with
           | None => Some sid
           | Some b => if created_of st sid <? created_of st b then Some sid else Some b
           end) None ids.

Definition purge (st : State) (session_id : string) : State :=
  {| _active_sessions := delete session_id (_active_sessions st);
     _revoked_sessions := _revoked_sessions st ∖ {[session_id]};
     _user_sessions := _user_sessions st;
     last_cleanup := last_cleanup st |}.

Definition is_expired (st : State) (now : Z) (session_id : string) : bool :=
  match _active_sessions st !! session_id with
  | Some s => s_expires_at s <? now
  | None => false
  end.

Definition is_old_revoked (st : State) (now : Z) (session_id : string) : bool :=
  match _active_sessions st !! session_id with
  | Some s =>
      match s_revoked_at s with
      | Some revoked_at => 24 * 3600 <? now - revoked_at
      | None => false
      end
  | None => false
  end.

Section Manager.

Variable SECRET_KEY : string.
Variable ACCESS_TOKEN_EXPIRE_MINUTES : Z.
Variable sha256_hexdigest : string -> string.
Variable repr_time : Z -> string.

(** The order in which Python iterates over a set (and over the keys of a
    dictionary); all that is known of it is that it visits the members. *)
Variable set_order : gset string -> list string.
Hypothesis set_order_members : forall (ids : gset string) sid, sid ∈ set_order ids <-> sid ∈ ids.

Definition _cleanup_expired_sessions (st : State) (now : Z) : State :=
  if now - last_cleanup st <? cleanup_interval then st
  else
    let expired_sessions :=
      filter (fun sid => is_expired st now sid) (set_order (dom (_active_sessions st))) in
    let st1 := foldl (fun st sid => revoke_session st sid "expired" now) st expired_sessions in
    let old_revoked :=
      filter (fun sid => is_old_revoked st1 now sid) (set_order (_revoked_sessions st1)) in
    let st2 := foldl purge st1 old_revoked in
    {| _active_sessions := _active_sessions st2;
       _revoked_sessions := _revoked_sessions st2;
       _user_sessions := _user_sessions st2;
       last_cleanup := now |}.

(** The session id: a hash over the caller, the time and [nonce], which is
    [secrets.token_hex(32)]. *)
Definition new_session_id (user_id client_ip user_agent : string) (now : Z)
    (nonce : string) : string :=
  sha256_hexdigest
    (user_id ++ ":" ++ client_ip ++ ":" ++ user_agent ++ ":" ++ repr_time now ++ ":"
     ++ nonce ++ SECRET_KEY)%string.

Definition new_session (user_id client_ip user_agent : string)
    (device_fingerprint : option string) (now : Z) (session_id : string) : Session :=
  {| s_user_id := user_id; s_session_id := session_id; s_client_ip := client_ip;
     s_user_agent_hash := String.substring 0 16 (sha256_hexdigest user_agent);
     s_device_fingerprint := device_fingerprint;
     s_created_at := now; s_last_accessed := now;
     s_expires_at := now + ACCESS_TOKEN_EXPIRE_MINUTES * 60;
     s_access_count := 0; s_is_active := true;
     s_revoked_at := None; s_revoke_reason := None |}.

Definition store_session (st : State) (session_id : string) (s : Session) : State :=
  {| _active_sessions := <[session_id := s]> (_active_sessions st);
     _revoked_sessions := _revoked_sessions st;
     _user_sessions :=
       <[s_user_id s := default ∅ (_user_sessions st !! s_user_id s) ∪ {[session_id]}]>
         (_user_sessions st);
     last_cleanup := last_cleanup st |}.

(** The [if len(current_sessions) >= self.max_sessions_per_user] block.
    [min] of an empty set does not arise there. *)
Definition enforce_limit (st : State) (current_sessions : gset string) (now : Z) : State :=
  if max_sessions_per_user <=? Z.of_nat (size current_sessions) then
    match oldest st (set_order current_sessions) with
    | Some oldest_session => revoke_session st oldest_session "session_limit_exceeded" now
    | None => st
    end
  else st.

Definition create_session (st : State) (user_id client_ip user_agent : string)
    (device_fingerprint : option string) (now : Z) (nonce : string) : string * State :=
  let st := _cleanup_expired_sessions st now in
  let '(current_sessions, st) := _get_user_sessions st user_id now in
  let st := enforce_limit st current_sessions now in
  let session_id := new_session_id user_id client_ip user_agent now nonce in
  (session_id,
   store_session st session_id
     (new_session user_id client_ip user_agent device_fingerprint now session_id)).

(** Whether the IP check of [validate_session] turns the caller away. *)
Definition ip_rejected (stored current : string) : bool :=
  negb (String.eqb stored current) &&
  (let session_ip_parts := split_dots stored in
   let current_ip_parts := split_dots current in
   if (length session_ip_parts =? 4)%nat && (length current_ip_parts =? 4)%nat
   then negb (bool_decide (take 3 session_ip_parts = take 3 current_ip_parts))
   else true).

Definition touch (s : Session) (now : Z) : Session :=
  let expires_at :=
    if s_expires_at s - now <? 30 * 60 then now + ACCESS_TOKEN_EXPIRE_MINUTES * 60
    else s_expires_at s in
  {| s_user_id := s_user_id s; s_session_id := s_session_id s;
     s_client_ip := s_client_ip s; s_user_agent_hash := s_user_agent_hash s;
     s_device_fingerprint := s_device_fingerprint s;
     s_created_at := s_created_at s; s_last_accessed := now;
     s_expires_at := expires_at; s_access_count := s_access_count s + 1;
     s_is_active := s_is_active s; s_revoked_at := s_revoked_at s;
     s_revoke_reason := s_revoke_reason s |}.

(** [validate_session]; a user-agent mismatch is only logged. *)
Definition validate_session (st : State) (session_id client_ip user_agent : string)
    (require_ip_match : bool) (now : Z) : option Session * State :=
  match _active_sessions st !! session_id with
  | None => (None, st)
  | Some session_data =>
      if bool_decide (session_id ∈ _revoked_sessions st) then (None, st)
      else if s_expires_at session_data <? now
      then (None, revoke_session st session_id "expired" now)
      else if negb (s_is_active session_data) then (None, st)
      else if require_ip_match && ip_rejected (s_client_ip session_data) client_ip
      then (None, st)
      else
        let session_data' := touch session_data now in
        (Some session_data',
         {| _active_sessions := <[session_id := session_data']> (_active_sessions st);
            _revoked_sessions := _revoked_sessions st;
            _user_sessions := _user_sessions st;
            last_cleanup := last_cleanup st |})
  end.

Definition revoke_user_sessions (st : State) (user_id : string)
    (except_session : option string) (now : Z) : State :=
  let '(user_sessions, st) := _get_user_sessions st user_id now in
  foldl (fun st sid =>
           if bool_decide (Some sid = except_session) then st
           else revoke_session st sid "user_logout_all" now)
        st (set_order user_sessions).

Definition get_user_session_count (st : State) (user_id : string) (now : Z) : Z * State :=
  let '(ids, st) := _get_user_sessions st user_id now in
  (Z.of_nat (size ids), st).

Definition initial (t0 : Z) : State :=
  {| _active_sessions := ∅; _revoked_sessions := ∅; _user_sessions := ∅;
     last_cleanup := t0 |}.

(** The sessions of a user that are active, unrevoked and unexpired at a
    time. *)
Definition live (st : State) (user_id : string) (t : Z) (session_id : string) : Prop :=
  exists s, _active_sessions st !! session_id = Some s /\
            s_user_id s = user_id /\ s_is_active s = true /\
            (session_id ∉ _revoked_sessions st) /\ t <= s_expires_at s.

Definition live_sessions (st : State) (user_id : string) (t : Z) : gset string :=
  dom (filter (fun kv : string * Session =>
                 s_user_id kv.2 = user_id /\ s_is_active kv.2 = true /\
                 (kv.1 ∉ _revoked_sessions st) /\ t <= s_expires_at kv.2)
              (_active_sessions st)).

(** One use of the manager.  The clock does not run backwards, and a newly
    generated session id has not been issued before.  A configuration is the
    set of ids issued so far, the time of the last use, and the state. *)
Inductive step : gset string * Z * State -> gset string * Z * State -> Prop :=
| step_create issued clock st user_id client_ip user_agent device_fingerprint now nonce :
    clock <= now ->
    new_session_id user_id client_ip user_agent now nonce ∉ issued ->
    step (issued, clock, st)
         ({[new_session_id user_id client_ip user_agent now nonce]} ∪ issued, now,
          (create_session st user_id client_ip user_agent device_fingerprint now nonce).2)
| step_validate issued clock st session_id client_ip user_agent require_ip_match now :
    clock <= now ->
    step (issued, clock, st)
         (issued, now,
          (validate_session st session_id client_ip user_agent require_ip_match now).2)
| step_revoke issued clock st session_id reason now :
    clock <= now ->
    step (issued, clock, st) (issued, now, revoke_session st session_id reason now)
| step_revoke_user issued clock st user_id except_session now :
    clock <= now ->
    step (issued, clock, st)
         (issued, now, revoke_user_sessions st user_id except_session now)
| step_count issued clock st user_id now :
    clock <= now ->
    step (issued, clock, st) (issued, now, (get_user_session_count st user_id now).2).

Definition reachable (c : gset string * Z * State) : Prop :=
  exists t0, rtc step (∅, t0, initial t0) c.

(** *** The invariant *)

(** What holds of every reachable configuration: a session that could still
    validate is listed under its user; no user lists more than five ids; an
    id listed under a user belongs to that user; every id in the state has
    been issued; a revoked id is stored as inactive. *)
Record Inv (issued : gset string) (clock : Z) (st : State) : Prop := {
  inv_tracked : forall sid s,
    _active_sessions st !! sid = Some s -> s_is_active s = true ->
    sid ∉ _revoked_sessions st -> clock <= s_expires_at s ->
    exists ids, _user_sessions st !! s_user_id s = Some ids /\ sid ∈ ids;
  inv_cap : forall u ids, _user_sessions st !! u = Some ids -> (size ids <= 5)%nat;
  inv_owner : forall u ids sid s,
    _user_sessions st !! u = Some ids -> sid ∈ ids ->
    _active_sessions st !! sid = Some s -> s_user_id s = u;
  inv_issued_active : forall sid s, _active_sessions st !! sid = Some s -> sid ∈ issued;
  inv_issued_listed : forall u ids sid,
    _user_sessions st !! u = Some ids -> sid ∈ ids -> sid ∈ issued;
  inv_revoked : forall sid, sid ∈ _revoked_sessions st ->
    exists s, _active_sessions st !! sid = Some s /\ s_is_active s = false
}.

Lemma Inv_initial t0 : Inv ∅ t0 (initial t0).
Proof. split; cbn; intros; simplify_map_eq; set_solver. Qed.

Lemma Inv_clock issued clock clock' st :
  clock <= clock' -> Inv issued clock st -> Inv issued clock' st.
Proof.
  intros Hle [H1 H2 H3 H4 H5 H6]. split; try done.
  intros sid s Hs Ha Hr He. apply (H1 sid s); auto. lia.
Qed.

Lemma Inv_last_cleanup issued clock st t :
  Inv issued clock st ->
  Inv issued clock {| _active_sessions := _active_sessions st;
                      _revoked_sessions := _revoked_sessions st;
                      _user_sessions := _user_sessions st;
                      last_cleanup := t |}.
Proof. intros [H1 H2 H3 H4 H5 H6]. by split. Qed.

Lemma Inv_revoke issued clock st sid reason now :
  Inv issued clock st -> Inv issued clock (revoke_session st sid reason now).
Proof.
  intros [H1 H2 H3 H4 H5 H6]. unfold revoke_session.
  destruct (_active_sessions st !! sid) as [s0|] eqn:Hs0; [|by split].
  split; cbn [_active_sessions _revoked_sessions _user_sessions].
  - intros sid' s' Hs' Ha Hr He.
    destruct (decide (sid' = sid)) as [->|Hne].
    { rewrite lookup_insert_eq in Hs'. injection Hs' as <-. done. }
    rewrite lookup_insert_ne in Hs' by done.
    destruct (H1 sid' s' Hs' Ha) as (ids & Hids & Hin); [set_solver|done|].
    destruct (_user_sessions st !! s_user_id s0) as [ids0|] eqn:Hu0; [|eauto].
    destruct (decide (s_user_id s' = s_user_id s0)) as [Heq|Hneq].
    + rewrite Heq, lookup_insert_eq. rewrite Heq, Hu0 in Hids. injection Hids as ->.
      eexists. split; [done|]. set_solver.
    + rewrite lookup_insert_ne by done. eauto.
  - intros u ids Hids.
    destruct (_user_sessions st !! s_user_id s0) as [ids0|] eqn:Hu0; [|eauto].
    destruct (decide (u = s_user_id s0)) as [->|Hneq].
    + rewrite lookup_insert_eq in Hids. injection Hids as <-.
      etrans; [apply subseteq_size|by eapply H2]. set_solver.
    + rewrite lookup_insert_ne in Hids by done. eauto.
  - intros u ids sid' s' Hids Hin Hs'.
    assert (Hold : exists ids', _user_sessions st !! u = Some ids' /\ sid' ∈ ids' /\
                               (u = s_user_id s0 -> sid' <> sid)).
    { destruct (_user_sessions st !! s_user_id s0) as [ids0|] eqn:Hu0.
      - destruct (decide (u = s_user_id s0)) as [->|Hneq].
        + rewrite lookup_insert_eq in Hids. injection Hids as <-.
          exists ids0. set_solver.
        + rewrite lookup_insert_ne in Hids by done. exists ids. done.
      - exists ids. repeat split; auto. intros ->. congruence. }
    destruct Hold as (ids' & Hids' & Hin' & Hsid).
    destruct (decide (sid' = sid)) as [->|Hne].
    + rewrite lookup_insert_eq in Hs'. injection Hs' as <-. cbn.
      by eapply H3.
    + rewrite lookup_insert_ne in Hs' by done. by eapply H3.
  - intros sid' s' Hs'. destruct (decide (sid' = sid)) as [->|Hne]; [by eapply H4|].
    rewrite lookup_insert_ne in Hs' by done. by eapply H4.
  - intros u ids sid' Hids Hin.
    destruct (_user_sessions st !! s_user_id s0) as [ids0|] eqn:Hu0; [|by eapply H5].
    destruct (decide (u = s_user_id s0)) as [->|Hneq].
    + rewrite lookup_insert_eq in Hids. injection Hids as <-.
      eapply H5; [done|]. set_solver.
    + rewrite lookup_insert_ne in Hids by done. by eapply H5.
  - intros sid' Hin. destruct (decide (sid' = sid)) as [->|Hne].
    + rewrite lookup_insert_eq. eauto.
    + rewrite lookup_insert_ne by done. apply H6. set_solver.
Qed.

Lemma Inv_purge issued clock st sid :
  Inv issued clock st -> Inv issued clock (purge st sid).
Proof.
  intros [H1 H2 H3 H4 H5 H6]. unfold purge.
  split; cbn [_active_sessions _revoked_sessions _user_sessions]; try done.
  - intros sid' s' Hs' Ha Hr He.
    apply lookup_delete_Some in Hs' as [Hne Hs'].
    apply (H1 sid' s'); auto. set_solver.
  - intros u ids sid' s' Hids Hin Hs'.
    apply lookup_delete_Some in Hs' as [Hne Hs']. by eapply H3.
  - intros sid' s' Hs'. apply lookup_delete_Some in Hs' as [Hne Hs']. by eapply H4.
  - intros sid' Hin. apply elem_of_difference in Hin as [Hin Hne].
    destruct (H6 sid' Hin) as (s & Hs & Ha). exists s. split; [|done].
    rewrite lookup_delete_ne; [done|]. set_solver.
Qed.

Lemma is_current_spec st now sid :
  is_current st now sid = true <->
  exists s, _active_sessions st !! sid = Some s /\ s_is_active s = true /\
            (sid ∉ _revoked_sessions st) /\ now <= s_expires_at s.
Proof.
  unfold is_current. destruct (_active_sessions st !! sid) as [s|]; [|naive_solver].
  rewrite !andb_true_iff, bool_decide_eq_true, Z.leb_le. naive_solver.
Qed.

Lemma Inv_get_user_sessions issued now st u :
  Inv issued now st -> Inv issued now (_get_user_sessions st u now).2.
Proof.
  intros [H1 H2 H3 H4 H5 H6]. unfold _get_user_sessions.
  destruct (_user_sessions st !! u) as [ids0|] eqn:Hu0; [|by split].
  split; cbn [snd _active_sessions _revoked_sessions _user_sessions]; try done.
  - intros sid s Hs Ha Hr He.
    destruct (H1 sid s Hs Ha Hr He) as (ids & Hids & Hin).
    destruct (decide (s_user_id s = u)) as [Heq|Hneq].
    + rewrite Heq, lookup_insert_eq. rewrite Heq, Hu0 in Hids. injection Hids as ->.
      eexists. split; [done|]. apply elem_of_filter. split; [|done].
      apply Is_true_true, is_current_spec. eauto.
    + rewrite lookup_insert_ne by done. eauto.
  - intros u' ids Hids. destruct (decide (u' = u)) as [->|Hneq].
    + rewrite lookup_insert_eq in Hids. injection Hids as <-.
      etrans; [apply subseteq_size|by eapply H2].
      intros x Hx. by apply elem_of_filter in Hx as [_ Hx].
    + rewrite lookup_insert_ne in Hids by done. eauto.
  - intros u' ids sid s Hids Hin Hs. destruct (decide (u' = u)) as [->|Hneq].
    + rewrite lookup_insert_eq in Hids. injection Hids as <-.
      apply elem_of_filter in Hin as [_ Hin]. by eapply H3.
    + rewrite lookup_insert_ne in Hids by done. by eapply H3.
  - intros u' ids sid Hids Hin. destruct (decide (u' = u)) as [->|Hneq].
    + rewrite lookup_insert_eq in Hids. injection Hids as <-.
      apply elem_of_filter in Hin as [_ Hin]. by eapply H5.
    + rewrite lookup_insert_ne in Hids by done. by eapply H5.
Qed.

Lemma Inv_foldl {A} issued clock (f : State -> A -> State) (l : list A) st :
  (forall st a, Inv issued clock st -> Inv issued clock (f st a)) ->
  Inv issued clock st -> Inv issued clock (foldl f st l).
Proof.
  intros Hf. revert st. induction l as [|a l IH]; intros st Hst; cbn; [done|].
  apply IH, Hf, Hst.
Qed.

Lemma Inv_cleanup issued clock st now :
  Inv issued clock st -> Inv issued clock (_cleanup_expired_sessions st now).
Proof.
  intros Hst. unfold _cleanup_expired_sessions.
  destruct (now - last_cleanup st <? cleanup_interval); [done|].
  apply Inv_last_cleanup. apply Inv_foldl; [intros; by apply Inv_purge|].
  apply Inv_foldl; [intros; by apply Inv_revoke|done].
Qed.

Lemma Inv_validate issued now st sid ip ua req :
  Inv issued now st -> Inv issued now (validate_session st sid ip ua req now).2.
Proof.
  intros Hst. unfold validate_session.
  destruct (_active_sessions st !! sid) as [s|] eqn:Hs; [|done].
  case_bool_decide as Hrev; [done|].
  destruct (Z.ltb_spec (s_expires_at s) now) as [|Hexp]; [by apply Inv_revoke|].
  destruct (s_is_active s) eqn:Hact; [|done]. cbn [negb].
  destruct (req && ip_rejected (s_client_ip s) ip); [done|].
  destruct Hst as [H1 H2 H3 H4 H5 H6].
  split; cbn [snd _active_sessions _revoked_sessions _user_sessions]; try done.
  - intros sid' s' Hs' Ha Hr He. destruct (decide (sid' = sid)) as [->|Hne].
    + rewrite lookup_insert_eq in Hs'. injection Hs' as <-. cbn [touch s_user_id].
      by apply (H1 sid s).
    + rewrite lookup_insert_ne in Hs' by done. by apply (H1 sid' s').
  - intros u ids sid' s' Hids Hin Hs'. destruct (decide (sid' = sid)) as [->|Hne].
    + rewrite lookup_insert_eq in Hs'. injection Hs' as <-. cbn [touch s_user_id].
      by eapply H3.
    + rewrite lookup_insert_ne in Hs' by done. by eapply H3.
  - intros sid' s' Hs'. destruct (decide (sid' = sid)) as [->|Hne]; [by eapply H4|].
    rewrite lookup_insert_ne in Hs' by done. by eapply H4.
  - intros sid' Hin. destruct (decide (sid' = sid)) as [->|Hne]; [done|].
    rewrite lookup_insert_ne by done. by apply H6.
Qed.

Lemma Inv_store issued clock st sid s :
  Inv issued clock st -> sid ∉ issued ->
  (size (default ∅ (_user_sessions st !! s_user_id s)) < 5)%nat ->
  Inv ({[sid]} ∪ issued) clock (store_session st sid s).
Proof.
  intros [H1 H2 H3 H4 H5 H6] Hfresh Hroom.
  assert (Hnew : sid ∉ default ∅ (_user_sessions st !! s_user_id s)).
  { destruct (_user_sessions st !! s_user_id s) as [ids|] eqn:Hu; cbn; [|set_solver].
    intros Hin. apply Hfresh. by eapply H5. }
  split; cbn [store_session _active_sessions _revoked_sessions _user_sessions].
  - intros sid' s' Hs' Ha Hr He. destruct (decide (sid' = sid)) as [->|Hne].
    + rewrite lookup_insert_eq in Hs'. injection Hs' as <-.
      rewrite lookup_insert_eq. eexists. split; [done|]. set_solver.
    + rewrite lookup_insert_ne in Hs' by done.
      destruct (H1 sid' s' Hs' Ha Hr He) as (ids & Hids & Hin).
      destruct (decide (s_user_id s' = s_user_id s)) as [Heq|Hneq].
      * rewrite Heq, lookup_insert_eq. rewrite Heq in Hids. rewrite Hids. cbn.
        eexists. split; [done|]. set_solver.
      * rewrite lookup_insert_ne by done. eauto.
  - intros u ids Hids. destruct (decide (u = s_user_id s)) as [->|Hneq].
    + rewrite lookup_insert_eq in Hids. injection Hids as <-.
      rewrite size_union by set_solver. rewrite size_singleton. lia.
    + rewrite lookup_insert_ne in Hids by done. eauto.
  - intros u ids sid' s' Hids Hin Hs'. destruct (decide (sid' = sid)) as [->|Hne].
    + rewrite lookup_insert_eq in Hs'. injection Hs' as <-.
      destruct (decide (u = s_user_id s)) as [->|Hneq]; [done|].
      rewrite lookup_insert_ne in Hids by done. exfalso. apply Hfresh. by eapply H5.
    + rewrite lookup_insert_ne in Hs' by done.
      destruct (decide (u = s_user_id s)) as [->|Hneq].
      * rewrite lookup_insert_eq in Hids. injection Hids as <-.
        apply elem_of_union in Hin as [Hin|Hin]; [|set_solver].
        destruct (_user_sessions st !! s_user_id s) as [ids|] eqn:Hu; cbn in Hin;
          [by eapply H3|set_solver].
      * rewrite lookup_insert_ne in Hids by done. by eapply H3.
  - intros sid' s' Hs'. destruct (decide (sid' = sid)) as [->|Hne]; [set_solver|].
    rewrite lookup_insert_ne in Hs' by done. apply elem_of_union_r. by eapply H4.
  - intros u ids sid' Hids Hin. destruct (decide (u = s_user_id s)) as [->|Hneq].
    + rewrite lookup_insert_eq in Hids. injection Hids as <-.
      apply elem_of_union in Hin as [Hin|Hin]; [|set_solver].
      destruct (_user_sessions st !! s_user_id s) as [ids|] eqn:Hu; cbn in Hin;
        [|set_solver].
      apply elem_of_union_r. by eapply H5.
    + rewrite lookup_insert_ne in Hids by done. apply elem_of_union_r. by eapply H5.
  - intros sid' Hin. destruct (H6 sid' Hin) as (s' & Hs' & Ha).
    assert (sid' <> sid) by (intros ->; apply Hfresh; by eapply H4).
    rewrite lookup_insert_ne by done. eauto.
Qed.

(** *** The oldest session *)

Lemma oldest_from st l b :
  exists o,
    foldl (fun best sid =>
             match best with
             | None => Some sid
             | Some b => if created_of st sid <? created_of st b then Some sid else Some b
             end) (Some b) l = Some o /\
    (o = b \/ o ∈ l) /\ created_of st o <= created_of st b /\
    forall x, x ∈ l -> created_of st o <= created_of st x.
Proof.
  revert b. induction l as [|a l IH]; intros b; cbn [foldl].
  - exists b. split; [done|]. split; [by left|]. split; [lia|]. intros x Hx.
    by apply elem_of_nil in Hx.
  - destruct (Z.ltb_spec (created_of st a) (created_of st b)) as [Hlt|Hge].
    + destruct (IH a) as (o & Ho & Hin & Hle & Hall). exists o. split; [done|].
      split; [right; destruct Hin as [->|]; [left|by right]|].
      split; [lia|]. intros x Hx. apply elem_of_cons in Hx as [->|Hx]; auto.
    + destruct (IH b) as (o & Ho & Hin & Hle & Hall). exists o. split; [done|].
      split; [destruct Hin as [->|]; [by left|right; by right]|].
      split; [lia|]. intros x Hx. apply elem_of_cons in Hx as [->|Hx]; [lia|auto].
Qed.

Lemma oldest_spec st l :
  l <> [] ->
  exists o, oldest st l = Some o /\ o ∈ l /\
            forall x, x ∈ l -> created_of st o <= created_of st x.
Proof.
  destruct l as [|a l]; [done|]. intros _. unfold oldest. cbn [foldl].
  destruct (oldest_from st l a) as (o & Ho & Hin & Hle & Hall).
  exists o. split; [done|]. split.
  - destruct Hin as [->|]; [left|by right].
  - intros x Hx. apply elem_of_cons in Hx as [->|Hx]; auto.
Qed.

Lemma set_order_nonempty (ids : gset string) : ids <> ∅ -> set_order ids <> [].
Proof.
  intros Hne Hnil. apply Hne. apply set_eq. intros x.
  rewrite <- set_order_members, Hnil. set_solver.
Qed.

(** *** Creating a session *)

Lemma get_user_sessions_listed st u now :
  default ∅ (_user_sessions (_get_user_sessions st u now).2 !! u)
  = (_get_user_sessions st u now).1.
Proof.
  unfold _get_user_sessions. destruct (_user_sessions st !! u) as [ids|] eqn:Hu; cbn.
  - by rewrite lookup_insert_eq.
  - by rewrite Hu.
Qed.

Lemma get_user_sessions_current st u now sid :
  sid ∈ (_get_user_sessions st u now).1 ->
  is_current (_get_user_sessions st u now).2 now sid = true.
Proof.
  unfold _get_user_sessions. destruct (_user_sessions st !! u) as [ids|] eqn:Hu; cbn.
  - intros Hin. apply elem_of_filter in Hin as [Hc _]. by apply Is_true_true in Hc.
  - set_solver.
Qed.

Lemma enforce_limit_room issued now st u :
  Inv issued now st ->
  let current := (_get_user_sessions st u now).1 in
  let st1 := (_get_user_sessions st u now).2 in
  (size (default ∅ (_user_sessions (enforce_limit st1 current now) !! u)) < 5)%nat.
Proof.
  intros Hst current st1.
  assert (Hst1 : Inv issued now st1) by by apply Inv_get_user_sessions.
  pose proof (get_user_sessions_listed st u now) as Hlisted.
  fold current st1 in Hlisted.
  unfold enforce_limit, max_sessions_per_user.
  destruct (Z.leb_spec 5 (Z.of_nat (size current))) as [Hfull|Hroom];
    [|rewrite Hlisted; lia].
  assert (Hne : current <> ∅).
  { intros Hempty. rewrite Hempty, size_empty in Hfull. lia. }
  destruct (oldest_spec st1 (set_order current) (set_order_nonempty _ Hne))
    as (o & -> & Hin & _).
  apply set_order_members in Hin.
  destruct (_user_sessions st1 !! u) as [ids|] eqn:Hu; cbn in Hlisted;
    [subst ids|congruence].
  pose proof (get_user_sessions_current st u now o Hin) as Hcur.
  fold st1 in Hcur. apply is_current_spec in Hcur as (s & Hs & _).
  assert (Hown : s_user_id s = u) by (by eapply (inv_owner _ _ _ Hst1)).
  unfold revoke_session. rewrite Hs, Hown, Hu. cbn [_user_sessions].
  rewrite lookup_insert_eq. cbn.
  pose proof (inv_cap _ _ _ Hst1 u current Hu) as Hcap.
  rewrite size_difference by set_solver. rewrite size_singleton.
  assert (0 < size current)%nat by lia. lia.
Qed.

Lemma Inv_enforce_limit issued clock st current now :
  Inv issued clock st -> Inv issued clock (enforce_limit st current now).
Proof.
  intros Hst. unfold enforce_limit.
  destruct (_ <=? _); [|done].
  destruct (oldest _ _); [by apply Inv_revoke|done].
Qed.

Lemma create_session_unfold st user_id client_ip user_agent device_fingerprint now nonce :
  let st0 := _cleanup_expired_sessions st now in
  let current := (_get_user_sessions st0 user_id now).1 in
  let st1 := (_get_user_sessions st0 user_id now).2 in
  let sid := new_session_id user_id client_ip user_agent now nonce in
  create_session st user_id client_ip user_agent device_fingerprint now nonce =
  (sid, store_session (enforce_limit st1 current now) sid
          (new_session user_id client_ip user_agent device_fingerprint now sid)).
Proof.
  cbv zeta. unfold create_session.
  by destruct (_get_user_sessions (_cleanup_expired_sessions st now) user_id now).
Qed.

Lemma Inv_create issued now st user_id client_ip user_agent device_fingerprint nonce :
  Inv issued now st ->
  new_session_id user_id client_ip user_agent now nonce ∉ issued ->
  Inv ({[new_session_id user_id client_ip user_agent now nonce]} ∪ issued) now
      (create_session st user_id client_ip user_agent device_fingerprint now nonce).2.
Proof.
  intros Hst Hfresh. rewrite create_session_unfold. cbn [snd].
  assert (Hst0 : Inv issued now (_cleanup_expired_sessions st now)) by by apply Inv_cleanup.
  apply Inv_store; [|done|].
  - by apply Inv_enforce_limit, Inv_get_user_sessions.
  - cbn [new_session s_user_id]. by eapply enforce_limit_room.
Qed.

Lemma Inv_revoke_user issued now st user_id except_session :
  Inv issued now st -> Inv issued now (revoke_user_sessions st user_id except_session now).
Proof.
  intros Hst. unfold revoke_user_sessions.
  pose proof (Inv_get_user_sessions issued now st user_id Hst) as Hst1.
  destruct (_get_user_sessions st user_id now) as [ids st1]. cbn [snd] in Hst1.
  apply Inv_foldl; [|done].
  intros st' sid Hst'. case_bool_decide; [done|by apply Inv_revoke].
Qed.

Lemma Inv_step c c' :
  step c c' -> Inv c.1.1 c.1.2 c.2 -> Inv c'.1.1 c'.1.2 c'.2.
Proof.
  intros Hstep. destruct Hstep as
    [issued clock st user_id client_ip user_agent device_fingerprint now nonce Hle Hfresh
    |issued clock st session_id client_ip user_agent require_ip_match now Hle
    |issued clock st session_id reason now Hle
    |issued clock st user_id except_session now Hle
    |issued clock st user_id now Hle]; cbn [fst snd]; intros Hst;
    apply (Inv_clock _ _ now) in Hst; try done.
  - by apply Inv_create.
  - by apply Inv_validate.
  - by apply Inv_revoke.
  - by apply Inv_revoke_user.
  - unfold get_user_session_count.
    pose proof (Inv_get_user_sessions issued now st user_id Hst) as Hst1.
    by destruct (_get_user_sessions st user_id now).
Qed.

Lemma Inv_steps c c' :
  rtc step c c' -> Inv c.1.1 c.1.2 c.2 -> Inv c'.1.1 c'.1.2 c'.2.
Proof. induction 1 as [|c1 c2 c3 Hstep _ IH]; [done|]. intros. by apply IH, (Inv_step c1). Qed.

Lemma Inv_reachable issued clock st : reachable (issued, clock, st) -> Inv issued clock st.
Proof.
  intros [t0 Hsteps]. apply (Inv_steps _ _ Hsteps). cbn. apply Inv_initial.
Qed.

(** *** Sessions that can still validate *)

Definition alive (st : State) (t : Z) (sid : string) (s : Session) : Prop :=
  _active_sessions st !! sid = Some s /\ s_is_active s = true /\
  (sid ∉ _revoked_sessions st) /\ t <= s_expires_at s.

(** Two states with the same sessions able to validate at [t], record for
    record. *)
Definition same_alive (t : Z) (st st' : State) : Prop :=
  forall sid s, alive st' t sid s <-> alive st t sid s.

Lemma elem_of_live_sessions st u t sid :
  sid ∈ live_sessions st u t <-> exists s, alive st t sid s /\ s_user_id s = u.
Proof.
  unfold live_sessions, alive. rewrite elem_of_dom. unfold is_Some.
  setoid_rewrite map_lookup_filter_Some. cbn [fst snd]. naive_solver.
Qed.

Lemma same_alive_refl t st : same_alive t st st.
Proof. by intros sid s. Qed.

Lemma same_alive_trans t st1 st2 st3 :
  same_alive t st1 st2 -> same_alive t st2 st3 -> same_alive t st1 st3.
Proof. intros H12 H23 sid s. etrans; [apply H23|apply H12]. Qed.

Lemma same_alive_live_sessions t st st' u :
  same_alive t st st' -> live_sessions st' u t = live_sessions st u t.
Proof.
  intros H. apply set_eq. intros sid. rewrite !elem_of_live_sessions.
  split; intros (s & Hal & Hu); exists s; (split; [by apply H|done]).
Qed.

Lemma revoke_same_alive t st x reason now :
  (forall s, ~ alive st t x s) -> same_alive t st (revoke_session st x reason now).
Proof.
  intros Hx sid s. unfold revoke_session, alive.
  destruct (_active_sessions st !! x) as [s0|] eqn:Hs0; [|done].
  cbn [_active_sessions _revoked_sessions].
  destruct (decide (sid = x)) as [->|Hne].
  - rewrite lookup_insert_eq. split.
    + intros ([= <-] & Ha & _). done.
    + intros H. by destruct (Hx s).
  - rewrite lookup_insert_ne by done. set_solver.
Qed.

Lemma purge_same_alive t st x :
  (forall s, ~ alive st t x s) -> same_alive t st (purge st x).
Proof.
  intros Hx sid s. unfold purge, alive. cbn [_active_sessions _revoked_sessions].
  destruct (decide (sid = x)) as [->|Hne].
  - rewrite lookup_delete_eq. split; [naive_solver|]. intros H. by destruct (Hx s).
  - rewrite lookup_delete_ne by done. set_solver.
Qed.

Lemma foldl_same_alive t (f : State -> string -> State) (l : list string) st :
  (forall st x, (forall s, ~ alive st t x s) -> same_alive t st (f st x)) ->
  (forall x, x ∈ l -> forall s, ~ alive st t x s) ->
  same_alive t st (foldl f st l).
Proof.
  intros Hf. revert st. induction l as [|a l IH]; intros st Hl; cbn [foldl].
  - apply same_alive_refl.
  - assert (Ha : same_alive t st (f st a)) by (apply Hf, Hl; left).
    eapply same_alive_trans; [exact Ha|]. apply IH.
    intros x Hx s Hal. apply Ha in Hal. revert Hal. apply Hl. by right.
Qed.

Lemma cleanup_same_alive st now : same_alive now st (_cleanup_expired_sessions st now).
Proof.
  unfold _cleanup_expired_sessions.
  destruct (now - last_cleanup st <? cleanup_interval); [apply same_alive_refl|].
  set (expired := filter _ _).
  set (st1 := foldl (fun st sid => revoke_session st sid "expired" now) st expired).
  set (old := filter _ _).
  assert (H1 : same_alive now st st1).
  { apply (foldl_same_alive now (fun st sid => revoke_session st sid "expired" now)).
    - intros st' x Hx. by apply revoke_same_alive.
    - intros x Hx s (Hs & _ & _ & He). subst expired.
      apply list_elem_of_filter in Hx as [Hx _]. apply Is_true_true in Hx.
      unfold is_expired in Hx. rewrite Hs in Hx. apply Z.ltb_lt in Hx. lia. }
  assert (H2 : same_alive now st1 (foldl purge st1 old)).
  { apply (foldl_same_alive now purge).
    - intros st' x Hx. by apply purge_same_alive.
    - intros x Hx s (_ & _ & Hr & _). subst old.
      apply list_elem_of_filter in Hx as [_ Hx]. apply set_order_members in Hx. done. }
  intros sid s. etrans; [|apply H1]. etrans; [|apply H2]. done.
Qed.

Lemma get_user_sessions_live issued now st u :
  Inv issued now st -> (_get_user_sessions st u now).1 = live_sessions st u now.
Proof.
  intros Hst. apply set_eq. intros sid. rewrite elem_of_live_sessions.
  unfold _get_user_sessions. destruct (_user_sessions st !! u) as [ids|] eqn:Hu; cbn [fst].
  - rewrite elem_of_filter. split.
    + intros [Hc Hin]. apply Is_true_true, is_current_spec in Hc as (s & Hs & Ha & Hr & He).
      exists s. split; [done|]. by eapply (inv_owner _ _ _ Hst).
    + intros (s & (Hs & Ha & Hr & He) & Hus).
      destruct (inv_tracked _ _ _ Hst sid s Hs Ha Hr He) as (ids' & Hids' & Hin).
      rewrite Hus, Hu in Hids'. injection Hids' as <-. split; [|done].
      apply Is_true_true, is_current_spec. eauto.
  - split; [set_solver|]. intros (s & (Hs & Ha & Hr & He) & Hus).
    destruct (inv_tracked _ _ _ Hst sid s Hs Ha Hr He) as (ids' & Hids' & Hin).
    congruence.
Qed.

Lemma get_user_sessions_sessions st u now :
  _active_sessions (_get_user_sessions st u now).2 = _active_sessions st /\
  _revoked_sessions (_get_user_sessions st u now).2 = _revoked_sessions st.
Proof. unfold _get_user_sessions. by destruct (_user_sessions st !! u). Qed.

(** The user cap. *)
Lemma live_sessions_bounded issued clock st u t :
  Inv issued clock st -> clock <= t -> (size (live_sessions st u t) <= 5)%nat.
Proof.
  intros Hst Hle.
  destruct (_user_sessions st !! u) as [ids|] eqn:Hu.
  - etrans; [apply subseteq_size|by eapply (inv_cap _ _ _ Hst)].
    intros sid Hin. apply elem_of_live_sessions in Hin as (s & (Hs & Ha & Hr & He) & Hus).
    destruct (inv_tracked _ _ _ Hst sid s Hs Ha Hr) as (ids' & Hids' & Hin'); [lia|].
    congruence.
  - assert (Hempty : live_sessions st u t = ∅).
    { apply set_eq. intros sid. split; [|set_solver].
      intros Hin. apply elem_of_live_sessions in Hin as (s & (Hs & Ha & Hr & He) & Hus).
      destruct (inv_tracked _ _ _ Hst sid s Hs Ha Hr) as (ids' & Hids' & Hin'); [lia|].
      congruence. }
    rewrite Hempty, size_empty. lia.
Qed.

(** Creating a session for a user who has five. *)
Lemma create_at_cap issued now st u client_ip user_agent device_fingerprint nonce :
  Inv issued now st ->
  new_session_id u client_ip user_agent now nonce ∉ issued ->
  (5 <= size (live_sessions st u now))%nat ->
  let sid := new_session_id u client_ip user_agent now nonce in
  let res := create_session st u client_ip user_agent device_fingerprint now nonce in
  res.1 = sid /\
  _active_sessions res.2 !! sid =
    Some (new_session u client_ip user_agent device_fingerprint now sid) /\
  (sid ∉ _revoked_sessions res.2) /\
  exists old s,
    old ∈ live_sessions st u now /\
    (forall x, x ∈ live_sessions st u now -> created_of st old <= created_of st x) /\
    old ∈ _revoked_sessions res.2 /\
    _active_sessions st !! old = Some s /\
    _active_sessions res.2 !! old = Some (mark_revoked s "session_limit_exceeded" now).
Proof.
  intros Hst Hfresh Hfull sid res. subst res. rewrite create_session_unfold. cbn [fst snd].
  fold sid.
  set (st0 := _cleanup_expired_sessions st now).
  assert (Hst0 : Inv issued now st0) by by apply Inv_cleanup.
  pose proof (cleanup_same_alive st now) as Hsame. fold st0 in Hsame.
  pose proof (get_user_sessions_live issued now st0 u Hst0) as Hcur.
  rewrite (same_alive_live_sessions now st st0 u Hsame) in Hcur.
  destruct (get_user_sessions_sessions st0 u now) as [Hact1 Hrev1].
  pose proof (Inv_get_user_sessions issued now st0 u Hst0) as Hst1.
  set (current := (_get_user_sessions st0 u now).1) in *.
  set (st1 := (_get_user_sessions st0 u now).2) in *.
  assert (Hne : current <> ∅).
  { intros Hempty. rewrite Hcur in Hempty. rewrite Hempty, size_empty in Hfull. lia. }
  destruct (oldest_spec st1 (set_order current) (set_order_nonempty _ Hne))
    as (o & Ho & Hin & Hmin).
  apply set_order_members in Hin.
  assert (Hlive : forall x, x ∈ current ->
            exists s, _active_sessions st !! x = Some s /\
                      _active_sessions st1 !! x = Some s /\
                      (x ∉ _revoked_sessions st1) /\ x ∈ issued).
  { intros x Hx. rewrite Hcur in Hx.
    apply elem_of_live_sessions in Hx as (s & Hal & _).
    pose proof Hal as (Hs & _). apply Hsame in Hal as (Hs0 & _ & Hr0 & _).
    exists s. rewrite Hact1, Hrev1. repeat split; auto.
    by eapply (inv_issued_active _ _ _ Hst). }
  assert (Hcreated : forall x, x ∈ current -> created_of st1 x = created_of st x).
  { intros x Hx. destruct (Hlive x Hx) as (s & Hs & Hs1 & _).
    unfold created_of. by rewrite Hs, Hs1. }
  destruct (Hlive o Hin) as (s & Hs & Hs1 & Hr1 & Hiss).
  assert (Hsid : sid <> o) by (intros Heq; apply Hfresh; by rewrite <- Heq in Hiss).
  assert (Henf : enforce_limit st1 current now =
                 revoke_session st1 o "session_limit_exceeded" now).
  { unfold enforce_limit, max_sessions_per_user. rewrite Ho.
    destruct (Z.leb_spec 5 (Z.of_nat (size current))) as [|Hlt]; [done|].
    rewrite Hcur in Hlt. lia. }
  rewrite Henf. unfold revoke_session. rewrite Hs1.
  cbn [store_session _active_sessions _revoked_sessions].
  split; [done|]. split; [by rewrite lookup_insert_eq|]. split.
  - intros Hin'. apply elem_of_union in Hin' as [Hin'|Hin']; [set_solver|].
    rewrite Hrev1 in Hin'. apply Hfresh.
    destruct (inv_revoked _ _ _ Hst0 sid Hin') as (s' & Hs' & _).
    by eapply (inv_issued_active _ _ _ Hst0).
  - exists o, s. rewrite <- Hcur. split; [done|]. split.
    + intros x Hx. rewrite <- (Hcreated o Hin), <- (Hcreated x Hx).
      apply Hmin. by apply set_order_members.
    + split; [set_solver|]. split; [done|].
      rewrite lookup_insert_ne by done. by rewrite lookup_insert_eq.
Qed.

(** *** A revoked id stays unusable *)

Definition dead (st : State) (sid : string) : Prop :=
  match _active_sessions st !! sid with
  | None => True
  | Some s => s_is_active s = false
  end.

Lemma dead_validate st sid ip ua req now :
  dead st sid -> (validate_session st sid ip ua req now).1 = None.
Proof.
  unfold dead, validate_session.
  destruct (_active_sessions st !! sid) as [s|]; [|done]. intros Ha.
  case_bool_decide; [done|]. destruct (_ <? _); [done|]. by rewrite Ha.
Qed.

Lemma dead_revoke st sid x reason now :
  dead st sid -> dead (revoke_session st x reason now) sid.
Proof.
  unfold dead, revoke_session.
  destruct (_active_sessions st !! x) as [s0|] eqn:Hs0; [|done].
  cbn [_active_sessions]. destruct (decide (sid = x)) as [->|Hne].
  - by rewrite lookup_insert_eq.
  - by rewrite lookup_insert_ne.
Qed.

Lemma dead_purge st sid x : dead st sid -> dead (purge st x) sid.
Proof.
  unfold dead, purge. cbn [_active_sessions]. destruct (decide (sid = x)) as [->|Hne].
  - by rewrite lookup_delete_eq.
  - by rewrite lookup_delete_ne.
Qed.

Lemma dead_foldl {A} (f : State -> A -> State) (l : list A) st sid :
  (forall st a, dead st sid -> dead (f st a) sid) ->
  dead st sid -> dead (foldl f st l) sid.
Proof.
  intros Hf. revert st. induction l as [|a l IH]; intros st Hst; cbn; [done|].
  apply IH, Hf, Hst.
Qed.

Lemma dead_cleanup st sid now : dead st sid -> dead (_cleanup_expired_sessions st now) sid.
Proof.
  intros Hst. unfold _cleanup_expired_sessions. destruct (_ <? _); [done|].
  unfold dead. cbn [_active_sessions]. fold (dead (foldl purge
    (foldl (fun st sid => revoke_session st sid "expired" now) st
       (filter (fun sid => is_expired st now sid)
          (set_order (dom (_active_sessions st)))))
    (filter (fun sid => is_old_revoked
       (foldl (fun st sid => revoke_session st sid "expired" now) st
          (filter (fun sid => is_expired st now sid)
             (set_order (dom (_active_sessions st))))) now sid)
       (set_order (_revoked_sessions
          (foldl (fun st sid => revoke_session st sid "expired" now) st
             (filter (fun sid => is_expired st now sid)
                (set_order (dom (_active_sessions st))))))))) sid).
  apply dead_foldl; [intros; by apply dead_purge|].
  apply dead_foldl; [intros; by apply dead_revoke|done].
Qed.

Lemma dead_get_user_sessions st sid u now :
  dead st sid -> dead (_get_user_sessions st u now).2 sid.
Proof.
  unfold dead. by destruct (get_user_sessions_sessions st u now) as [-> _].
Qed.

Lemma dead_step c c' sid :
  step c c' -> sid ∈ c.1.1 -> dead c.2 sid -> sid ∈ c'.1.1 /\ dead c'.2 sid.
Proof.
  intros Hstep. destruct Hstep as
    [issued clock st user_id client_ip user_agent device_fingerprint now nonce Hle Hfresh
    |issued clock st session_id client_ip user_agent require_ip_match now Hle
    |issued clock st session_id reason now Hle
    |issued clock st user_id except_session now Hle
    |issued clock st user_id now Hle]; cbn [fst snd]; intros Hiss Hdead.
  - split; [set_solver|]. rewrite create_session_unfold. cbn [snd].
    assert (sid <> new_session_id user_id client_ip user_agent now nonce) by congruence.
    unfold dead, store_session. cbn [_active_sessions]. rewrite lookup_insert_ne by done.
    change (dead (enforce_limit
                    (_get_user_sessions (_cleanup_expired_sessions st now) user_id now).2
                    (_get_user_sessions (_cleanup_expired_sessions st now) user_id now).1
                    now) sid).
    unfold enforce_limit. destruct (_ <=? _).
    + destruct (oldest _ _);
        [apply dead_revoke|]; by apply dead_get_user_sessions, dead_cleanup.
    + by apply dead_get_user_sessions, dead_cleanup.
  - split; [done|]. unfold validate_session.
    destruct (_active_sessions st !! session_id) as [s|] eqn:Hs; [|done].
    case_bool_decide; [done|]. destruct (_ <? _); [by apply dead_revoke|].
    destruct (negb _); [done|]. destruct (_ && _); [done|].
    unfold dead in *. cbn [snd _active_sessions].
    destruct (decide (sid = session_id)) as [->|Hne].
    + rewrite lookup_insert_eq. rewrite Hs in Hdead. done.
    + by rewrite lookup_insert_ne.
  - split; [done|]. by apply dead_revoke.
  - split; [done|]. unfold revoke_user_sessions.
    pose proof (dead_get_user_sessions st sid user_id now Hdead) as Hd.
    destruct (_get_user_sessions st user_id now) as [ids st1]. cbn [snd] in Hd.
    apply dead_foldl; [|done]. intros st' x Hst'. case_bool_decide; [done|].
    by apply dead_revoke.
  - split; [done|]. unfold get_user_session_count.
    pose proof (dead_get_user_sessions st sid user_id now Hdead) as Hd.
    by destruct (_get_user_sessions st user_id now).
Qed.

Lemma dead_steps c c' sid :
  rtc step c c' -> sid ∈ c.1.1 -> dead c.2 sid -> dead c'.2 sid.
Proof.
  induction 1 as [|c1 c2 c3 Hstep _ IH]; [done|]. intros Hiss Hdead.
  destruct (dead_step c1 c2 sid Hstep Hiss Hdead). by apply IH.
Qed.

(** C6. Session cap with oldest-first eviction.  In every reachable
    configuration: (1) at any time from the last use on, each user has at
    most five sessions that are active, unrevoked and unexpired; (2) creating
    a session for a user who has five of them returns the new id, with its
    session stored and not revoked, after revoking, with the reason
    [session_limit_exceeded], one of the five whose [created_at] none of the
    others undercuts; (3) an id that is in the revoked set is refused by
    [validate_session] in every configuration reached from there, whatever
    the caller and the time. *)
Theorem session_cap_and_revocation issued clock st :
  reachable (issued, clock, st) ->
  (forall u t, clock <= t -> (size (live_sessions st u t) <= 5)%nat) /\
  (forall u client_ip user_agent device_fingerprint now nonce,
     clock <= now ->
     new_session_id u client_ip user_agent now nonce ∉ issued ->
     (5 <= size (live_sessions st u now))%nat ->
     let sid := new_session_id u client_ip user_agent now nonce in
     let res := create_session st u client_ip user_agent device_fingerprint now nonce in
     res.1 = sid /\
     _active_sessions res.2 !! sid =
       Some (new_session u client_ip user_agent device_fingerprint now sid) /\
     (sid ∉ _revoked_sessions res.2) /\
     exists old s,
       old ∈ live_sessions st u now /\
       (forall x, x ∈ live_sessions st u now -> created_of st old <= created_of st x) /\
       old ∈ _revoked_sessions res.2 /\
       _active_sessions st !! old = Some s /\
       _active_sessions res.2 !! old =
         Some (mark_revoked s "session_limit_exceeded" now)) /\
  (forall sid c' client_ip user_agent require_ip_match now,
     sid ∈ _revoked_sessions st ->
     rtc step (issued, clock, st) c' ->
     (validate_session c'.2 sid client_ip user_agent require_ip_match now).1 = None).
Proof.
  intros Hreach. pose proof (Inv_reachable _ _ _ Hreach) as Hst.
  split; [|split].
  - intros u t Hle. by eapply live_sessions_bounded.
  - intros u client_ip user_agent device_fingerprint now nonce Hle Hfresh Hfull.
    apply (create_at_cap issued); [by eapply Inv_clock|done|done].
  - intros sid c' client_ip user_agent require_ip_match now Hrev Hsteps.
    apply dead_validate.
    destruct (inv_revoked _ _ _ Hst sid Hrev) as (s & Hs & Ha).
    apply (dead_steps _ _ sid Hsteps); cbn [fst snd].
    + by eapply (inv_issued_active _ _ _ Hst).
    + unfold dead. by rewrite Hs.
Qed.

End Manager.

(** A run: alice logs in five times, then a sixth time. *)
Definition ex_new_session_id : string -> string -> string -> Z -> string -> string :=
  new_session_id "k" (fun s => s) (fun _ => "t"%string).

Definition ex_create (st : State) (now : Z) (nonce : string) : string * State :=
  create_session "k" 30 (fun s => s) (fun _ => "t"%string) elements
    st "alice" "10.0.0.1" "ua" None now nonce.

Definition ex_validate (st : State) (session_id : string) (now : Z) : option Session * State :=
  validate_session 30 st session_id "10.0.0.1" "ua" true now.

Definition ex_step := step "k" 30 (fun s => s) (fun _ => "t"%string) elements.

Definition ex_sid (nonce : string) : string :=
  ex_new_session_id "alice" "10.0.0.1" "ua" 0 nonce.

Definition ex_st1 : State := (ex_create (initial 0) 1 "n1").2.
Definition ex_st2 : State := (ex_create ex_st1 2 "n2").2.
Definition ex_st3 : State := (ex_create ex_st2 3 "n3").2.
Definition ex_st4 : State := (ex_create ex_st3 4 "n4").2.
Definition ex_st5 : State := (ex_create ex_st4 5 "n5").2.
Definition ex_st6 : State := (ex_create ex_st5 6 "n6").2.

Definition ex_issued1 : gset string := {[ex_sid "n1"]} ∪ ∅.
Definition ex_issued2 : gset string := {[ex_sid "n2"]} ∪ ex_issued1.
Definition ex_issued3 : gset string := {[ex_sid "n3"]} ∪ ex_issued2.
Definition ex_issued4 : gset string := {[ex_sid "n4"]} ∪ ex_issued3.
Definition ex_issued5 : gset string := {[ex_sid "n5"]} ∪ ex_issued4.

Lemma elements_members (ids : gset string) sid : sid ∈ elements ids <-> sid ∈ ids.
Proof. apply elem_of_elements. Qed.

Lemma ex_login (issued : gset string) (clock : Z) (st : State) (now : Z) (nonce : string) :
  clock <= now ->
  bool_decide (ex_sid nonce ∈ issued) = false ->
  ex_step (issued, clock, st) ({[ex_sid nonce]} ∪ issued, now, (ex_create st now nonce).2).
Proof.
  intros Hle H. apply bool_decide_eq_false in H.
  change (ex_sid nonce)
    with (new_session_id "k" (fun s => s) (fun _ => "t"%string)
            "alice" "10.0.0.1" "ua" now nonce) in *.
  unfold ex_step, ex_create.
  exact (step_create "k" 30 (fun s => s) (fun _ => "t"%string) elements
           issued clock st "alice" "10.0.0.1" "ua" None now nonce Hle H).
Qed.

Lemma ex_reachable :
  reachable "k" 30 (fun s => s) (fun _ => "t"%string) elements (ex_issued5, 5, ex_st5).
Proof.
  exists 0.
  apply (rtc_l _ _ (ex_issued1, 1, ex_st1)); [apply ex_login; [lia|by vm_compute]|].
  apply (rtc_l _ _ (ex_issued2, 2, ex_st2)); [apply ex_login; [lia|by vm_compute]|].
  apply (rtc_l _ _ (ex_issued3, 3, ex_st3)); [apply ex_login; [lia|by vm_compute]|].
  apply (rtc_l _ _ (ex_issued4, 4, ex_st4)); [apply ex_login; [lia|by vm_compute]|].
  apply (rtc_l _ _ (ex_issued5, 5, ex_st5)); [apply ex_login; [lia|by vm_compute]|].
  apply rtc_refl.
Qed.

Lemma session_cap_and_revocation_witness :
  (forall u t, 5 <= t -> (size (live_sessions ex_st5 u t) <= 5)%nat) /\
  (forall u client_ip user_agent device_fingerprint now nonce,
     5 <= now ->
     ex_new_session_id u client_ip user_agent now nonce ∉ ex_issued5 ->
     (5 <= size (live_sessions ex_st5 u now))%nat ->
     let sid := ex_new_session_id u client_ip user_agent now nonce in
     let res := create_session "k" 30 (fun s => s) (fun _ => "t"%string) elements
                  ex_st5 u client_ip user_agent device_fingerprint now nonce in
     res.1 = sid /\
     _active_sessions res.2 !! sid =
       Some (new_session 30 (fun s => s) u client_ip user_agent device_fingerprint now sid) /\
     (sid ∉ _revoked_sessions res.2) /\
     exists old s,
       old ∈ live_sessions ex_st5 u now /\
       (forall x, x ∈ live_sessions ex_st5 u now ->
                  created_of ex_st5 old <= created_of ex_st5 x) /\
       old ∈ _revoked_sessions res.2 /\
       _active_sessions ex_st5 !! old = Some s /\
       _active_sessions res.2 !! old =
         Some (mark_revoked s "session_limit_exceeded" now)) /\
  (forall sid c' client_ip user_agent require_ip_match now,
     sid ∈ _revoked_sessions ex_st5 ->
     rtc ex_step (ex_issued5, 5, ex_st5) c' ->
     (validate_session 30 c'.2 sid client_ip user_agent require_ip_match now).1 = None).
Proof.
  apply (session_cap_and_revocation "k" 30 (fun s => s) (fun _ => "t"%string) elements
           elements_members ex_issued5 5 ex_st5 ex_reachable).
Defined.

(** Scenario: the sixth login succeeds, leaves five sessions, and the
    evicted first session no longer validates while the newest does. *)
Example sixth_session_evicts_the_first :
  (get_user_session_count ex_st5 "alice" 6).1 = 5 /\
  (get_user_session_count ex_st6 "alice" 6).1 = 5 /\
  bool_decide (ex_sid "n1" ∈ _revoked_sessions ex_st6) = true /\
  (ex_validate ex_st5 (ex_sid "n1") 7).1 <> None /\
  (ex_validate ex_st6 (ex_sid "n1") 7).1 = None /\
  (ex_validate ex_st6 (ex_sid "n6") 7).1 <> None.
Proof.
  split; [by vm_compute|]. split; [by vm_compute|]. split; [by vm_compute|].
  split; [by vm_compute|]. split; by vm_compute.
Qed.

(** *** The life of one session *)

(** An octet, or any piece of an address that [split] does not cut. *)
Fixpoint dot_free (s : string) : bool :=
  match s with
  | EmptyString => true
  | String c rest => negb (Ascii.eqb c "."%char) && dot_free rest
  end.

Definition dotted_quad (a b c d : string) : string :=
  (a ++ "." ++ b ++ "." ++ c ++ "." ++ d)%string.

Lemma split_dots_cons (a rest : string) :
  dot_free a = true ->
  split_dots (a ++ String "."%char rest) = a :: split_dots rest.
Proof.
  induction a as [|c a IH]; intros Ha.
  - reflexivity.
  - cbn [dot_free] in Ha. apply andb_true_iff in Ha as [Hc Ha].
    destruct (Ascii.eqb c ".") eqn:E; [done|].
    change (String c a +:+ String "." rest) with (String c (a +:+ String "." rest)).
    cbn [split_dots]. rewrite E. by rewrite IH.
Qed.

Lemma split_dots_dot_free (a : string) : dot_free a = true -> split_dots a = [a].
Proof.
  induction a as [|c a IH]; intros Ha.
  - reflexivity.
  - cbn [dot_free] in Ha. apply andb_true_iff in Ha as [Hc Ha].
    destruct (Ascii.eqb c ".") eqn:E; [done|].
    cbn [split_dots]. rewrite E. by rewrite IH.
Qed.

Lemma split_dots_quad (a b c d : string) :
  dot_free a = true -> dot_free b = true -> dot_free c = true -> dot_free d = true ->
  split_dots (dotted_quad a b c d) = [a; b; c; d].
Proof.
  intros Ha Hb Hc Hd.
  change (dotted_quad a b c d)
    with (a ++ String "."%char (b ++ String "."%char (c ++ String "."%char d)))%string.
  rewrite !split_dots_cons by done.
  by rewrite split_dots_dot_free.
Qed.

(** X17. The address rule of [validate_session], which
    [validate_secure_access_token] repeats.  Between two dotted quads the
    caller is let through exactly when the first three parts agree, whatever
    the fourth; as soon as one of the two addresses does not split into four
    parts at its dots (an IPv6 address, a host name), only the identical
    string is let through. *)
Theorem ip_tolerance (a b c d a' b' c' d' : string) :
  dot_free a = true -> dot_free b = true -> dot_free c = true -> dot_free d = true ->
  dot_free a' = true -> dot_free b' = true -> dot_free c' = true -> dot_free d' = true ->
  (ip_rejected (dotted_quad a b c d) (dotted_quad a' b' c' d') = false <->
   a = a' /\ b = b' /\ c = c') /\
  (forall stored current,
     length (split_dots stored) <> 4%nat \/ length (split_dots current) <> 4%nat ->
     (ip_rejected stored current = false <-> stored = current)).
Proof.
  intros Ha Hb Hc Hd Ha' Hb' Hc' Hd'. split.
  - unfold ip_rejected. rewrite !split_dots_quad by done.
    cbn [length Nat.eqb andb take].
    destruct (String.eqb_spec (dotted_quad a b c d) (dotted_quad a' b' c' d')) as [Heq|Hne];
      cbn [negb andb].
    + split; [intros _|done].
      assert (H : split_dots (dotted_quad a b c d) = split_dots (dotted_quad a' b' c' d'))
        by by rewrite Heq.
      rewrite !split_dots_quad in H by done. by simplify_eq.
    + case_bool_decide as Ht; cbn [negb].
      * split; [intros _; by simplify_eq|done].
      * split; [done|]. intros (-> & -> & ->). done.
  - intros stored current Hlen. unfold ip_rejected.
    destruct (String.eqb_spec stored current) as [Heq|Hne]; cbn [negb andb]; [done|].
    replace ((length (split_dots stored) =? 4)%nat && (length (split_dots current) =? 4)%nat)
      with false; [done|].
    symmetry. apply andb_false_iff.
    destruct Hlen as [H|H]; [left|right]; by apply Nat.eqb_neq.
Qed.


Section Lifecycle.

Variable SECRET_KEY : string.
Variable ACCESS_TOKEN_EXPIRE_MINUTES : Z.
Variable sha256_hexdigest : string -> string.
Variable repr_time : Z -> string.
Variable set_order : gset string -> list string.
Hypothesis set_order_members : forall (ids : gset string) sid, sid ∈ set_order ids <-> sid ∈ ids.

#[local] Abbreviation create_session_ :=
  (create_session SECRET_KEY ACCESS_TOKEN_EXPIRE_MINUTES sha256_hexdigest repr_time set_order).
#[local] Abbreviation new_session_id_ := (new_session_id SECRET_KEY sha256_hexdigest repr_time).
#[local] Abbreviation new_session_ := (new_session ACCESS_TOKEN_EXPIRE_MINUTES sha256_hexdigest).
#[local] Abbreviation validate_session_ := (validate_session ACCESS_TOKEN_EXPIRE_MINUTES).
#[local] Abbreviation sweep_ := (_cleanup_expired_sessions set_order).
#[local] Abbreviation revoke_user_sessions_ := (revoke_user_sessions set_order).
#[local] Abbreviation reachable_ :=
  (reachable SECRET_KEY ACCESS_TOKEN_EXPIRE_MINUTES sha256_hexdigest repr_time set_order).

(** What one [revoke_session] and one purge do to the entry of an id. *)
Lemma revoke_session_other st x reason now sid :
  x <> sid ->
  _active_sessions (revoke_session st x reason now) !! sid = _active_sessions st !! sid /\
  (sid ∈ _revoked_sessions (revoke_session st x reason now) <-> sid ∈ _revoked_sessions st).
Proof.
  intros Hne. unfold revoke_session.
  destruct (_active_sessions st !! x); [|done]. cbn [_active_sessions _revoked_sessions].
  rewrite lookup_insert_ne by done. split; [done|]. set_solver.
Qed.

Lemma revoke_session_same st reason now sid s :
  _active_sessions st !! sid = Some s ->
  _active_sessions (revoke_session st sid reason now) !! sid =
    Some (mark_revoked s reason now) /\
  sid ∈ _revoked_sessions (revoke_session st sid reason now).
Proof.
  intros Hs. unfold revoke_session. rewrite Hs. cbn [_active_sessions _revoked_sessions].
  rewrite lookup_insert_eq. split; [done|]. set_solver.
Qed.

(** Revoking, under one reason and at one time, the ids of a list that pass
    a test. *)
Lemma revoke_each_other (keep : string -> bool) reason now l st sid :
  (sid ∉ l \/ keep sid = true) ->
  let st' := foldl (fun st x => if keep x then st else revoke_session st x reason now) st l in
  _active_sessions st' !! sid = _active_sessions st !! sid /\
  (sid ∈ _revoked_sessions st' <-> sid ∈ _revoked_sessions st).
Proof.
  revert st. induction l as [|x l IH]; intros st Hsid; cbn [foldl]; [done|].
  assert (Hl : sid ∉ l \/ keep sid = true).
  { destruct Hsid as [H|H]; [left|by right]. set_solver. }
  destruct (IH (if keep x then st else revoke_session st x reason now) Hl) as [H1 H2].
  cbn zeta in H1, H2. rewrite H1, H2.
  destruct (keep x) eqn:Hk; [done|].
  apply revoke_session_other. intros ->.
  destruct Hsid as [H|H]; [set_solver|congruence].
Qed.

Lemma revoke_each_listed (keep : string -> bool) reason now l st sid s :
  sid ∈ l -> keep sid = false ->
  _active_sessions st !! sid = Some s ->
  let st' := foldl (fun st x => if keep x then st else revoke_session st x reason now) st l in
  _active_sessions st' !! sid = Some (mark_revoked s reason now) /\
  sid ∈ _revoked_sessions st'.
Proof.
  revert st s. induction l as [|x l IH]; intros st s Hin Hk Hs; cbn [foldl]; [set_solver|].
  destruct (decide (x = sid)) as [->|Hne].
  - rewrite Hk.
    destruct (revoke_session_same st reason now sid s Hs) as [H1 H2].
    destruct (decide (sid ∈ l)) as [Hl|Hl].
    + apply (IH _ _ Hl Hk H1).
    + destruct (revoke_each_other keep reason now l (revoke_session st sid reason now) sid
                  (or_introl Hl)) as [H3 H4].
      cbn zeta in H3, H4. rewrite H3, H4. done.
  - assert (Hl : sid ∈ l) by set_solver.
    apply (IH _ s Hl Hk).
    destruct (keep x); [done|].
    by rewrite (proj1 (revoke_session_other st x reason now sid Hne)).
Qed.

Lemma purge_each l st sid :
  _active_sessions (foldl purge st l) !! sid =
    (if decide (sid ∈ l) then None else _active_sessions st !! sid) /\
  (sid ∈ _revoked_sessions (foldl purge st l) <-> sid ∈ _revoked_sessions st /\ sid ∉ l).
Proof.
  revert st. induction l as [|x l IH]; intros st; cbn [foldl].
  - split; [by rewrite decide_False by set_solver|set_solver].
  - destruct (IH (purge st x)) as [H1 H2]. rewrite H1, H2.
    cbn [purge _active_sessions _revoked_sessions]. split.
    + destruct (decide (sid ∈ l)) as [Hl|Hl].
      * by rewrite decide_True by set_solver.
      * destruct (decide (x = sid)) as [->|Hne].
        -- rewrite decide_True by set_solver. apply lookup_delete_eq.
        -- rewrite decide_False by set_solver. by apply lookup_delete_ne.
    + set_solver.
Qed.

(** The ids no function has seen yet. *)
Definition unseen (st : State) (sid : string) : Prop :=
  _active_sessions st !! sid = None /\ sid ∉ _revoked_sessions st.

Lemma unseen_revoke st sid x reason now :
  unseen st sid -> unseen (revoke_session st x reason now) sid.
Proof.
  intros [Ha Hr]. destruct (decide (x = sid)) as [->|Hne].
  - unfold revoke_session. by rewrite Ha.
  - destruct (revoke_session_other st x reason now sid Hne) as [H1 H2].
    split; [by rewrite H1|by rewrite H2].
Qed.

Lemma unseen_sweep st sid now : unseen st sid -> unseen (sweep_ st now) sid.
Proof.
  intros Hu. unfold _cleanup_expired_sessions.
  destruct (now - last_cleanup st <? cleanup_interval); [done|].
  cbn zeta. unfold unseen. cbn [_active_sessions _revoked_sessions].
  set (st1 := foldl _ st _).
  assert (H1 : unseen st1 sid).
  { subst st1. generalize (filter (fun sid => is_expired st now sid)
                             (set_order (dom (_active_sessions st)))).
    intros l. revert st Hu. induction l as [|x l IH]; intros st Hu; cbn [foldl]; [done|].
    apply IH. by apply unseen_revoke. }
  destruct H1 as [Ha Hr].
  destruct (purge_each (filter (fun sid => is_old_revoked st1 now sid)
                          (set_order (_revoked_sessions st1))) st1 sid) as [H1 H2].
  rewrite H1, H2. split; [by destruct (decide _)|tauto].
Qed.

Lemma unseen_enforce_limit st ids now sid :
  unseen st sid -> unseen (enforce_limit set_order st ids now) sid.
Proof.
  intros Hu. unfold enforce_limit.
  destruct (max_sessions_per_user <=? _); [|done].
  destruct (oldest _ _); [|done]. by apply unseen_revoke.
Qed.

(** X18. The life of a session whose id is new to the manager.
    [create_session] returns the id; from then on and up to the expiry time,
    [validate_session] from an address that passes the address rule (or with
    the rule switched off) returns the session, counted once, stamped with
    the time of the call, its expiry moved to a full lifetime from now when
    less than thirty minutes were left.  After the expiry time the first
    validation returns nothing and revokes the session, and every validation
    after that returns nothing and changes nothing. *)
Theorem session_lifetime st user_id client_ip user_agent device_fingerprint now nonce :
  let sid := new_session_id_ user_id client_ip user_agent now nonce in
  let created := create_session_ st user_id client_ip user_agent device_fingerprint now nonce in
  let expires := now + ACCESS_TOKEN_EXPIRE_MINUTES * 60 in
  _active_sessions st !! sid = None -> sid ∉ _revoked_sessions st ->
  created.1 = sid /\
  (forall ip ua require_ip_match t,
     t <= expires ->
     require_ip_match && ip_rejected client_ip ip = false ->
     exists s st',
       validate_session_ created.2 sid ip ua require_ip_match t = (Some s, st') /\
       _active_sessions st' !! sid = Some s /\
       s_user_id s = user_id /\ s_access_count s = 1 /\ s_last_accessed s = t /\
       s_expires_at s = (if expires - t <? 30 * 60
                         then t + ACCESS_TOKEN_EXPIRE_MINUTES * 60 else expires)) /\
  (forall ip ua require_ip_match t,
     expires < t ->
     exists st',
       validate_session_ created.2 sid ip ua require_ip_match t = (None, st') /\
       sid ∈ _revoked_sessions st' /\
       forall ip' ua' require' t',
         validate_session_ st' sid ip' ua' require' t' = (None, st')).
Proof.
  intros sid created expires Ha Hr. subst created.
  rewrite create_session_unfold. cbn zeta. fold sid.
  set (st0 := sweep_ st now).
  set (st1 := (_get_user_sessions st0 user_id now).2).
  set (st2 := enforce_limit set_order st1 _ now).
  set (s0 := new_session_ user_id client_ip user_agent device_fingerprint now sid).
  assert (H2 : unseen st2 sid).
  { apply unseen_enforce_limit. subst st1.
    destruct (get_user_sessions_sessions st0 user_id now) as [E1 E2].
    unfold unseen. rewrite E1, E2. by apply unseen_sweep. }
  destruct H2 as [_ Hr2].
  cbn [fst snd]. split; [done|].
  assert (Hlook : _active_sessions (store_session st2 sid s0) !! sid = Some s0).
  { unfold store_session. cbn [_active_sessions]. apply lookup_insert_eq. }
  assert (Hrev : _revoked_sessions (store_session st2 sid s0) = _revoked_sessions st2)
    by reflexivity.
  split.
  - intros ip ua req t Ht Hip. unfold validate_session. rewrite Hlook, Hrev.
    rewrite bool_decide_eq_false_2 by done.
    change (s_expires_at s0) with expires.
    replace (expires <? t) with false by (symmetry; apply Z.ltb_ge; lia).
    change (s_is_active s0) with true. change (s_client_ip s0) with client_ip.
    cbn [negb]. rewrite Hip.
    eexists _, _. split; [reflexivity|]. cbn [_active_sessions].
    rewrite lookup_insert_eq. done.
  - intros ip ua req t Ht. unfold validate_session at 1. rewrite Hlook, Hrev.
    rewrite bool_decide_eq_false_2 by done.
    change (s_expires_at s0) with expires.
    replace (expires <? t) with true by (symmetry; apply Z.ltb_lt; lia).
    eexists. split; [reflexivity|].
    destruct (revoke_session_same (store_session st2 sid s0) "expired" t sid s0 Hlook)
      as [H1 H3].
    split; [done|]. intros ip' ua' req' t'. unfold validate_session. rewrite H1.
    by rewrite bool_decide_eq_true_2.
Qed.

(** X19. What a sweep that is due does to a stored session.  An expired
    session is revoked again, with reason [expired] and the time of the sweep
    as its revocation time, so the same sweep never finds it revoked for more
    than 24 hours: it stays stored and revoked.  An unexpired session is
    dropped, from the store and from the revoked set, when it has been
    revoked for more than 24 hours, and is left as it is otherwise. *)
Theorem sweep_keeps_expired_sessions st now sid s :
  cleanup_interval <= now - last_cleanup st ->
  _active_sessions st !! sid = Some s ->
  let st' := sweep_ st now in
  last_cleanup st' = now /\
  (s_expires_at s < now ->
   _active_sessions st' !! sid = Some (mark_revoked s "expired" now) /\
   sid ∈ _revoked_sessions st') /\
  (now <= s_expires_at s ->
   if bool_decide (sid ∈ _revoked_sessions st) && is_old_revoked st now sid
   then _active_sessions st' !! sid = None /\ sid ∉ _revoked_sessions st'
   else _active_sessions st' !! sid = Some s /\
        (sid ∈ _revoked_sessions st' <-> sid ∈ _revoked_sessions st)).
Proof.
  intros Hdue Hs st'. subst st'. unfold _cleanup_expired_sessions.
  replace (now - last_cleanup st <? cleanup_interval) with false
    by (symmetry; apply Z.ltb_ge; lia).
  cbn zeta. cbn [_active_sessions _revoked_sessions last_cleanup].
  set (expired := filter (fun sid => is_expired st now sid)
                    (set_order (dom (_active_sessions st)))).
  set (st1 := foldl _ st expired).
  set (old := filter (fun sid => is_old_revoked st1 now sid)
                (set_order (_revoked_sessions st1))).
  assert (Hfold : st1 = foldl (fun st x => if (fun _ => false) x then st
                                           else revoke_session st x "expired" now)
                          st expired) by reflexivity.
  assert (Hexp : sid ∈ expired <-> s_expires_at s < now).
  { subst expired. rewrite list_elem_of_filter, set_order_members, elem_of_dom.
    unfold is_expired. rewrite Hs. rewrite Is_true_true, Z.ltb_lt. naive_solver. }
  destruct (purge_each old st1 sid) as [P1 P2]. rewrite P1. clear P1.
  split; [done|]. split.
  - intros Hlt.
    destruct (revoke_each_listed (fun _ => false) "expired" now expired st sid s)
      as [H1 H2]; [by apply Hexp|done|done|].
    cbn zeta in H1, H2. rewrite <- Hfold in H1, H2.
    assert (Hnot : sid ∉ old).
    { subst old. rewrite list_elem_of_filter. unfold is_old_revoked. rewrite H1.
      cbn [mark_revoked s_revoked_at]. rewrite Is_true_true, Z.ltb_lt. lia. }
    rewrite decide_False by done. split; [done|]. by apply P2.
  - intros Hge.
    destruct (revoke_each_other (fun _ => false) "expired" now expired st sid)
      as [H1 H2]; [left; rewrite Hexp; lia|].
    cbn zeta in H1, H2. rewrite <- Hfold in H1, H2.
    assert (Hold : sid ∈ old <->
                   sid ∈ _revoked_sessions st /\ is_old_revoked st now sid = true).
    { subst old. rewrite list_elem_of_filter, set_order_members, H2.
      unfold is_old_revoked. rewrite H1, Hs. rewrite Is_true_true. tauto. }
    destruct (bool_decide (sid ∈ _revoked_sessions st) && is_old_revoked st now sid)
      eqn:Hcase.
    + apply andb_true_iff in Hcase as [Hrev Hor]. apply bool_decide_eq_true in Hrev.
      rewrite decide_True by (apply Hold; done). split; [done|].
      intros H. apply P2 in H. destruct H as [_ H]. apply H, Hold. done.
    + assert (Hnot : sid ∉ old).
      { intros H. apply Hold in H as [Hrev Hor].
        apply andb_false_iff in Hcase as [Hc|Hc]; [|congruence].
        apply bool_decide_eq_false in Hc. done. }
      rewrite decide_False by done. split; [by rewrite H1|].
      rewrite P2, H2. tauto.
Qed.

(** X20. Logging a user out everywhere.  In a reachable configuration
    [revoke_user_sessions] revokes, with reason [user_logout_all], every
    session of the user that is active, unrevoked and unexpired, except the
    one named as the exception; that one, the sessions of other users and
    everything else in the store are left exactly as they were. *)
Theorem logout_everywhere issued clock st user_id except_session now :
  reachable_ (issued, clock, st) -> clock <= now ->
  let st' := revoke_user_sessions_ st user_id except_session now in
  (forall sid, sid ∈ live_sessions st user_id now -> Some sid <> except_session ->
     sid ∈ _revoked_sessions st' /\
     exists s, _active_sessions st !! sid = Some s /\
               _active_sessions st' !! sid = Some (mark_revoked s "user_logout_all" now)) /\
  (forall sid, sid ∉ live_sessions st user_id now \/ Some sid = except_session ->
     _active_sessions st' !! sid = _active_sessions st !! sid /\
     (sid ∈ _revoked_sessions st' <-> sid ∈ _revoked_sessions st)).
Proof.
  intros Hreach Hle st'. subst st'.
  pose proof (Inv_reachable SECRET_KEY ACCESS_TOKEN_EXPIRE_MINUTES sha256_hexdigest
                repr_time set_order set_order_members _ _ _ Hreach) as Hinv.
  apply (Inv_clock _ _ now) in Hinv; [|done].
  pose proof (get_user_sessions_live sha256_hexdigest repr_time set_order set_order_members
                issued now st user_id Hinv) as Hlive.
  destruct (get_user_sessions_sessions st user_id now) as [E1 E2].
  unfold revoke_user_sessions.
  destruct (_get_user_sessions st user_id now) as [ids st1]. cbn [fst snd] in *. subst ids.
  set (keep := fun sid : string => bool_decide (Some sid = except_session)).
  change (foldl _ st1 ?l)
    with (foldl (fun st x => if keep x then st
                             else revoke_session st x "user_logout_all" now) st1 l).
  split.
  - intros sid Hin Hne.
    assert (Hs : exists s, _active_sessions st !! sid = Some s).
    { apply (elem_of_live_sessions sha256_hexdigest repr_time set_order set_order_members)
        in Hin as (s & [Hs _] & _). eauto. }
    destruct Hs as [s Hs].
    destruct (revoke_each_listed keep "user_logout_all" now
                (set_order (live_sessions st user_id now)) st1 sid s) as [H1 H2].
    + by apply set_order_members.
    + subst keep. cbn beta. by rewrite bool_decide_eq_false_2.
    + by rewrite E1.
    + split; [done|]. eauto.
  - intros sid Hsid.
    destruct (revoke_each_other keep "user_logout_all" now
                (set_order (live_sessions st user_id now)) st1 sid) as [H1 H2].
    + destruct Hsid as [H|H]; [left; by rewrite set_order_members|right].
      subst keep. cbn beta. by rewrite bool_decide_eq_true_2.
    + cbn zeta in H1, H2. rewrite H1, H2, E1, E2. done.
Qed.

(** X28. Counting the sessions of a user.  In a reachable configuration
    [get_user_session_count] returns the number of the user's sessions that
    are active, unrevoked and unexpired, which is at most five.  It runs no
    sweep: the session store and the revoked set are as before, the set
    listed under the user is cut down to exactly those sessions (a user
    without a set gets none), and the sets of other users are untouched. *)
Theorem session_count_is_live_count issued clock st user_id now :
  reachable_ (issued, clock, st) -> clock <= now ->
  let res := get_user_session_count st user_id now in
  res.1 = Z.of_nat (size (live_sessions st user_id now)) /\
  0 <= res.1 <= max_sessions_per_user /\
  _active_sessions res.2 = _active_sessions st /\
  _revoked_sessions res.2 = _revoked_sessions st /\
  _user_sessions res.2 !! user_id =
    (if _user_sessions st !! user_id is Some _
     then Some (live_sessions st user_id now) else None) /\
  (forall u, u <> user_id -> _user_sessions res.2 !! u = _user_sessions st !! u).
Proof.
  intros Hreach Hle res. subst res.
  pose proof (Inv_reachable SECRET_KEY ACCESS_TOKEN_EXPIRE_MINUTES sha256_hexdigest
                repr_time set_order set_order_members _ _ _ Hreach) as Hinv.
  pose proof (live_sessions_bounded sha256_hexdigest repr_time set_order set_order_members
                issued clock st user_id now Hinv Hle) as Hcap.
  apply (Inv_clock _ _ now) in Hinv; [|done].
  pose proof (get_user_sessions_live sha256_hexdigest repr_time set_order set_order_members
                issued now st user_id Hinv) as Hlive.
  unfold get_user_session_count. revert Hlive. unfold _get_user_sessions.
  destruct (_user_sessions st !! user_id) as [ids|] eqn:Hu; cbn [fst snd]; intros Hlive.
  - rewrite Hlive. cbn [_active_sessions _revoked_sessions _user_sessions].
    unfold max_sessions_per_user. repeat split; try done; try lia.
    + by rewrite lookup_insert_eq.
    + intros u Hne. by rewrite lookup_insert_ne.
  - rewrite Hlive. unfold max_sessions_per_user. repeat split; try done; lia.
Qed.

(** X29. Whom [create_session] can evict.  In a reachable configuration, a
    session that is active, unrevoked and unexpired when [create_session]
    is called for a user with a new id is still stored, with the same
    record, and still unrevoked afterwards, if it belongs to another user,
    or if the user has fewer than five such sessions. *)
Theorem create_session_evicts_only_at_the_cap
    issued clock st user_id client_ip user_agent device_fingerprint now nonce sid s :
  reachable_ (issued, clock, st) -> clock <= now ->
  new_session_id_ user_id client_ip user_agent now nonce ∉ issued ->
  _active_sessions st !! sid = Some s -> s_is_active s = true ->
  sid ∉ _revoked_sessions st -> now <= s_expires_at s ->
  (s_user_id s <> user_id \/ (size (live_sessions st user_id now) < 5)%nat) ->
  let res := create_session_ st user_id client_ip user_agent device_fingerprint now nonce in
  _active_sessions res.2 !! sid = Some s /\ sid ∉ _revoked_sessions res.2.
Proof.
  intros Hreach Hle Hfresh Hs Ha Hr He Hcase res. subst res.
  pose proof (Inv_reachable SECRET_KEY ACCESS_TOKEN_EXPIRE_MINUTES sha256_hexdigest
                repr_time set_order set_order_members _ _ _ Hreach) as Hinv.
  apply (Inv_clock _ _ now) in Hinv; [|done].
  rewrite create_session_unfold. cbn [snd].
  set (new := new_session_id_ user_id client_ip user_agent now nonce) in *.
  set (st0 := sweep_ st now).
  assert (Hst0 : Inv issued now st0)
    by (by apply (Inv_cleanup sha256_hexdigest repr_time set_order set_order_members)).
  pose proof (cleanup_same_alive sha256_hexdigest repr_time set_order set_order_members st now)
    as Hsame. fold st0 in Hsame.
  pose proof (get_user_sessions_live sha256_hexdigest repr_time set_order set_order_members
                issued now st0 user_id Hst0) as Hcur.
  rewrite (same_alive_live_sessions sha256_hexdigest repr_time set_order set_order_members
             now st st0 user_id Hsame) in Hcur.
  destruct (get_user_sessions_sessions st0 user_id now) as [Hact1 Hrev1].
  set (current := (_get_user_sessions st0 user_id now).1) in *.
  set (st1 := (_get_user_sessions st0 user_id now).2) in *.
  assert (Hal0 : alive st0 now sid s) by (apply Hsame; by repeat split).
  destruct Hal0 as (Hs0 & _ & Hr0 & _).
  assert (Hnew : new <> sid).
  { intros Heq. apply Hfresh. rewrite Heq. by eapply (inv_issued_active _ _ _ Hinv). }
  assert (Henf : _active_sessions (enforce_limit set_order st1 current now) !! sid = Some s /\
                 sid ∉ _revoked_sessions (enforce_limit set_order st1 current now)).
  { unfold enforce_limit, max_sessions_per_user.
    destruct (Z.leb_spec 5 (Z.of_nat (size current))) as [Hfull|Hroom];
      [|by rewrite Hact1, Hrev1].
    assert (Hne : current <> ∅).
    { intros Hempty. rewrite Hempty, size_empty in Hfull. lia. }
    destruct (oldest_spec st1 (set_order current)
                (set_order_nonempty ACCESS_TOKEN_EXPIRE_MINUTES sha256_hexdigest repr_time
                   set_order set_order_members _ Hne)) as (o & -> & Hin & _).
    apply set_order_members in Hin. rewrite Hcur in Hin.
    apply (elem_of_live_sessions sha256_hexdigest repr_time set_order set_order_members)
      in Hin as (s' & (Hs' & _) & Hus').
    assert (Hne' : o <> sid).
    { intros ->. rewrite Hs in Hs'. injection Hs' as <-.
      destruct Hcase as [Hother|Hroom]; [done|]. rewrite Hcur in Hfull. lia. }
    destruct (revoke_session_other st1 o "session_limit_exceeded" now sid Hne') as [H1 H2].
    rewrite H1, H2, Hact1, Hrev1. done. }
  destruct Henf as [H1 H2]. cbn [store_session _active_sessions _revoked_sessions].
  by rewrite lookup_insert_ne.
Qed.

End Lifecycle.

Lemma ip_tolerance_witness :
  (ip_rejected (dotted_quad "10" "0" "0" "1") (dotted_quad "10" "0" "0" "77") = false <->
   "10"%string = "10"%string /\ "0"%string = "0"%string /\ "0"%string = "0"%string) /\
  (forall stored current,
     length (split_dots stored) <> 4%nat \/ length (split_dots current) <> 4%nat ->
     (ip_rejected stored current = false <-> stored = current)).
Proof.
  apply (ip_tolerance "10" "0" "0" "1" "10" "0" "0" "77"); reflexivity.
Defined.

Lemma session_lifetime_witness :
  let sid := ex_new_session_id "alice" "10.0.0.1" "ua" 1 "n1" in
  let created := ex_create (initial 0) 1 "n1" in
  let expires := 1 + 30 * 60 in
  created.1 = sid /\
  (forall ip ua require_ip_match t,
     t <= expires ->
     require_ip_match && ip_rejected "10.0.0.1" ip = false ->
     exists s st',
       validate_session 30 created.2 sid ip ua require_ip_match t = (Some s, st') /\
       _active_sessions st' !! sid = Some s /\
       s_user_id s = "alice"%string /\ s_access_count s = 1 /\ s_last_accessed s = t /\
       s_expires_at s = (if expires - t <? 30 * 60 then t + 30 * 60 else expires)) /\
  (forall ip ua require_ip_match t,
     expires < t ->
     exists st',
       validate_session 30 created.2 sid ip ua require_ip_match t = (None, st') /\
       sid ∈ _revoked_sessions st' /\
       forall ip' ua' require' t',
         validate_session 30 st' sid ip' ua' require' t' = (None, st')).
Proof.
  apply (session_lifetime "k" 30 (fun s => s) (fun _ => "t"%string) elements
           elements_members (initial 0) "alice" "10.0.0.1" "ua" None 1 "n1").
  - reflexivity.
  - apply not_elem_of_empty.
Defined.

Lemma sweep_keeps_expired_sessions_witness :
  let sid := ex_sid "n1" in
  let s := new_session 30 (fun s => s) "alice" "10.0.0.1" "ua" None 1 sid in
  let st' := _cleanup_expired_sessions elements ex_st5 5000 in
  last_cleanup st' = 5000 /\
  (s_expires_at s < 5000 ->
   _active_sessions st' !! sid = Some (mark_revoked s "expired" 5000) /\
   sid ∈ _revoked_sessions st') /\
  (5000 <= s_expires_at s ->
   if bool_decide (sid ∈ _revoked_sessions ex_st5) && is_old_revoked ex_st5 5000 sid
   then _active_sessions st' !! sid = None /\ sid ∉ _revoked_sessions st'
   else _active_sessions st' !! sid = Some s /\
        (sid ∈ _revoked_sessions st' <-> sid ∈ _revoked_sessions ex_st5)).
Proof.
  apply (sweep_keeps_expired_sessions "k" 30 (fun s => s) (fun _ => "t"%string) elements
           elements_members ex_st5 5000).
  - vm_compute. discriminate.
  - vm_compute. reflexivity.
Defined.

Lemma logout_everywhere_witness :
  let st' := revoke_user_sessions elements ex_st5 "alice" (Some (ex_sid "n5")) 5 in
  (forall sid, sid ∈ live_sessions ex_st5 "alice" 5 -> Some sid <> Some (ex_sid "n5") ->
     sid ∈ _revoked_sessions st' /\
     exists s, _active_sessions ex_st5 !! sid = Some s /\
               _active_sessions st' !! sid = Some (mark_revoked s "user_logout_all" 5)) /\
  (forall sid, sid ∉ live_sessions ex_st5 "alice" 5 \/ Some sid = Some (ex_sid "n5") ->
     _active_sessions st' !! sid = _active_sessions ex_st5 !! sid /\
     (sid ∈ _revoked_sessions st' <-> sid ∈ _revoked_sessions ex_st5)).
Proof.
  apply (logout_everywhere "k" 30 (fun s => s) (fun _ => "t"%string) elements
           elements_members ex_issued5 5 ex_st5 "alice" (Some (ex_sid "n5")) 5 ex_reachable).
  lia.
Defined.

Lemma session_count_is_live_count_witness :
  let res := get_user_session_count ex_st5 "alice" 5 in
  res.1 = Z.of_nat (size (live_sessions ex_st5 "alice" 5)) /\
  0 <= res.1 <= max_sessions_per_user /\
  _active_sessions res.2 = _active_sessions ex_st5 /\
  _revoked_sessions res.2 = _revoked_sessions ex_st5 /\
  _user_sessions res.2 !! "alice"%string =
    (if _user_sessions ex_st5 !! "alice"%string is Some _
     then Some (live_sessions ex_st5 "alice" 5) else None) /\
  (forall u, u <> "alice"%string -> _user_sessions res.2 !! u = _user_sessions ex_st5 !! u).
Proof.
  apply (session_count_is_live_count "k" 30 (fun s => s) (fun _ => "t"%string) elements
           elements_members ex_issued5 5 ex_st5 "alice" 5 ex_reachable).
  lia.
Defined.

Lemma create_session_evicts_only_at_the_cap_witness :
  let sid := ex_sid "n1" in
  let s := new_session 30 (fun s => s) "alice" "10.0.0.1" "ua" None 1 sid in
  let res := create_session "k" 30 (fun s => s) (fun _ => "t"%string) elements
               ex_st5 "bob" "10.0.0.9" "ua" None 6 "n6" in
  _active_sessions res.2 !! sid = Some s /\ sid ∉ _revoked_sessions res.2.
Proof.
  apply (create_session_evicts_only_at_the_cap "k" 30 (fun s => s) (fun _ => "t"%string)
           elements elements_members ex_issued5 5 ex_st5 "bob" "10.0.0.9" "ua" None 6 "n6"
           (ex_sid "n1")
           (new_session 30 (fun s => s) "alice" "10.0.0.1" "ua" None 1 (ex_sid "n1"))
           ex_reachable).
  - lia.
  - apply (bool_decide_eq_false_1
             (ex_new_session_id "bob" "10.0.0.9" "ua" 6 "n6" ∈ ex_issued5)).
    vm_compute. reflexivity.
  - vm_compute. reflexivity.
  - reflexivity.
  - apply (bool_decide_eq_false_1 (ex_sid "n1" ∈ _revoked_sessions ex_st5)).
    vm_compute. reflexivity.
  - vm_compute. discriminate.
  - left. vm_compute. discriminate.
Defined.

(** Scenario: alice's phone moves within its /24 and stays logged in; from
    another network, and from an IPv6 address, the session is refused. *)
Example roaming_client :
  (ex_validate ex_st1 (ex_sid "n1") 2).1 <> None /\
  (validate_session 30 ex_st1 (ex_sid "n1") "10.0.0.200" "ua" true 2).1 <> None /\
  (validate_session 30 ex_st1 (ex_sid "n1") "10.0.1.1" "ua" true 2).1 = None /\
  (validate_session 30 ex_st1 (ex_sid "n1") "fe80::1" "ua" true 2).1 = None /\
  (validate_session 30 ex_st1 (ex_sid "n1") "fe80::1" "ua" false 2).1 <> None.
Proof. repeat split; vm_compute; congruence. Qed.

End SessionManager.

(** ** [app/core/authorization.py]: the access tokens of a grant *)

Module AccessTokens.
Import Web Authorization.

(** [_cleanup_expired_sessions] *)
Definition _cleanup_expired_sessions (sessions : gmap string TrackSession) (now : Z)
  : gmap string TrackSession :=
  let expired_tokens :=
    map fst (filter (fun kv : string * TrackSession => ts_expires_at kv.2 <? now)
               (map_to_list sessions)) in
  foldl (fun sessions token => delete token sessions) sessions expired_tokens.

(** The IP binding of [validate_secure_access_token]: it is looked at only
    when both the caller's address and the stored one are present, and then
    by the rule of [validate_session]. *)
Definition ip_mismatch (stored current : option string) : bool :=
  truthy current && truthy stored &&
  SessionManager.ip_rejected (or_empty stored) (or_empty current).

(** [validate_secure_access_token].  The clock is read by the sweep at
    [swept_at] and again by the expiry check at [now]. *)
Definition validate_secure_access_token
    (sessions : gmap string TrackSession)
    (token track_id : string) (user_id : option string) (operation : string)
    (client_ip : option string) (swept_at now : Z)
  : bool * gmap string TrackSession :=
  let sessions := _cleanup_expired_sessions sessions swept_at in
  match sessions !! token with
  | None => (false, sessions)
  | Some session =>
      if ts_expires_at session <? now then (false, delete token sessions)
      else if negb (String.eqb (ts_track_id session) track_id) then (false, sessions)
      else if truthy user_id && negb (bool_decide (Some (ts_user_id session) = user_id))
      then (false, sessions)
      else if negb (String.eqb (ts_operation session) operation) then (false, sessions)
      else if ip_mismatch (ts_client_ip session) client_ip then (false, sessions)
      else (true, sessions)
  end.

(** [revoke_user_sessions] *)
Definition revoke_user_sessions (sessions : gmap string TrackSession) (user_id : string)
  : gmap string TrackSession :=
  foldl (fun sessions '(token, session) =>
           if String.eqb (ts_user_id session) user_id then delete token sessions
           else sessions)
        sessions (map_to_list sessions).

Lemma delete_each_lookup {A} (l : list string) (m : gmap string A) (k : string) :
  foldl (fun m token => delete token m) m l !! k =
  if decide (k ∈ l) then None else m !! k.
Proof.
  revert m. induction l as [|x l IH]; intros m; cbn [foldl].
  - by rewrite decide_False by set_solver.
  - rewrite IH. destruct (decide (k ∈ l)) as [Hl|Hl].
    + by rewrite decide_True by set_solver.
    + destruct (decide (x = k)) as [->|Hne].
      * rewrite decide_True by set_solver. apply lookup_delete_eq.
      * rewrite decide_False by set_solver. by apply lookup_delete_ne.
Qed.

Lemma cleanup_lookup sessions now token :
  _cleanup_expired_sessions sessions now !! token =
  match sessions !! token with
  | Some session => if ts_expires_at session <? now then None else Some session
  | None => None
  end.
Proof.
  unfold _cleanup_expired_sessions. rewrite delete_each_lookup.
  destruct (sessions !! token) as [session|] eqn:Hs.
  - destruct (ts_expires_at session <? now) eqn:Hexp.
    + rewrite decide_True; [done|].
      apply list_elem_of_fmap. exists (token, session). split; [done|].
      apply list_elem_of_filter. split; [cbn [snd]; by rewrite Hexp|].
      by apply elem_of_map_to_list.
    + rewrite decide_False; [done|].
      intros Hin. apply list_elem_of_fmap in Hin as ([k s] & -> & Hin).
      apply list_elem_of_filter in Hin as [Hp Hin]. cbn [fst snd] in *.
      apply elem_of_map_to_list in Hin. simplify_eq. by rewrite Hexp in Hp.
  - destruct (decide _) as [Hin|]; [|done].
    apply list_elem_of_fmap in Hin as ([k s] & -> & Hin).
    apply list_elem_of_filter in Hin as [_ Hin].
    apply elem_of_map_to_list in Hin. cbn [fst] in Hs. congruence.
Qed.

Lemma revoke_lookup sessions user_id token :
  revoke_user_sessions sessions user_id !! token =
  match sessions !! token with
  | Some session => if String.eqb (ts_user_id session) user_id then None else Some session
  | None => None
  end.
Proof.
  unfold revoke_user_sessions.
  assert (Hfold : forall (l : list (string * TrackSession)) (m : gmap string TrackSession),
    foldl (fun (sessions : gmap string TrackSession) '(token, session) =>
             if String.eqb (ts_user_id session) user_id then delete token sessions
             else sessions) m l =
    foldl (fun m token => delete token m) m
      (map fst (filter (fun kv : string * TrackSession =>
                          String.eqb (ts_user_id kv.2) user_id) l))).
  { induction l as [|[k s] l IH]; intros m; [done|].
    cbn [foldl]. rewrite IH. rewrite filter_cons. cbn [snd].
    destruct (String.eqb (ts_user_id s) user_id) eqn:E.
    - by rewrite decide_True by exact I.
    - by rewrite decide_False by (intros []). }
  rewrite Hfold, delete_each_lookup.
  destruct (sessions !! token) as [session|] eqn:Hs.
  - destruct (String.eqb (ts_user_id session) user_id) eqn:Hu.
    + rewrite decide_True; [done|].
      apply list_elem_of_fmap. exists (token, session). split; [done|].
      apply list_elem_of_filter. split; [cbn [snd]; by rewrite Hu|].
      by apply elem_of_map_to_list.
    + rewrite decide_False; [done|].
      intros Hin. apply list_elem_of_fmap in Hin as ([k s] & -> & Hin).
      apply list_elem_of_filter in Hin as [Hp Hin]. cbn [fst snd] in *.
      apply elem_of_map_to_list in Hin. simplify_eq. by rewrite Hu in Hp.
  - destruct (decide _) as [Hin|]; [|done].
    apply list_elem_of_fmap in Hin as ([k s] & -> & Hin).
    apply list_elem_of_filter in Hin as [_ Hin].
    apply elem_of_map_to_list in Hin. cbn [fst] in Hs. congruence.
Qed.

Section Service.

Variable validate_uuid : string -> string -> exn + string.
Variable SECRET_KEY : string.
Variable sha256_hexdigest : string -> string.
Variable isoformat : Z -> string.

#[local] Abbreviation check_track_access_ :=
  (check_track_access validate_uuid SECRET_KEY sha256_hexdigest isoformat).

(** X3. A grant can be used.  The token that [check_track_access] returns
    with a grant validates for the validated track id and the granted
    operation at any time up to thirty minutes after the grant, when the
    caller names no user or the user the grant was made to (an anonymous
    grant is made to the user [anonymous]), and when the caller's address,
    if both it and the granted one are given, passes the address rule. *)
Theorem granted_token_validates
    (sessions sessions' : gmap string TrackSession) (track_id vid : string)
    (user : option UserInDB) (db : string -> option Track)
    (operation : string) (client_ip : option string) (now : Z) (nonce : string)
    (track : Track) (token : string)
    (presented_user presented_ip : option string) (swept_at t : Z) :
  check_track_access_ sessions track_id user db operation client_ip now nonce =
    (inr (track, token), sessions') ->
  validate_uuid track_id "track_id" = inr vid ->
  swept_at <= t -> t <= now + 1800 ->
  truthy presented_user = false \/ presented_user = Some (user_label user) ->
  ip_mismatch client_ip presented_ip = false ->
  (validate_secure_access_token sessions' token vid presented_user operation
     presented_ip swept_at t).1 = true.
Proof.
  intros Hgrant Hvid Hsw Ht Huser Hip.
  unfold check_track_access in Hgrant. rewrite Hvid in Hgrant.
  destruct (db vid) as [tr|]; [|done].
  destruct (negb _) in Hgrant; [by destruct user|].
  unfold _create_secure_access_token in Hgrant. simplify_eq.
  set (token := substring_to 32 _).
  unfold validate_secure_access_token.
  rewrite cleanup_lookup, lookup_insert_eq. cbn [ts_expires_at].
  replace (now + 30 * 60 <? swept_at) with false by (symmetry; apply Z.ltb_ge; lia).
  cbn [ts_expires_at ts_track_id ts_user_id ts_operation ts_client_ip].
  replace (now + 30 * 60 <? t) with false by (symmetry; apply Z.ltb_ge; lia).
  rewrite !String.eqb_refl. cbn [negb].
  replace (truthy presented_user && negb (bool_decide (Some (user_label user) = presented_user)))
    with false.
  2:{ destruct Huser as [->| ->]; [done|].
      rewrite bool_decide_eq_true_2 by done. by rewrite andb_false_r. }
  by rewrite Hip.
Qed.

End Service.

(** X4. What a successful validation establishes.  If
    [validate_secure_access_token] answers [True], the token was stored, it
    is still stored unchanged, its expiry time has not passed, it was issued
    for this track and this operation, for this user when the caller names
    one, and the caller's address passes the address rule against the stored
    one when both are given. *)
Theorem validated_token_is_bound
    (sessions sessions' : gmap string TrackSession)
    (token track_id : string) (user_id : option string) (operation : string)
    (client_ip : option string) (swept_at now : Z) :
  validate_secure_access_token sessions token track_id user_id operation client_ip
    swept_at now = (true, sessions') ->
  exists session,
    sessions !! token = Some session /\ sessions' !! token = Some session /\
    swept_at <= ts_expires_at session /\ now <= ts_expires_at session /\
    ts_track_id session = track_id /\ ts_operation session = operation /\
    (truthy user_id = true -> user_id = Some (ts_user_id session)) /\
    ip_mismatch (ts_client_ip session) client_ip = false.
Proof.
  unfold validate_secure_access_token.
  destruct (_cleanup_expired_sessions sessions swept_at !! token) as [session|] eqn:Hs;
    [|done].
  rewrite cleanup_lookup in Hs.
  destruct (sessions !! token) as [session0|] eqn:Hs0; [|done].
  destruct (ts_expires_at session0 <? swept_at) eqn:Hsw; [done|]. simplify_eq.
  destruct (ts_expires_at session <? now) eqn:Hexp; [done|].
  destruct (String.eqb_spec (ts_track_id session) track_id) as [Htr|]; [|done].
  cbn [negb].
  destruct (truthy user_id && _) eqn:Hu; [done|].
  destruct (String.eqb_spec (ts_operation session) operation) as [Hop|]; [|done].
  cbn [negb].
  destruct (ip_mismatch _ _) eqn:Hip; [done|].
  intros H. simplify_eq. exists session.
  apply Z.ltb_ge in Hsw, Hexp.
  repeat split; try done.
  - rewrite cleanup_lookup, Hs0.
    by replace (ts_expires_at session <? swept_at) with false
      by (symmetry; apply Z.ltb_ge; lia).
  - intros Ht. rewrite Ht in Hu. cbn [andb] in Hu.
    apply negb_false_iff, bool_decide_eq_true in Hu. done.
Qed.

(** X5. What a validation does to the store.  It adds no token and
    alters none; a token whose expiry time has not passed stays; a token
    that had expired when the sweep read the clock is gone; and when the
    presented token has expired the answer is [False] and that token is gone
    as well. *)
Theorem validation_drops_only_expired_tokens
    (sessions : gmap string TrackSession)
    (token track_id : string) (user_id : option string) (operation : string)
    (client_ip : option string) (swept_at now : Z) :
  swept_at <= now ->
  let outcome :=
    validate_secure_access_token sessions token track_id user_id operation client_ip
      swept_at now in
  (forall k session, outcome.2 !! k = Some session -> sessions !! k = Some session) /\
  (forall k session, sessions !! k = Some session -> now <= ts_expires_at session ->
                     outcome.2 !! k = Some session) /\
  (forall k session, sessions !! k = Some session -> ts_expires_at session < swept_at ->
                     outcome.2 !! k = None) /\
  (forall session, sessions !! token = Some session -> ts_expires_at session < now ->
                   outcome = (false, delete token (_cleanup_expired_sessions sessions swept_at))).
Proof.
  intros Hle outcome. subst outcome.
  assert (Hsnd : forall k,
    (validate_secure_access_token sessions token track_id user_id operation client_ip
       swept_at now).2 !! k =
    match sessions !! k with
    | Some session =>
        if ts_expires_at session <? swept_at then None
        else if bool_decide (k = token) && (ts_expires_at session <? now) then None
        else Some session
    | None => None
    end).
  { intros k. unfold validate_secure_access_token.
    pose proof (cleanup_lookup sessions swept_at token) as Htok.
    destruct (_cleanup_expired_sessions sessions swept_at !! token) as [session|] eqn:Hs.
    - destruct (sessions !! token) as [s0|] eqn:Hs0; [|done].
      destruct (ts_expires_at s0 <? swept_at) eqn:Hsw; [done|].
      injection Htok as ->.
      destruct (ts_expires_at s0 <? now) eqn:Hexp.
      + cbn [snd]. destruct (decide (k = token)) as [->|Hne].
        * rewrite lookup_delete_eq, Hs0, Hsw, Hexp.
          by rewrite bool_decide_eq_true_2.
        * rewrite lookup_delete_ne by done. rewrite cleanup_lookup.
          destruct (sessions !! k) as [sk|]; [|done].
          rewrite bool_decide_eq_false_2 by done. done.
      + assert (Hk : _cleanup_expired_sessions sessions swept_at !! k =
                     match sessions !! k with
                     | Some session0 =>
                         if ts_expires_at session0 <? swept_at then None
                         else if bool_decide (k = token) && (ts_expires_at session0 <? now)
                              then None else Some session0
                     | None => None
                     end).
        { rewrite cleanup_lookup. destruct (sessions !! k) as [sk|] eqn:Hsk; [|done].
          destruct (ts_expires_at sk <? swept_at); [done|].
          case_bool_decide; [|done]. simplify_eq. by rewrite Hexp. }
        destruct (negb (String.eqb (ts_track_id s0) track_id)); [exact Hk|].
        destruct (truthy user_id && _); [exact Hk|].
        destruct (negb (String.eqb (ts_operation s0) operation)); [exact Hk|].
        destruct (ip_mismatch _ _); exact Hk.
    - cbn [snd]. rewrite cleanup_lookup.
      destruct (sessions !! k) as [sk|] eqn:Hsk; [|done].
      destruct (ts_expires_at sk <? swept_at) eqn:Hsw; [done|].
      case_bool_decide as Hkt; [|done]. subst k. rewrite Hsk, Hsw in Htok. done. }
  repeat split.
  - intros k session. rewrite Hsnd. destruct (sessions !! k); [|done].
    destruct (_ <? _); [done|]. destruct (_ && _); done.
  - intros k session Hk Hexp. rewrite Hsnd, Hk.
    replace (ts_expires_at session <? swept_at) with false
      by (symmetry; apply Z.ltb_ge; lia).
    replace (ts_expires_at session <? now) with false
      by (symmetry; apply Z.ltb_ge; lia).
    by rewrite andb_false_r.
  - intros k session Hk Hexp. rewrite Hsnd, Hk.
    by replace (ts_expires_at session <? swept_at) with true
      by (symmetry; apply Z.ltb_lt; lia).
  - intros session Hs Hexp. unfold validate_secure_access_token.
    rewrite cleanup_lookup, Hs.
    destruct (ts_expires_at session <? swept_at) eqn:Hsw.
    + f_equal. apply map_eq. intros k. destruct (decide (k = token)) as [->|Hne].
      * by rewrite lookup_delete_eq, cleanup_lookup, Hs, Hsw.
      * by rewrite lookup_delete_ne.
    + by replace (ts_expires_at session <? now) with true
        by (symmetry; apply Z.ltb_lt; lia).
Qed.

(** X6. [revoke_user_sessions] removes every token issued to the user and
    no other: afterwards a token of that user is refused, whatever it is
    presented with, and a token of another user is stored as before. *)
Theorem revoked_user_tokens_never_validate
    (sessions : gmap string TrackSession) (user_id : string) :
  let sessions' := revoke_user_sessions sessions user_id in
  (forall token session, sessions !! token = Some session ->
     ts_user_id session = user_id ->
     forall track_id presented_user operation client_ip swept_at now,
       validate_secure_access_token sessions' token track_id presented_user operation
         client_ip swept_at now =
       (false, _cleanup_expired_sessions sessions' swept_at)) /\
  (forall token session, sessions !! token = Some session ->
     ts_user_id session <> user_id -> sessions' !! token = Some session) /\
  (forall token session, sessions' !! token = Some session ->
     sessions !! token = Some session /\ ts_user_id session <> user_id).
Proof.
  intros sessions'. subst sessions'. repeat split.
  - intros token session Hs Hu track_id presented_user operation client_ip swept_at now.
    unfold validate_secure_access_token.
    rewrite cleanup_lookup, revoke_lookup, Hs.
    by replace (String.eqb (ts_user_id session) user_id) with true
      by (symmetry; by apply String.eqb_eq).
  - intros token session Hs Hu. rewrite revoke_lookup, Hs.
    by replace (String.eqb (ts_user_id session) user_id) with false
      by (symmetry; by apply String.eqb_neq).
  - rewrite revoke_lookup in H. destruct (sessions !! token) as [s|]; [|done].
    destruct (String.eqb (ts_user_id s) user_id); by simplify_eq.
  - rewrite revoke_lookup in H. destruct (sessions !! token) as [s|]; [|done].
    destruct (String.eqb_spec (ts_user_id s) user_id); by simplify_eq.
Qed.

(** A run: [U] is granted [delete] on her track [T] at time 0, from
    203.0.113.7. *)
Definition ex_granted : (exn + (Track * string)) * gmap string TrackSession :=
  check_track_access (fun s _ => inr s) "k" (fun s => s) (fun _ => "t"%string)
    ∅ "T" (Some {| id := "U" |}) ex_db "delete" (Some "203.0.113.7"%string) 0 "n".

Definition ex_access_token : string :=
  substring_to 32 "T:U:delete:203.0.113.7:tkn".

Definition ex_track_session : TrackSession :=
  {| ts_track_id := "T"; ts_user_id := "U"; ts_operation := "delete";
     ts_client_ip := Some "203.0.113.7"%string; ts_expires_at := 1800; ts_created_at := 0 |}.

Lemma granted_token_validates_witness :
  (validate_secure_access_token ex_granted.2 ex_access_token "T" (Some "U"%string) "delete"
     (Some "203.0.113.99"%string) 600 601).1 = true.
Proof.
  apply (granted_token_validates (fun s _ => inr s) "k" (fun s => s) (fun _ => "t"%string)
           ∅ ex_granted.2 "T" "T" (Some {| id := "U" |}) ex_db "delete"
           (Some "203.0.113.7"%string) 0 "n"
           {| track_is_public := Some false; track_owner_id := Some "U"%string |}
           ex_access_token (Some "U"%string) (Some "203.0.113.99"%string) 600 601).
  - reflexivity.
  - reflexivity.
  - lia.
  - lia.
  - right. reflexivity.
  - reflexivity.
Defined.

Lemma validated_token_is_bound_witness :
  exists session,
    ex_granted.2 !! ex_access_token = Some session /\
    ex_granted.2 !! ex_access_token = Some session /\
    600 <= ts_expires_at session /\ 601 <= ts_expires_at session /\
    ts_track_id session = "T"%string /\ ts_operation session = "delete"%string /\
    (truthy (Some "U"%string) = true -> Some "U"%string = Some (ts_user_id session)) /\
    ip_mismatch (ts_client_ip session) (Some "203.0.113.99"%string) = false.
Proof.
  apply (validated_token_is_bound ex_granted.2 ex_granted.2 ex_access_token "T"
           (Some "U"%string) "delete" (Some "203.0.113.99"%string) 600 601).
  vm_compute. reflexivity.
Defined.

Lemma validation_drops_only_expired_tokens_witness :
  let outcome :=
    validate_secure_access_token ex_granted.2 ex_access_token "T" (Some "U"%string) "delete"
      None 1799 1801 in
  (forall k session, outcome.2 !! k = Some session -> ex_granted.2 !! k = Some session) /\
  (forall k session, ex_granted.2 !! k = Some session -> 1801 <= ts_expires_at session ->
                     outcome.2 !! k = Some session) /\
  (forall k session, ex_granted.2 !! k = Some session -> ts_expires_at session < 1799 ->
                     outcome.2 !! k = None) /\
  (forall session, ex_granted.2 !! ex_access_token = Some session ->
                   ts_expires_at session < 1801 ->
                   outcome = (false, delete ex_access_token
                                       (_cleanup_expired_sessions ex_granted.2 1799))).
Proof.
  apply (validation_drops_only_expired_tokens ex_granted.2 ex_access_token "T"
           (Some "U"%string) "delete" None 1799 1801).
  lia.
Defined.

(** Scenario: the token of that grant, presented for another operation, for
    another track, by another user, from another network, and after
    [revoke_user_sessions]. *)
Example access_token_scenario :
  let validate sessions track_id user_id operation client_ip :=
    (validate_secure_access_token sessions ex_access_token track_id user_id operation
       client_ip 600 601).1 in
  ex_granted.2 !! ex_access_token = Some ex_track_session /\
  validate ex_granted.2 "T" (Some "U") "delete" (Some "203.0.113.7") = true /\
  validate ex_granted.2 "T" None "delete" None = true /\
  validate ex_granted.2 "T" (Some "U") "read" (Some "203.0.113.7") = false /\
  validate ex_granted.2 "T2" (Some "U") "delete" (Some "203.0.113.7") = false /\
  validate ex_granted.2 "T" (Some "V") "delete" (Some "203.0.113.7") = false /\
  validate ex_granted.2 "T" (Some "U") "delete" (Some "198.51.100.7") = false /\
  validate (revoke_user_sessions ex_granted.2 "U") "T" (Some "U") "delete"
    (Some "203.0.113.7") = false.
Proof. repeat split; vm_compute; reflexivity. Qed.

End AccessTokens.

(** ** [app/core/chaotic_audio_protection.py]: the module-level functions
       and the decrypting method *)

Module AudioFiles.
Import Py AudioProtection.

Definition ENCRYPTED_SUFFIX : string := ".encrypted".
Definition SUPPORTED_FORMATS : list string := [".wav"; ".mp3"; ".m4a"; ".flac"]%string.

(** [s[:-n]] on a string of at least [n] characters *)
Definition without_last (n : nat) (s : string) : string :=
  String.substring 0 (String.length s - n) s.

Definition is_audio_file_encrypted (file_path : string) : bool :=
  HlsCleanup.endswith file_path ENCRYPTED_SUFFIX.

Definition get_original_filename (encrypted_path : string) : string :=
  if HlsCleanup.endswith encrypted_path ENCRYPTED_SUFFIX
  then without_last (String.length ENCRYPTED_SUFFIX) encrypted_path
  else encrypted_path.

(** What the module-level functions raise: an exception of [open] or of the
    cipher, a [FileNotFoundError] of their own, and their two [ValueError]s. *)
Inductive exn :=
| Raised (e : AudioProtection.exn)
| FileNotFound (message : string)
| UnsupportedFormat (file_ext : string)
| IntegrityCheckFailed (expected_sha256 actual_sha256 : string).

(** The dictionary [ChaoticAudioProtection.decrypt_audio_file] returns. *)
Inductive DecryptReport :=
| Decrypted (decrypted_path user_id track_id performance_mode : string)
| DecryptFailed (error : string) (performance_mode : string).

Definition G (A : Type) : Type := Runtime -> (exn + A) * Runtime.

Definition gret {A} (a : A) : G A := fun rt => (inr a, rt).

Definition graise {A} (e : exn) : G A := fun rt => (inl e, rt).

Definition gbind {A B} (m : G A) (k : A -> G B) : G B :=
  fun rt =>
    match m rt with
    | (inr a, rt') => k a rt'
    | (inl e, rt') => (inl e, rt')
    end.

(** A step of the facade, with its exceptions passed on. *)
Definition run {A} (m : F A) : G A :=
  fun rt =>
    match m rt with
    | (inr a, rt') => (inr a, rt')
    | (inl e, rt') => (inl (Raised e), rt')
    end.

Notation "'let+' x ':=' c 'in' k" := (gbind c (fun x => k))
  (at level 10, x pattern, c at level 100, k at level 200).
Notation "c >+> k" := (gbind c (fun _ => k))
  (at level 100, right associativity).

(** [os.path.isfile] *)
Definition isfile (path : string) : G bool :=
  fun rt => (inr (if files rt !! path is Some _ then true else false), rt).

(** [if os.path.exists(path): os.remove(path)], also inside
    [try: ... except: pass]: afterwards there is no file at the path. *)
Definition remove_if_exists (path : string) : G unit :=
  fun rt =>
    (inr tt,
     {| environ := environ rt; files := delete path (files rt);
        _progress_storage := _progress_storage rt;
        cipher_module := cipher_module rt; cipher_world := cipher_world rt;
        clock_reads := clock_reads rt; callback_calls := callback_calls rt |}).

(** [try: body finally: cleanup] and [try: body except Exception: cleanup; raise] *)
Definition finally {A} (body : G A) (cleanup : G unit) : G A :=
  fun rt =>
    let '(outcome, rt') := body rt in
    match cleanup rt' with
    | (inr _, rt'') => (outcome, rt'')
    | (inl e, rt'') => (inl e, rt'')
    end.

Definition on_exception {A} (body : G A) (cleanup : G unit) : G A :=
  fun rt =>
    match body rt with
    | (inr a, rt') => (inr a, rt')
    | (inl e, rt') =>
        match cleanup rt' with
        | (inr _, rt'') => (inl e, rt'')
        | (inl e', rt'') => (inl e', rt'')
        end
    end.

(** *** Strings and their suffixes *)

Lemma string_app_cons (c : ascii) (a b : string) :
  (String c a ++ b)%string = String c (a ++ b).
Proof. reflexivity. Qed.

Lemma string_app_nil (b : string) : (EmptyString ++ b)%string = b.
Proof. reflexivity. Qed.

Lemma string_length_app (a b : string) :
  String.length (a ++ b) = (String.length a + String.length b)%nat.
Proof.
  induction a as [|c a IH]; [done|].
  rewrite string_app_cons. cbn [String.length]. by rewrite IH.
Qed.

Lemma substring_all (b : string) : String.substring 0 (String.length b) b = b.
Proof. induction b as [|c b IH]; [done|]. cbn [String.length String.substring]. by rewrite IH. Qed.

Lemma substring_app_prefix (a b : string) :
  String.substring 0 (String.length a) (a ++ b) = a.
Proof.
  induction a as [|c a IH].
  - rewrite string_app_nil. by destruct b.
  - rewrite string_app_cons. cbn [String.length String.substring]. by rewrite IH.
Qed.

Lemma substring_app_suffix (a b : string) :
  String.substring (String.length a) (String.length b) (a ++ b) = b.
Proof.
  induction a as [|c a IH]; [apply substring_all|].
  rewrite string_app_cons. cbn [String.length String.substring]. exact IH.
Qed.

Lemma endswith_app (a b : string) : HlsCleanup.endswith (a ++ b) b = true.
Proof.
  unfold HlsCleanup.endswith. rewrite string_length_app.
  replace (String.length a + String.length b - String.length b)%nat
    with (String.length a) by lia.
  rewrite substring_app_suffix, String.eqb_refl, andb_true_r.
  apply Nat.leb_le. lia.
Qed.

Lemma substring_split (s : string) (k : nat) :
  (k <= String.length s)%nat ->
  (String.substring 0 k s ++ String.substring k (String.length s - k) s)%string = s.
Proof.
  revert k. induction s as [|c s IH]; intros k Hk.
  - cbn [String.length] in Hk. by replace k with 0%nat by lia.
  - destruct k as [|k].
    + change (String.substring 0 0 (String c s)) with EmptyString.
      rewrite string_app_nil, Nat.sub_0_r. apply substring_all.
    + cbn [String.length] in *. cbn [String.substring]. rewrite string_app_cons.
      change (S (String.length s) - S k)%nat with (String.length s - k)%nat.
      rewrite IH by lia. done.
Qed.

Lemma endswith_split (s suffix : string) :
  HlsCleanup.endswith s suffix = true ->
  (without_last (String.length suffix) s ++ suffix)%string = s.
Proof.
  unfold HlsCleanup.endswith, without_last. intros H.
  apply andb_true_iff in H as [Hle Heq]. apply Nat.leb_le in Hle.
  apply String.eqb_eq in Heq.
  pose proof (substring_split s (String.length s - String.length suffix)%nat) as H.
  replace (String.length s - (String.length s - String.length suffix))%nat
    with (String.length suffix) in H by lia.
  rewrite Heq in H. apply H. lia.
Qed.

Section Files.

Variable os_entropy : nat -> byte.
Variable PBKDF2HMAC_SHA256 : nat -> bytes -> Z -> bytes -> bytes.
Variable blake2b_32 hmac_sha256 : bytes -> bytes -> bytes.
Variable islower isupper isdigit isalnum : ascii -> bool.
Variable sha256_digest : bytes -> bytes.
Variable sha256_hexdigest : bytes -> string.
Variable b64encode : bytes -> string.

(** [str(e)], the name [tempfile.NamedTemporaryFile] picks given the files
    there are, and [pathlib]'s [Path(p).suffix] and [Path(p).with_suffix(s)];
    the clock and [str(e)] of the facade's encrypting method. *)
Variable str_of_exn : exn -> string.
Variable temp_name : gmap string bytes -> string.
Variable wall_clock : nat -> float.
Variable str_of_facade_exn : AudioProtection.exn -> string.
Variable path_suffix : string -> string.
Variable path_with_suffix : string -> string -> string.

(** The paths [open(path, 'wb')] and [tempfile.NamedTemporaryFile] refuse,
    and the moves [os.rename] refuses: a destination on another file system
    than the temporary directory, an empty or unwritable destination. *)
Variable open_fails : string -> bool.
Variable rename_fails : string -> string -> bool.

(** [os.rename(src, dst)] *)
Definition rename (src dst : string) : G unit :=
  fun rt =>
    match files rt !! src with
    | Some data =>
        if rename_fails src dst then (inl (Raised (OSError dst)), rt)
        else
          (inr tt,
           {| environ := environ rt; files := <[dst := data]> (delete src (files rt));
              _progress_storage := _progress_storage rt;
              cipher_module := cipher_module rt; cipher_world := cipher_world rt;
              clock_reads := clock_reads rt; callback_calls := callback_calls rt |})
    | None => (inl (Raised (FileNotFoundError src)), rt)
    end.

Definition call_encrypt_with_validation (data : bytes) (secret_key : string) : G bytes :=
  fun rt =>
    let '(res, w) :=
      ChaoticCipher.encrypt_with_validation os_entropy PBKDF2HMAC_SHA256 blake2b_32
        hmac_sha256 islower isupper isdigit isalnum (cipher_module rt)
        data secret_key (cipher_world rt) in
    (match res with
     | Ok blob => inr blob
     | Raise e => inl (Raised (CipherError e))
     end,
     {| environ := environ rt; files := files rt;
        _progress_storage := _progress_storage rt;
        cipher_module := cipher_module rt; cipher_world := w;
        clock_reads := clock_reads rt; callback_calls := callback_calls rt |}).

Definition call_decrypt_with_validation (data : bytes) (secret_key : string) : G bytes :=
  fun rt =>
    let '(res, w) :=
      ChaoticCipher.decrypt_with_validation os_entropy PBKDF2HMAC_SHA256 blake2b_32
        hmac_sha256 islower isupper isdigit isalnum (cipher_module rt)
        data secret_key (cipher_world rt) in
    (match res with
     | Ok plain => inr plain
     | Raise e => inl (Raised (CipherError e))
     end,
     {| environ := environ rt; files := files rt;
        _progress_storage := _progress_storage rt;
        cipher_module := cipher_module rt; cipher_world := w;
        clock_reads := clock_reads rt; callback_calls := callback_calls rt |}).

Definition read (path : string) : G bytes := run (read_file path).
Definition write (path : string) (data : bytes) : G unit :=
  run (write_file open_fails path data).
Definition file_sha256 (path : string) : G string :=
  run (calculate_file_sha256 sha256_hexdigest path).

Definition default_encrypted_path (input_path : string) (preserve_extension : bool) : string :=
  if preserve_extension then (input_path ++ ENCRYPTED_SUFFIX)%string
  else path_with_suffix input_path ENCRYPTED_SUFFIX.

Definition default_decrypted_path (encrypted_path : string) : string :=
  if HlsCleanup.endswith encrypted_path ENCRYPTED_SUFFIX
  then without_last (String.length ENCRYPTED_SUFFIX) encrypted_path
  else (encrypted_path ++ ".decrypted")%string.

(** The guard [if output_path and os.path.exists(output_path)] and its
    [os.remove]. *)
Definition cleanup_output (output_path : string) : G unit :=
  if String.eqb output_path "" then gret tt else remove_if_exists output_path.

(** The module-level [encrypt_audio_file]. *)
Definition encrypt_audio_file (input_path secret_key : string)
    (output_path : option string) (preserve_extension : bool) : G (string * string) :=
  let+ is_file := isfile input_path in
  if negb is_file then graise (FileNotFound ("Audio file not found: " ++ input_path))
  else
    let file_ext := str_lower (path_suffix input_path) in
    if negb (bool_decide (file_ext ∈ SUPPORTED_FORMATS))
    then graise (UnsupportedFormat file_ext)
    else
      let+ original_sha256 := file_sha256 input_path in
      let output_path :=
        match output_path with
        | Some p => p
        | None => default_encrypted_path input_path preserve_extension
        end in
      on_exception
        (let+ audio_data := read input_path in
         let+ encrypted_data := call_encrypt_with_validation audio_data secret_key in
         write output_path encrypted_data >+>
         gret (output_path, original_sha256))
        (cleanup_output output_path).

(** The module-level [decrypt_audio_file]. *)
Definition decrypt_audio_file (encrypted_path secret_key expected_sha256 : string)
    (output_path : option string) (verify_integrity : bool) : G string :=
  let+ is_file := isfile encrypted_path in
  if negb is_file
  then graise (FileNotFound ("Encrypted file not found: " ++ encrypted_path))
  else
    let output_path :=
      match output_path with
      | Some p => p
      | None => default_decrypted_path encrypted_path
      end in
    on_exception
      (let+ encrypted_data := read encrypted_path in
       let+ decrypted_data := call_decrypt_with_validation encrypted_data secret_key in
       fun rt =>
         let temp_path := temp_name (files rt) in
         (write temp_path decrypted_data >+>
          finally
            ((if verify_integrity then
                let+ actual_sha256 := file_sha256 temp_path in
                if negb (String.eqb actual_sha256 expected_sha256)
                then graise (IntegrityCheckFailed expected_sha256 actual_sha256)
                else gret tt
              else gret tt) >+>
             remove_if_exists output_path >+>
             rename temp_path output_path >+>
             gret output_path)
            (remove_if_exists temp_path)) rt)
      (cleanup_output output_path).

(** [ChaoticAudioProtection.decrypt_audio_file]; [expected_sha256] is tested
    for truth. *)
Definition ChaoticAudioProtection_decrypt_audio_file
    (master_secret encrypted_path output_path user_id track_id : string)
    (expected_sha256 : option string) (performance_mode : string)
  : Runtime -> DecryptReport * Runtime :=
  fun rt =>
    let try_block : G DecryptReport :=
      run (set_environ (insert ENV_MODE performance_mode)) >+>
      let secret_key :=
        create_audio_protection_key PBKDF2HMAC_SHA256 sha256_digest b64encode
          user_id track_id master_secret in
      let+ decrypted_path :=
        if Web.truthy expected_sha256 then
          decrypt_audio_file encrypted_path secret_key (Web.or_empty expected_sha256)
            (Some output_path) true
        else
          let+ encrypted_data := read encrypted_path in
          let+ decrypted_data := call_decrypt_with_validation encrypted_data secret_key in
          write output_path decrypted_data >+>
          gret output_path in
      gret (Decrypted decrypted_path user_id track_id performance_mode) in
    let '(report, rt1) :=
      match try_block rt with
      | (inr report, rt') => (report, rt')
      | (inl e, rt') => (DecryptFailed (str_of_exn e) performance_mode, rt')
      end in
    let '(_, rt2) := set_environ (delete ENV_MODE) rt1 in
    (report, rt2).

#[local] Abbreviation decrypt_with_validation_ :=
  (ChaoticCipher.decrypt_with_validation os_entropy PBKDF2HMAC_SHA256 blake2b_32
     hmac_sha256 islower isupper isdigit isalnum).
#[local] Abbreviation encrypt_with_validation_ :=
  (ChaoticCipher.encrypt_with_validation os_entropy PBKDF2HMAC_SHA256 blake2b_32
     hmac_sha256 islower isupper isdigit isalnum).

Ltac files_run :=
  cbv beta iota zeta delta
    [decrypt_audio_file encrypt_audio_file ChaoticAudioProtection_decrypt_audio_file
     gbind gret graise run read write file_sha256 isfile remove_if_exists rename
     finally on_exception cleanup_output
     call_decrypt_with_validation call_encrypt_with_validation
     read_file write_file calculate_file_sha256 fbind fret set_environ
     environ files _progress_storage cipher_module cipher_world clock_reads
     callback_calls fst snd negb].

Ltac files_steps H1 H2 := repeat (progress (files_run; rewrite ?H1, ?H2)).

(** The files after the handler's [if output_path and os.path.exists(...)]
    clean-up, and the output path a call resolves to. *)
Definition cleaned (output_path : string) (fs : gmap string bytes) : gmap string bytes :=
  if String.eqb output_path "" then fs else delete output_path fs.

Definition decrypted_path (encrypted_path : string) (output_path : option string) : string :=
  match output_path with
  | Some p => p
  | None => default_decrypted_path encrypted_path
  end.

Lemma decrypt_audio_file_cases
    (encrypted_path secret_key expected_sha256 : string) (output_path : option string)
    (verify_integrity : bool) (rt : Runtime) :
  let out := decrypted_path encrypted_path output_path in
  let r := decrypt_audio_file encrypted_path secret_key expected_sha256 output_path
             verify_integrity rt in
  cipher_module r.2 = cipher_module rt /\ environ r.2 = environ rt /\
  match files rt !! encrypted_path with
  | None =>
      r = (inl (FileNotFound ("Encrypted file not found: " ++ encrypted_path)), rt)
  | Some blob =>
      match decrypt_with_validation_ (cipher_module rt) blob secret_key (cipher_world rt) with
      | (Raise e, w) =>
          r.1 = inl (Raised (CipherError e)) /\
          files r.2 = cleaned out (files rt) /\ cipher_world r.2 = w
      | (Ok data, w) =>
          cipher_world r.2 = w /\
          let temp := temp_name (files rt) in
          if open_fails temp
          then r.1 = inl (Raised (OSError temp)) /\ files r.2 = cleaned out (files rt)
          else if verify_integrity && negb (String.eqb (sha256_hexdigest data) expected_sha256)
          then r.1 = inl (IntegrityCheckFailed expected_sha256 (sha256_hexdigest data)) /\
               files r.2 = cleaned out (delete temp (<[temp := data]> (files rt)))
          else if String.eqb temp out
          then r.1 = inl (Raised (FileNotFoundError temp)) /\
               files r.2 =
                 cleaned out (delete temp (delete out (<[temp := data]> (files rt))))
          else if rename_fails temp out
          then r.1 = inl (Raised (OSError out)) /\
               files r.2 =
                 cleaned out (delete temp (delete out (<[temp := data]> (files rt))))
          else r.1 = inr out /\
               files r.2 =
                 delete temp
                   (<[out := data]> (delete temp (delete out (<[temp := data]> (files rt)))))
      end
  end.
Proof.
  intros out r. subst r.
  destruct rt as [env fs progress cm w0 reads calls].
  cbn [environ files cipher_module cipher_world].
  unfold decrypt_audio_file. fold (decrypted_path encrypted_path output_path). fold out.
  destruct (fs !! encrypted_path) as [blob|] eqn:Hfile.
  2:{ files_run. rewrite Hfile. done. }
  destruct (decrypt_with_validation_ cm blob secret_key w0) as [[data|e] w] eqn:Hdec.
  2:{ files_steps Hfile Hdec. unfold cleaned. destruct (String.eqb out ""); done. }
  set (temp := temp_name fs).
  destruct (open_fails temp) eqn:Hopen.
  { files_steps Hfile Hdec. fold temp. rewrite Hopen. files_run.
    unfold cleaned. destruct (String.eqb out ""); done. }
  destruct verify_integrity; cbn [andb].
  - destruct (String.eqb (sha256_hexdigest data) expected_sha256) eqn:Hsha; cbn [negb].
    + destruct (String.eqb_spec temp out) as [Heq|Hne].
      * files_steps Hfile Hdec. fold temp. rewrite Hopen. files_run.
        rewrite lookup_insert_eq.
        files_steps Hsha Hdec. rewrite <- Heq. fold temp. rewrite lookup_delete_eq.
        files_run. unfold cleaned. destruct (String.eqb temp ""); done.
      * files_steps Hfile Hdec. fold temp. rewrite Hopen. files_run.
        rewrite lookup_insert_eq.
        files_steps Hsha Hdec. fold out. rewrite lookup_delete_ne by done.
        rewrite lookup_insert_eq.
        destruct (rename_fails temp out) eqn:Hren; files_run; [|done].
        unfold cleaned. destruct (String.eqb out ""); done.
    + files_steps Hfile Hdec. fold temp. rewrite Hopen. files_run.
      rewrite lookup_insert_eq.
      files_steps Hsha Hdec. unfold cleaned. fold out. destruct (String.eqb out ""); done.
  - destruct (String.eqb_spec temp out) as [Heq|Hne].
    + files_steps Hfile Hdec. fold temp. rewrite Hopen. files_run.
      rewrite <- Heq. rewrite lookup_delete_eq.
      files_run. unfold cleaned. destruct (String.eqb temp ""); done.
    + files_steps Hfile Hdec. fold temp. rewrite Hopen. files_run.
      fold out. rewrite lookup_delete_ne by done.
      rewrite lookup_insert_eq.
      destruct (rename_fails temp out) eqn:Hren; files_run; [|done].
      unfold cleaned. destruct (String.eqb out ""); done.
Qed.

Definition encrypted_path_of (input_path : string) (output_path : option string)
    (preserve_extension : bool) : string :=
  match output_path with
  | Some p => p
  | None => default_encrypted_path input_path preserve_extension
  end.

Lemma encrypt_audio_file_cases
    (input_path secret_key : string) (output_path : option string)
    (preserve_extension : bool) (rt : Runtime) :
  let out := encrypted_path_of input_path output_path preserve_extension in
  let file_ext := str_lower (path_suffix input_path) in
  let r := encrypt_audio_file input_path secret_key output_path preserve_extension rt in
  cipher_module r.2 = cipher_module rt /\ environ r.2 = environ rt /\
  match files rt !! input_path with
  | None => r = (inl (FileNotFound ("Audio file not found: " ++ input_path)), rt)
  | Some data =>
      if bool_decide (file_ext ∈ SUPPORTED_FORMATS) then
        match encrypt_with_validation_ (cipher_module rt) data secret_key (cipher_world rt) with
        | (Ok blob, w) =>
            cipher_world r.2 = w /\
            if open_fails out
            then r.1 = inl (Raised (OSError out)) /\ files r.2 = cleaned out (files rt)
            else r.1 = inr (out, sha256_hexdigest data) /\
                 files r.2 = <[out := blob]> (files rt)
        | (Raise e, w) =>
            r.1 = inl (Raised (CipherError e)) /\
            files r.2 = cleaned out (files rt) /\ cipher_world r.2 = w
        end
      else r = (inl (UnsupportedFormat file_ext), rt)
  end.
Proof.
  intros out file_ext r. subst r.
  destruct rt as [env fs progress cm w0 reads calls].
  cbn [environ files cipher_module cipher_world].
  unfold encrypt_audio_file.
  fold (encrypted_path_of input_path output_path preserve_extension). fold out. fold file_ext.
  destruct (fs !! input_path) as [data|] eqn:Hfile.
  2:{ files_run. rewrite Hfile. done. }
  destruct (bool_decide (file_ext ∈ SUPPORTED_FORMATS)) eqn:Hext.
  2:{ files_run. rewrite Hfile. files_run. done. }
  destruct (encrypt_with_validation_ cm data secret_key w0) as [[blob|e] w] eqn:Henc.
  - destruct (open_fails out) eqn:Hopen; files_steps Hfile Henc; rewrite Hopen; files_run;
      [|done].
    unfold cleaned. destruct (String.eqb out ""); done.
  - files_steps Hfile Henc. unfold cleaned. destruct (String.eqb out ""); done.
Qed.

Lemma cleaned_lookup (out p : string) (fs : gmap string bytes) :
  p <> out -> cleaned out fs !! p = fs !! p.
Proof.
  intros Hne. unfold cleaned. destruct (String.eqb out ""); [done|].
  by rewrite lookup_delete_ne.
Qed.

Lemma cleaned_lookup_out (out : string) (fs : gmap string bytes) :
  out <> ""%string -> cleaned out fs !! out = None.
Proof.
  intros Hne. unfold cleaned. destruct (String.eqb_spec out ""); [done|].
  apply lookup_delete_eq.
Qed.

(** X23. A decryption that fails leaves no output.  Let the temporary file
    get a name that is not in use.  When the module-level
    [decrypt_audio_file] raises, whether the blob is malformed, its MAC does
    not verify, the key is weak, the SHA-256 of the plaintext is not the
    expected one, or the temporary file cannot be written or moved to the
    output path, every file other than the output path is as it was before
    the call, the temporary file is gone, and when the encrypted file was
    there and the output path is not empty, there is no file at the output
    path, even if there was one before the call. *)
Theorem failed_decryption_leaves_no_output
    (encrypted_path secret_key expected_sha256 : string) (output_path : option string)
    (verify_integrity : bool) (rt rt' : Runtime) (e : exn) :
  files rt !! temp_name (files rt) = None ->
  decrypt_audio_file encrypted_path secret_key expected_sha256 output_path
    verify_integrity rt = (inl e, rt') ->
  let out := decrypted_path encrypted_path output_path in
  (forall p, p <> out -> files rt' !! p = files rt !! p) /\
  (is_Some (files rt !! encrypted_path) -> out <> ""%string -> files rt' !! out = None) /\
  (files rt !! encrypted_path = None -> rt' = rt) /\
  cipher_module rt' = cipher_module rt /\ environ rt' = environ rt.
Proof.
  intros Hfresh Hrun out.
  pose proof (decrypt_audio_file_cases encrypted_path secret_key expected_sha256
                output_path verify_integrity rt) as H.
  cbn zeta in H. rewrite Hrun in H. cbn [fst snd] in H. fold out in H.
  destruct H as (Hcm & Henv & H).
  set (temp := temp_name (files rt)) in *.
  assert (Htemp : forall data p,
    delete temp (<[temp := data]> (files rt)) !! p = files rt !! p).
  { intros data p. destruct (decide (p = temp)) as [->|Hne].
    - by rewrite lookup_delete_eq.
    - by rewrite lookup_delete_ne, lookup_insert_ne. }
  destruct (files rt !! encrypted_path) as [blob|] eqn:Hfile.
  2:{ injection H as _ ->. repeat split; done. }
  split; [|split; [|split; [done|done]]].
  - intros p Hp.
    assert (Hmoved : forall data,
      cleaned out (delete temp (delete out (<[temp := data]> (files rt)))) !! p =
      files rt !! p).
    { intros data. rewrite cleaned_lookup by done.
      destruct (decide (p = temp)) as [->|Hne]; [by rewrite lookup_delete_eq|].
      by rewrite !lookup_delete_ne, lookup_insert_ne. }
    destruct (ChaoticCipher.decrypt_with_validation _ _ _ _ _ _ _ _ _ _ _ _)
      as [[data|e'] w].
    + destruct H as [_ H].
      destruct (open_fails temp); [destruct H as [_ ->]; by rewrite cleaned_lookup|].
      destruct (verify_integrity && _).
      * destruct H as [_ ->]. by rewrite cleaned_lookup, Htemp.
      * destruct (String.eqb temp out); [destruct H as [_ ->]; apply Hmoved|].
        destruct (rename_fails temp out); [destruct H as [_ ->]; apply Hmoved|].
        by destruct H.
    + destruct H as (_ & -> & _). by rewrite cleaned_lookup.
  - intros _ Hout.
    destruct (ChaoticCipher.decrypt_with_validation _ _ _ _ _ _ _ _ _ _ _ _)
      as [[data|e'] w].
    + destruct H as [_ H].
      destruct (open_fails temp); [destruct H as [_ ->]; by apply cleaned_lookup_out|].
      destruct (verify_integrity && _).
      * destruct H as [_ ->]. by apply cleaned_lookup_out.
      * destruct (String.eqb temp out);
          [destruct H as [_ ->]; by apply cleaned_lookup_out|].
        destruct (rename_fails temp out);
          [destruct H as [_ ->]; by apply cleaned_lookup_out|].
        by destruct H.
    + destruct H as (_ & -> & _). by apply cleaned_lookup_out.
Qed.

Lemma string_app_neq (a b : string) : b <> ""%string -> (a ++ b)%string <> a.
Proof.
  intros Hb Heq. assert (H : String.length (a ++ b) = String.length a) by by rewrite Heq.
  rewrite string_length_app in H. destruct b; [done|]. cbn [String.length] in H. lia.
Qed.

(** X24. Encrypting a file and decrypting it again, with the module-level
    functions and their default names.  Let HMAC-SHA256 give 32 bytes.  If
    [encrypt_audio_file] returns, it returns the input path followed by
    [.encrypted] and the SHA-256 of the input file, and has written one
    file, at that path.  Then let the temporary file get a name that is not
    in use, let it be written, and let [os.rename] move it to the input
    path (the temporary directory and the input file are on one file
    system): [decrypt_audio_file], called with the encrypted path, the same
    key and that SHA-256, passes its integrity check, returns the input
    path, and leaves every file as the encryption left it: the input file
    holds its original bytes and no temporary file stays behind.  If instead
    the move fails, the call raises and the input file is gone. *)
Theorem file_roundtrip (input_path secret_key : string) (rt rt1 : Runtime)
    (encrypted_path original_sha256 : string) :
  (forall key msg, length (hmac_sha256 key msg) = 32%nat) ->
  encrypt_audio_file input_path secret_key None true rt =
    (inr (encrypted_path, original_sha256), rt1) ->
  files rt1 !! temp_name (files rt1) = None ->
  open_fails (temp_name (files rt1)) = false ->
  encrypted_path = (input_path ++ ENCRYPTED_SUFFIX)%string /\
  (exists data blob,
     files rt !! input_path = Some data /\ original_sha256 = sha256_hexdigest data /\
     files rt1 = <[encrypted_path := blob]> (files rt)) /\
  exists res rt2,
    decrypt_audio_file encrypted_path secret_key original_sha256 None true rt1 =
      (res, rt2) /\
    if rename_fails (temp_name (files rt1)) input_path
    then res = inl (Raised (OSError input_path)) /\
         files rt2 = delete input_path (files rt1)
    else res = inr input_path /\ files rt2 = files rt1.
Proof.
  intros Hlen Henc Hfresh Hopen.
  pose proof (encrypt_audio_file_cases input_path secret_key None true rt) as H.
  cbn zeta in H. rewrite Henc in H. cbn [fst snd encrypted_path_of] in H.
  destruct H as (Hcm & _ & H).
  destruct (files rt !! input_path) as [data|] eqn:Hfile; [|done].
  destruct (bool_decide _); [|done].
  destruct (encrypt_with_validation_ (cipher_module rt) data secret_key (cipher_world rt))
    as [[blob|e] w] eqn:Hcipher; [|by destruct H].
  destruct H as [Hw H].
  destruct (open_fails (default_encrypted_path input_path true)); [by destruct H|].
  destruct H as [Hres Hfiles]. injection Hres as -> ->.
  unfold default_encrypted_path in *.
  set (encrypted_path := (input_path ++ ENCRYPTED_SUFFIX)%string) in *.
  split; [done|]. split; [by eexists _, _|].
  assert (Hne : encrypted_path <> input_path) by by apply string_app_neq.
  assert (Hin : files rt1 !! input_path = Some data).
  { by rewrite Hfiles, lookup_insert_ne. }
  set (temp := temp_name (files rt1)) in *.
  assert (Htemp : temp <> input_path) by congruence.
  pose proof (decrypt_audio_file_cases encrypted_path secret_key (sha256_hexdigest data)
                None true rt1) as H.
  cbn zeta in H. cbn [decrypted_path] in H.
  replace (default_decrypted_path encrypted_path) with input_path in H.
  2:{ unfold default_decrypted_path, encrypted_path. rewrite endswith_app.
      unfold without_last. rewrite string_length_app.
      replace (String.length input_path + String.length ENCRYPTED_SUFFIX
               - String.length ENCRYPTED_SUFFIX)%nat
        with (String.length input_path) by lia.
      by rewrite substring_app_prefix. }
  destruct H as (_ & _ & H).
  rewrite Hfiles, lookup_insert_eq, <- Hfiles in H. rewrite Hcm, Hw in H.
  destruct (ChaoticCipher.validated_blob_decrypts os_entropy PBKDF2HMAC_SHA256 blake2b_32
              hmac_sha256 islower isupper isdigit isalnum (cipher_module rt)
              data blob secret_key (cipher_world rt) w Hlen Hcipher w) as [w2 Hdec].
  rewrite Hdec in H. destruct H as [_ H]. cbn zeta in H. fold temp in H.
  rewrite Hopen, String.eqb_refl in H. cbn [negb andb] in H.
  destruct (String.eqb_spec temp input_path) as [|_]; [done|].
  destruct (decrypt_audio_file _ _ _ _ _ rt1) as [res rt2]. cbn [fst snd] in *.
  exists res, rt2. split; [done|].
  destruct (rename_fails temp input_path); destruct H as [Hres Hfs];
    (split; [done|]); rewrite Hfs; apply map_eq; intros p.
  - destruct (decide (p = input_path)) as [->|Hp'].
    + rewrite lookup_delete_eq. unfold cleaned.
      destruct (String.eqb input_path "");
        [by rewrite lookup_delete_ne, lookup_delete_eq|by rewrite lookup_delete_eq].
    + rewrite cleaned_lookup by done. rewrite (lookup_delete_ne _ input_path) by done.
      destruct (decide (p = temp)) as [->|Hp]; [by rewrite lookup_delete_eq, Hfresh|].
      by rewrite !lookup_delete_ne, lookup_insert_ne.
  - destruct (decide (p = temp)) as [->|Hp]; [by rewrite lookup_delete_eq, Hfresh|].
    rewrite lookup_delete_ne by done.
    destruct (decide (p = input_path)) as [->|Hp']; [by rewrite lookup_insert_eq|].
    by rewrite lookup_insert_ne, !lookup_delete_ne, lookup_insert_ne.
Qed.

#[local] Abbreviation facade_encrypt :=
  (AudioProtection.encrypt_audio_file os_entropy PBKDF2HMAC_SHA256 blake2b_32 hmac_sha256
     islower isupper isdigit isalnum sha256_digest sha256_hexdigest b64encode
     wall_clock str_of_facade_exn open_fails).
#[local] Abbreviation key_for :=
  (create_audio_protection_key PBKDF2HMAC_SHA256 sha256_digest b64encode).

Ltac method_run :=
  cbv beta iota zeta delta
    [ChaoticAudioProtection_decrypt_audio_file gbind gret graise run read write
     call_decrypt_with_validation read_file write_file fbind fret set_environ
     environ files _progress_storage cipher_module cipher_world clock_reads
     callback_calls fst snd].

(** X25. Encrypting and decrypting through the facade.  Let HMAC-SHA256
    give 32 bytes, and let the temporary file get a name that is not in use
    and is not the output path.  Let the file system take what the
    decrypting method writes: with an expected SHA-256, the temporary file
    can be written and [os.rename] moves it to the output path; without one,
    the output path can be opened for writing.  If the encrypting method
    reports success, then the decrypting method, given the encrypted path,
    the same user and track, any performance mode, and as expected SHA-256
    either nothing or the SHA-256 the encryption reported, reports success
    for the output path it was given; the file there holds the bytes of the
    original input, every other file is as the encryption left it, and the
    mode variable is gone from the environment. *)
Theorem facade_roundtrip
    (master_secret input_path encrypted_path output_path user_id track_id : string)
    (performance_mode decrypt_mode : string) (has_callback : bool)
    (expected_sha256 : option string) (rt rt1 : Runtime)
    (reported_path reported_sha256 reported_user reported_track reported_mode : string)
    (encryption_time estimated_time : float) :
  (forall key msg, length (hmac_sha256 key msg) = 32%nat) ->
  facade_encrypt master_secret input_path encrypted_path user_id track_id performance_mode
    has_callback rt =
    (inr (Encrypted reported_path reported_sha256 reported_user reported_track
            reported_mode encryption_time estimated_time), rt1) ->
  expected_sha256 = None \/ expected_sha256 = Some reported_sha256 ->
  files rt1 !! temp_name (files rt1) = None ->
  temp_name (files rt1) <> output_path ->
  (if Web.truthy expected_sha256
   then open_fails (temp_name (files rt1)) = false /\
        rename_fails (temp_name (files rt1)) output_path = false
   else open_fails output_path = false) ->
  let r := ChaoticAudioProtection_decrypt_audio_file master_secret encrypted_path
             output_path user_id track_id expected_sha256 decrypt_mode rt1 in
  r.1 = Decrypted output_path user_id track_id decrypt_mode /\
  (exists data,
     files rt !! input_path = Some data /\ reported_sha256 = sha256_hexdigest data /\
     files r.2 !! output_path = Some data) /\
  (forall p, p <> output_path -> files r.2 !! p = files rt1 !! p) /\
  environ r.2 = delete ENV_MODE (environ rt1).
Proof.
  intros Hlen Henc Hexpected Hfresh Htemp Hfs r. subst r.
  pose proof (facade_encrypt_cases os_entropy PBKDF2HMAC_SHA256 blake2b_32 hmac_sha256
                islower isupper isdigit isalnum sha256_digest sha256_hexdigest b64encode
                wall_clock str_of_facade_exn open_fails master_secret input_path
                encrypted_path user_id track_id performance_mode has_callback rt) as H.
  cbn zeta in H. rewrite Henc in H. cbn [fst snd] in H.
  destruct H as (_ & Hcm & H).
  destruct (files rt !! input_path) as [data|] eqn:Hfile; [|by destruct H].
  set (key := key_for user_id track_id master_secret) in *.
  destruct (ChaoticCipher.encrypt_with_validation _ _ _ _ _ _ _ _ _ _ _ _)
    as [[blob|e] w] eqn:Hcipher; [|by destruct H].
  destruct (open_fails encrypted_path); [by destruct H|].
  destruct H as ((t1 & t2 & Hrep) & Hfiles & Hw & _).
  injection Hrep as -> -> -> -> -> -> ->.
  destruct (ChaoticCipher.validated_blob_decrypts os_entropy PBKDF2HMAC_SHA256 blake2b_32
              hmac_sha256 islower isupper isdigit isalnum (cipher_module rt)
              data blob key (cipher_world rt) w Hlen Hcipher w) as [w2 Hdec].
  set (w1 := w) in Hdec, Hw. clearbody w1.
  assert (Hblob : files rt1 !! encrypted_path = Some blob)
    by (by rewrite Hfiles, lookup_insert_eq).
  clear Henc Hfiles Hcipher.
  destruct rt1 as [env fs progress cm w0 reads calls].
  cbn [environ files cipher_module cipher_world] in *. subst cm w0.
  set (cm := cipher_module rt) in *. clearbody cm.
  set (fs0 := files rt) in *. clearbody fs0.
  set (temp := temp_name fs) in *.
  destruct (Web.truthy expected_sha256) eqn:Htruthy.
  - (* the module-level function checks the SHA-256 *)
    assert (Hsome : expected_sha256 = Some (sha256_hexdigest data)).
    { destruct Hexpected as [->| ->]; done. }
    subst expected_sha256.
    pose proof (decrypt_audio_file_cases encrypted_path key (sha256_hexdigest data)
                  (Some output_path) true
                  {| environ := <[ENV_MODE := decrypt_mode]> env; files := fs;
                     _progress_storage := progress; cipher_module := cm;
                     cipher_world := w1; clock_reads := reads; callback_calls := calls |})
      as H.
    cbn zeta in H. cbn [environ files cipher_module cipher_world decrypted_path] in H.
    rewrite Hblob, Hdec in H. fold temp in H.
    destruct Hfs as [Hopen Hren].
    rewrite Hopen, String.eqb_refl in H. cbn [negb andb] in H.
    destruct (String.eqb_spec temp output_path) as [|_]; [done|].
    rewrite Hren in H.
    destruct H as (_ & Henv & _ & Hres & Hfs).
    method_run. rewrite Htruthy. fold key. cbn [Web.or_empty default from_option id].
    destruct (decrypt_audio_file _ _ _ _ _ _) as [res rt2]. cbn [fst snd] in *.
    subst res. destruct rt2 as [env2 fs2 progress2 cm2 w02 reads2 calls2].
    cbn [environ files] in *. subst env2 fs2.
    split; [done|]. split; [|split].
    + exists data. split; [done|]. split; [done|].
      by rewrite lookup_delete_ne, lookup_insert_eq.
    + intros p Hp.
      destruct (decide (p = temp)) as [->|Hpt]; [by rewrite lookup_delete_eq, Hfresh|].
      by rewrite lookup_delete_ne, lookup_insert_ne, !lookup_delete_ne, lookup_insert_ne.
    + apply delete_insert_eq.
  - (* no SHA-256 to compare with *)
    method_run. rewrite Htruthy. method_run. rewrite Hblob. method_run. fold key.
    rewrite Hdec. method_run. rewrite Hfs. method_run.
    split; [done|]. split; [|split].
    + exists data. split; [done|]. split; [done|]. by rewrite lookup_insert_eq.
    + intros p Hp. by rewrite lookup_insert_ne.
    + apply delete_insert_eq.
Qed.

(** X22. The names of encrypted files.  The default name the module-level
    [encrypt_audio_file] gives its output, the input path followed by
    [.encrypted], is recognised by [is_audio_file_encrypted], and both
    [get_original_filename] and the default output name of
    [decrypt_audio_file] take it back to the input path.  A path that
    [is_audio_file_encrypted] recognises is its original name followed by
    [.encrypted]; one it does not recognise is its own original name, and is
    decrypted by default to the path followed by [.decrypted]. *)
Theorem encrypted_names_roundtrip (path : string) :
  is_audio_file_encrypted (default_encrypted_path path true) = true /\
  get_original_filename (default_encrypted_path path true) = path /\
  default_decrypted_path (default_encrypted_path path true) = path /\
  (if is_audio_file_encrypted path
   then (get_original_filename path ++ ENCRYPTED_SUFFIX)%string = path /\
        default_decrypted_path path = get_original_filename path
   else get_original_filename path = path /\
        default_decrypted_path path = (path ++ ".decrypted")%string).
Proof.
  unfold is_audio_file_encrypted, get_original_filename, default_decrypted_path,
    default_encrypted_path.
  rewrite endswith_app. split; [done|].
  assert (H : without_last (String.length ENCRYPTED_SUFFIX) (path ++ ENCRYPTED_SUFFIX) = path).
  { unfold without_last. rewrite string_length_app.
    replace (String.length path + String.length ENCRYPTED_SUFFIX
             - String.length ENCRYPTED_SUFFIX)%nat with (String.length path) by lia.
    apply substring_app_prefix. }
  rewrite H. split; [done|]. split; [done|].
  destruct (HlsCleanup.endswith path ENCRYPTED_SUFFIX) eqn:E; [|done].
  split; [|done]. by apply endswith_split.
Qed.

End Files.

(** A run on stand-ins for the hash, the encoding, the temporary name and
    [pathlib]: the file [in.wav] of the facade's example is encrypted and
    decrypted. *)
Definition ex_encrypt_file (input_path : string) (rt : Runtime)
  : (exn + (string * string)) * Runtime :=
  encrypt_audio_file ChaoticCipher.ex_entropy ChaoticCipher.ex_pbkdf2
    ChaoticCipher.ex_blake2b ChaoticCipher.ex_hmac
    ChaoticCipher.ascii_islower ChaoticCipher.ascii_isupper
    ChaoticCipher.ascii_isdigit ChaoticCipher.ascii_isalnum
    (fun _ => "0f"%string) (fun _ => ".wav"%string) (fun p s => (p ++ s)%string)
    (fun path => String.eqb path "")
    input_path ChaoticCipher.ex_password None true rt.

Definition ex_decrypt_file (encrypted_path expected_sha256 : string) (rt : Runtime)
  : (exn + string) * Runtime :=
  decrypt_audio_file ChaoticCipher.ex_entropy ChaoticCipher.ex_pbkdf2
    ChaoticCipher.ex_blake2b ChaoticCipher.ex_hmac
    ChaoticCipher.ascii_islower ChaoticCipher.ascii_isupper
    ChaoticCipher.ascii_isdigit ChaoticCipher.ascii_isalnum
    (fun _ => "0f"%string) (fun _ => "tmp0"%string)
    (fun path => String.eqb path "") (fun _ dst => String.eqb dst "")
    encrypted_path ChaoticCipher.ex_password expected_sha256 None true rt.

Definition ex_decrypt_method (expected_sha256 : option string) (rt : Runtime)
  : DecryptReport * Runtime :=
  ChaoticAudioProtection_decrypt_audio_file ChaoticCipher.ex_entropy ChaoticCipher.ex_pbkdf2
    ChaoticCipher.ex_blake2b ChaoticCipher.ex_hmac
    ChaoticCipher.ascii_islower ChaoticCipher.ascii_isupper
    ChaoticCipher.ascii_isdigit ChaoticCipher.ascii_isalnum
    (fun b => b) (fun _ => "0f"%string) (fun _ => ChaoticCipher.ex_password)
    (fun _ => "error"%string) (fun _ => "tmp0"%string)
    (fun path => String.eqb path "") (fun _ dst => String.eqb dst "")
    "master" "out.enc" "out.wav" "alice" "T1" expected_sha256 "secure" rt.

Definition ex_garbled : Runtime :=
  import_runtime ∅ {[ "x.encrypted"%string := repeat "000"%byte 10;
                      "x"%string := ChaoticCipher.ex_plaintext ]}.

Definition report_times (r : AudioProtection.exn + Report) : float * float :=
  match r with
  | inr (Encrypted _ _ _ _ _ encryption_time estimated_time) =>
      (encryption_time, estimated_time)
  | _ => (0%float, 0%float)
  end.

Lemma failed_decryption_leaves_no_output_witness :
  let out := "x"%string in
  let rt' := (ex_decrypt_file "x.encrypted" "0f" ex_garbled).2 in
  (forall p, p <> out -> files rt' !! p = files ex_garbled !! p) /\
  (is_Some (files ex_garbled !! "x.encrypted"%string) -> out <> ""%string ->
   files rt' !! out = None) /\
  (files ex_garbled !! "x.encrypted"%string = None -> rt' = ex_garbled) /\
  cipher_module rt' = cipher_module ex_garbled /\ environ rt' = environ ex_garbled.
Proof.
  apply (failed_decryption_leaves_no_output ChaoticCipher.ex_entropy ChaoticCipher.ex_pbkdf2
           ChaoticCipher.ex_blake2b ChaoticCipher.ex_hmac
           ChaoticCipher.ascii_islower ChaoticCipher.ascii_isupper
           ChaoticCipher.ascii_isdigit ChaoticCipher.ascii_isalnum
           (fun _ => "0f"%string) (fun _ => "tmp0"%string)
           (fun path => String.eqb path "") (fun _ dst => String.eqb dst "")
           "x.encrypted" ChaoticCipher.ex_password "0f" None true ex_garbled
           (ex_decrypt_file "x.encrypted" "0f" ex_garbled).2
           (Raised (CipherError (ValueError InvalidDataTooShort)))).
  - vm_compute. reflexivity.
  - vm_compute. reflexivity.
Defined.

Lemma file_roundtrip_witness :
  "in.wav.encrypted"%string = ("in.wav" ++ ENCRYPTED_SUFFIX)%string /\
  (exists data blob,
     files ex_runtime !! "in.wav"%string = Some data /\ "0f"%string = "0f"%string /\
     files (ex_encrypt_file "in.wav" ex_runtime).2 =
       <["in.wav.encrypted"%string := blob]> (files ex_runtime)) /\
  exists res rt2,
    ex_decrypt_file "in.wav.encrypted" "0f" (ex_encrypt_file "in.wav" ex_runtime).2 =
      (res, rt2) /\
    if String.eqb "in.wav" ""
    then res = inl (Raised (OSError "in.wav")) /\
         files rt2 = delete "in.wav"%string (files (ex_encrypt_file "in.wav" ex_runtime).2)
    else res = inr "in.wav"%string /\
         files rt2 = files (ex_encrypt_file "in.wav" ex_runtime).2.
Proof.
  apply (file_roundtrip ChaoticCipher.ex_entropy ChaoticCipher.ex_pbkdf2
           ChaoticCipher.ex_blake2b ChaoticCipher.ex_hmac
           ChaoticCipher.ascii_islower ChaoticCipher.ascii_isupper
           ChaoticCipher.ascii_isdigit ChaoticCipher.ascii_isalnum
           (fun _ => "0f"%string) (fun _ => "tmp0"%string) (fun _ => ".wav"%string)
           (fun p s => (p ++ s)%string)
           (fun path => String.eqb path "") (fun _ dst => String.eqb dst "")
           "in.wav" ChaoticCipher.ex_password ex_runtime
           (ex_encrypt_file "in.wav" ex_runtime).2 "in.wav.encrypted" "0f").
  - apply ChaoticCipher.ex_hmac_length.
  - vm_compute. reflexivity.
  - vm_compute. reflexivity.
  - reflexivity.
Defined.

Lemma facade_roundtrip_witness :
  let rt1 := (ex_encrypt_audio_file "fast").2 in
  let r := ex_decrypt_method (Some "0f"%string) rt1 in
  r.1 = Decrypted "out.wav" "alice" "T1" "secure" /\
  (exists data,
     files ex_runtime !! "in.wav"%string = Some data /\ "0f"%string = "0f"%string /\
     files r.2 !! "out.wav"%string = Some data) /\
  (forall p, p <> "out.wav"%string -> files r.2 !! p = files rt1 !! p) /\
  environ r.2 = delete ENV_MODE (environ rt1).
Proof.
  apply (facade_roundtrip ChaoticCipher.ex_entropy ChaoticCipher.ex_pbkdf2
           ChaoticCipher.ex_blake2b ChaoticCipher.ex_hmac
           ChaoticCipher.ascii_islower ChaoticCipher.ascii_isupper
           ChaoticCipher.ascii_isdigit ChaoticCipher.ascii_isalnum
           (fun b => b) (fun _ => "0f"%string) (fun _ => ChaoticCipher.ex_password)
           (fun _ => "error"%string) (fun _ => "tmp0"%string)
           (fun _ => 0%float) (fun _ => "error"%string)
           (fun path => String.eqb path "") (fun _ dst => String.eqb dst "")
           "master" "in.wav" "out.enc" "out.wav" "alice" "T1" "fast" "secure" false
           (Some "0f"%string) ex_runtime (ex_encrypt_audio_file "fast").2
           "out.enc" "0f" "alice" "T1" "fast"
           (report_times (ex_encrypt_audio_file "fast").1).1
           (report_times (ex_encrypt_audio_file "fast").1).2).
  - apply ChaoticCipher.ex_hmac_length.
  - vm_compute. reflexivity.
  - right. reflexivity.
  - vm_compute. reflexivity.
  - discriminate.
  - split; reflexivity.
Defined.

(** Scenario: the encrypted file is decrypted with a wrong expected SHA-256;
    the call raises, and neither the output path nor the temporary file is
    left behind. *)
Example wrong_sha256 :
  let rt1 := (ex_encrypt_file "in.wav" ex_runtime).2 in
  let r := ex_decrypt_file "in.wav.encrypted" "ff" rt1 in
  r.1 = inl (IntegrityCheckFailed "ff" "0f") /\
  files r.2 !! "in.wav"%string = None /\
  files r.2 !! "tmp0"%string = None /\
  is_Some (files r.2 !! "in.wav.encrypted"%string).
Proof. repeat split; vm_compute; eauto. Qed.

(** Scenario: the temporary directory is on another file system, so
    [os.rename] refuses the move: the SHA-256 is the expected one, yet the
    call raises, and the file that was at the output path is gone. *)
Example failed_move_loses_the_original :
  let rt1 := (ex_encrypt_file "in.wav" ex_runtime).2 in
  let r :=
    decrypt_audio_file ChaoticCipher.ex_entropy ChaoticCipher.ex_pbkdf2
      ChaoticCipher.ex_blake2b ChaoticCipher.ex_hmac
      ChaoticCipher.ascii_islower ChaoticCipher.ascii_isupper
      ChaoticCipher.ascii_isdigit ChaoticCipher.ascii_isalnum
      (fun _ => "0f"%string) (fun _ => "tmp0"%string)
      (fun _ => false) (fun _ _ => true)
      "in.wav.encrypted" ChaoticCipher.ex_password "0f" None true rt1 in
  files rt1 !! "in.wav"%string = Some ChaoticCipher.ex_plaintext /\
  r.1 = inl (Raised (OSError "in.wav")) /\
  files r.2 !! "in.wav"%string = None /\
  files r.2 !! "tmp0"%string = None /\
  is_Some (files r.2 !! "in.wav.encrypted"%string).
Proof. repeat split; vm_compute; eauto. Qed.

End AudioFiles.
